(** * http-proxy: a shallow embedding of the traffic plane

  The definitions below follow the Go sources of [pkg/proxy] (router,
  flow, flow store, engine) and [pkg/filter].  Go [string] is modelled by
  [string] (a sequence of bytes), [[]byte] by [list ascii], [int] and
  [int64] by [Z], slices by lists, [map[string]T] by [gmap string T] and
  [*Flow] by an address into an explicit heap. *)

From Stdlib Require Import ZArith List String Ascii Lia Permutation Sorted Bool DecimalString.
From stdpp Require Import gmap strings list sorting.

Open Scope string_scope.
Open Scope list_scope.
Open Scope Z_scope.

(** ** Library functions used by every package *)

Module strings.

(** [len(s)] as a Go [int]. *)
Definition len (s : string) : Z := Z.of_nat (String.length s).

(** [strings.HasPrefix(s, prefix)]. *)
Definition HasPrefix (s prefix : string) : bool := String.prefix prefix s.

(** [strings.Contains(s, substr)]. *)
Fixpoint Contains (s substr : string) : bool :=
  String.prefix substr s ||
  match s with
  | EmptyString => false
  | String _ s' => Contains s' substr
  end.

(** [strings.SplitN(s, ":", 2)]: the part before the first colon, and the
    part after it when there is one. *)
Fixpoint SplitN_colon (s : string) : string * option string :=
  match s with
  | EmptyString => (EmptyString, None)
  | String c s' =>
      if Ascii.eqb c ":" then (EmptyString, Some s')
      else let '(a, b) := SplitN_colon s' in (String c a, b)
  end.

(** The double quote, and a string between two of them. *)
Definition dquote : ascii := ascii_of_nat 34.

Definition quoted (s : string) : string :=
  String dquote (s ++ String dquote EmptyString).

(** [strconv.Itoa]. *)
Definition Itoa (n : Z) : string := NilZero.string_of_int (Z.to_int n).

(** [string(b)] for a byte [b]: the UTF-8 encoding of the code point. *)
Definition of_byte (b : ascii) : string :=
  let n := N_of_ascii b in
  if (n <? 128)%N then String b EmptyString
  else String (ascii_of_N (192 + n / 64)) (String (ascii_of_N (128 + n mod 64)) EmptyString).

(** [strings.SplitN(s, sep, 2)] for a one-byte separator: the part before
    the first separator, and the part after it when there is one (the
    slice then has two elements, otherwise one). *)
Fixpoint SplitN2 (sep : ascii) (s : string) : string * option string :=
  match s with
  | EmptyString => (EmptyString, None)
  | String c s' =>
      if Ascii.eqb c sep then (EmptyString, Some s')
      else let '(a, b) := SplitN2 sep s' in (String c a, b)
  end.

(** [strings.TrimPrefix(s, prefix)]. *)
Definition TrimPrefix (s prefix : string) : string :=
  if HasPrefix s prefix
  then substring (String.length prefix) (String.length s - String.length prefix) s
  else s.

(** [strings.HasSuffix(s, suffix)] and [strings.TrimSuffix(s, suffix)]. *)
Definition HasSuffix (s suffix : string) : bool :=
  (String.length suffix <=? String.length s)%nat &&
  String.eqb (substring (String.length s - String.length suffix) (String.length suffix) s) suffix.

Definition TrimSuffix (s suffix : string) : string :=
  if HasSuffix s suffix
  then substring 0 (String.length s - String.length suffix) s
  else s.

(** [strings.Join(elems, sep)]. *)
Fixpoint Join (elems : list string) (sep : string) : string :=
  match elems with
  | [] => EmptyString
  | [a] => a
  | a :: rest => (a ++ sep ++ Join rest sep)%string
  end.

End strings.

(** ** pkg/proxy/router.go *)

Module Router.

(** The fields of [*url.URL] that the router reads. *)
Record URL := mkURL { Scheme : string; Host : string; Path : string }.

Record Upstream := mkUpstream {
  Name : string;
  Prefix : string;
  Target : string;
  parsed : option URL
}.

Record Router := mkRouter { upstreams : list Upstream }.

(** The comparator handed to [sort.Slice]:
    [len(r.upstreams[i].Prefix) > len(r.upstreams[j].Prefix)]. *)
Definition less (a b : Upstream) : bool :=
  strings.len (Prefix b) <? strings.len (Prefix a).

(** What [sort.Slice] promises for the comparator above: the slice is
    permuted and afterwards no later element is [less] than an earlier
    one.  Its documentation states that equal elements may be reordered. *)
Definition sort_Slice_spec
    (sort_Slice : (Upstream -> Upstream -> bool) -> list Upstream -> list Upstream) : Prop :=
  forall l, Permutation l (sort_Slice less l) /\
            StronglySorted (fun a b => less b a = false) (sort_Slice less l).

(** Body of the [for _, u := range upstreams] loop for one element. *)
Definition prepare (url_Parse : string -> option URL) (u : Upstream) : option Upstream :=
  let prefix := if String.eqb (Prefix u) "" then "/" else Prefix u in
  match url_Parse (Target u) with
  | None => None
  | Some p => Some {| Name := Name u; Prefix := prefix; Target := Target u; parsed := Some p |}
  end.

(** The loop itself; [None] is the [fmt.Errorf("invalid target ...")] return. *)
Fixpoint prepare_all (url_Parse : string -> option URL) (ups : list Upstream)
    : option (list Upstream) :=
  match ups with
  | [] => Some []
  | u :: rest =>
      match prepare url_Parse u with
      | None => None
      | Some u' =>
          match prepare_all url_Parse rest with
          | None => None
          | Some rest' => Some (u' :: rest')
          end
      end
  end.

Section WithLibraries.

(** [url.Parse] and [sort.Slice] belong to the Go standard library. *)
Variable url_Parse : string -> option URL.
Variable sort_Slice : (Upstream -> Upstream -> bool) -> list Upstream -> list Upstream.

Definition NewRouter (ups : list Upstream) : option Router :=
  match prepare_all url_Parse ups with
  | None => None
  | Some l => Some {| upstreams := sort_Slice less l |}
  end.

End WithLibraries.

(** The test of the loop in [Match]:
    [u.Prefix == "/" || strings.HasPrefix(path, u.Prefix)]. *)
Definition matches (path : string) (u : Upstream) : bool :=
  String.eqb (Prefix u) "/" || strings.HasPrefix path (Prefix u).

Fixpoint Match_from (ups : list Upstream) (path : string) : option Upstream :=
  match ups with
  | [] => None
  | u :: rest => if matches path u then Some u else Match_from rest path
  end.

(** [Router.Match], given [req.URL.Path]. *)
Definition Match (r : Router) (path : string) : option Upstream :=
  Match_from (upstreams r) path.

(** The selection the specification describes: among the upstreams that
    match, the one with the longest prefix, the earliest registered one
    when several share that length. *)
Fixpoint longest_first_registered (ups : list Upstream) (path : string) : option Upstream :=
  match ups with
  | [] => None
  | u :: rest =>
      match longest_first_registered rest path with
      | None => if matches path u then Some u else None
      | Some v =>
          if matches path u && (strings.len (Prefix v) <=? strings.len (Prefix u))
          then Some u else Some v
      end
  end.

(** A stable insertion sort: what [sort.Slice] runs on short slices. *)
Fixpoint insert_sorted (lt : Upstream -> Upstream -> bool) (x : Upstream) (l : list Upstream)
    : list Upstream :=
  match l with
  | [] => [x]
  | y :: rest => if lt y x then y :: insert_sorted lt x rest else x :: y :: rest
  end.

Definition insertion_sort (lt : Upstream -> Upstream -> bool) (l : list Upstream) : list Upstream :=
  fold_right (insert_sorted lt) [] l.

(** A sorter that [sort_Slice_spec] allows and that is not stable: like
    Go's pattern-defeating quicksort it leaves slices of at most twelve
    elements to the insertion sort, and on longer ones it first moves the
    pivot candidate at index [n/4*2] to the front. *)
Definition pivot_first_sort (lt : Upstream -> Upstream -> bool) (l : list Upstream)
    : list Upstream :=
  if (length l <=? 12)%nat then insertion_sort lt l
  else
    let mid := (length l / 4 * 2)%nat in
    match l !! mid with
    | Some p => insertion_sort lt (p :: delete mid l)
    | None => insertion_sort lt l
    end.

(** C1, as the specification words it: the upstream returned is the one
    [longest_first_registered] picks from the registered list. *)
Definition ties_go_to_first_registered : Prop :=
  forall (url_Parse : string -> option URL) sort_Slice,
    sort_Slice_spec sort_Slice ->
    forall ups l r path,
      prepare_all url_Parse ups = Some l ->
      NewRouter url_Parse sort_Slice ups = Some r ->
      Match r path = longest_first_registered l path.

(** Twelve catch-all upstreams followed by one for [/api]. *)
Definition catch_all (name : string) : Upstream :=
  {| Name := name; Prefix := "/"; Target := "http://127.0.0.1:18081"; parsed := None |}.

Definition thirteen_upstreams : list Upstream :=
  map catch_all ["r1"; "r2"; "r3"; "r4"; "r5"; "r6"; "r7"; "r8"; "r9"; "r10"; "r11"; "r12"]
  ++ [{| Name := "api"; Prefix := "/api"; Target := "http://127.0.0.1:18082"; parsed := None |}].

Definition parse_any (target : string) : option URL :=
  Some {| Scheme := "http"; Host := target; Path := "" |}.

(** The upstreams of the longest-prefix scenario. *)
Definition two_upstreams : list Upstream :=
  [ {| Name := "a"; Prefix := "/api"; Target := "http://127.0.0.1:18082"; parsed := None |};
    {| Name := "root"; Prefix := ""; Target := "http://127.0.0.1:18081"; parsed := None |} ].

End Router.

(** ** Fixed-width integers *)

(** The value an [int64] holds after an operation whose mathematical
    result is [z] (two's complement wrap-around). *)
Definition int64 (z : Z) : Z := (z + 2 ^ 63) mod 2 ^ 64 - 2 ^ 63.

Definition MaxInt64 : Z := 2 ^ 63 - 1.
Definition MinInt64 : Z := - 2 ^ 63.

Definition is_int64 (z : Z) : Prop := MinInt64 <= z <= MaxInt64.

(** What a function call produces: a value, a returned [error], or a
    run-time panic. *)
Inductive outcome (A : Type) : Type :=
| Ok (a : A)
| Err (e : string)
| Panic.

Arguments Ok {A} a.
Arguments Err {A} e.
Arguments Panic {A}.

(** ** Readers (package io) *)

Module io.

Definition bytes : Type := list ascii.

Definition len (b : bytes) : Z := Z.of_nat (length b).

(** An [io.ReadCloser] over an HTTP body: the bytes it still delivers,
    how it ends once they are consumed ([None] is [io.EOF], [Some e] a read
    error reported by the call after the last byte), and whether [Close]
    was called. *)
Record ReadCloser := mkReadCloser {
  pending : bytes;
  failure : option string;
  closed : bool
}.

Definition Close (r : ReadCloser) : ReadCloser :=
  {| pending := pending r; failure := failure r; closed := true |}.

(** [io.NopCloser(bytes.NewReader(b))]. *)
Definition NewReader (b : bytes) : ReadCloser :=
  {| pending := b; failure := None; closed := false |}.

(** [io.ReadAll(io.LimitReader(r, limit))]: the data, the error and the
    reader as it is left.  A [LimitedReader] whose budget is not positive
    answers [io.EOF] without touching [r]; a closed body refuses to be
    read. *)
Definition ReadAll_LimitReader (r : ReadCloser) (limit : Z)
    : bytes * option string * ReadCloser :=
  if limit <=? 0 then ([], None, r)
  else if closed r then ([], Some "http: read on closed body", r)
  else if limit <=? len (pending r) then
    (take (Z.to_nat limit) (pending r), None,
     {| pending := drop (Z.to_nat limit) (pending r); failure := failure r; closed := false |})
  else
    (pending r, failure r, {| pending := []; failure := failure r; closed := false |}).

End io.

(** ** pkg/proxy/flow.go *)

(** [http.Header]: the entries of the map, in the order in which a [range]
    statement happens to enumerate them. *)
Definition Header : Type := list (string * list string).

Module CapturedRequest.

Record t := mk {
  Method : string;
  URL : string;
  Path : string;
  Host : string;
  Headers : Header;
  Body : io.bytes;
  Proto : string;
  BodyTruncated : bool
}.

Definition set_Body (b : io.bytes) (truncated : bool) (cr : t) : t :=
  {| Method := Method cr; URL := URL cr; Path := Path cr; Host := Host cr;
     Headers := Headers cr; Body := b; Proto := Proto cr; BodyTruncated := truncated |}.

End CapturedRequest.

Module CapturedResponse.

Record t := mk {
  StatusCode : Z;
  Headers : Header;
  Body : io.bytes;
  Proto : string;
  BodyTruncated : bool
}.

Definition set_Body (b : io.bytes) (truncated : bool) (cr : t) : t :=
  {| StatusCode := StatusCode cr; Headers := Headers cr; Body := b;
     Proto := Proto cr; BodyTruncated := truncated |}.

End CapturedResponse.

Module Flow.

Inductive FlowState : Type :=
| FlowStateActive
| FlowStateIntercepted
| FlowStateComplete
| FlowStateError.

(** [time.Time] as a clock reading; [0] is the zero time. *)
Record Timestamps_t := mkTimestamps {
  Created : Z;
  RequestDone : Z;
  ResponseStart : Z;
  ResponseDone : Z
}.

(** [resumeCh] is [true] while an open gate channel is installed and
    [false] when the field is nil. *)
Record Flow := mkFlow {
  ID : string;
  Upstream : string;
  Request : option CapturedRequest.t;
  Response : option CapturedResponse.t;
  Error : string;
  State : FlowState;
  Tags : list string;
  Timestamps : Timestamps_t;
  resumeCh : bool;
  killed : bool
}.

Definition set_Request (x : option CapturedRequest.t) (f : Flow) : Flow :=
  {| ID := ID f; Upstream := Upstream f; Request := x; Response := Response f;
     Error := Error f; State := State f; Tags := Tags f; Timestamps := Timestamps f;
     resumeCh := resumeCh f; killed := killed f |}.

Definition set_Response (x : option CapturedResponse.t) (f : Flow) : Flow :=
  {| ID := ID f; Upstream := Upstream f; Request := Request f; Response := x;
     Error := Error f; State := State f; Tags := Tags f; Timestamps := Timestamps f;
     resumeCh := resumeCh f; killed := killed f |}.

Definition set_Error (x : string) (f : Flow) : Flow :=
  {| ID := ID f; Upstream := Upstream f; Request := Request f; Response := Response f;
     Error := x; State := State f; Tags := Tags f; Timestamps := Timestamps f;
     resumeCh := resumeCh f; killed := killed f |}.

Definition set_State (x : FlowState) (f : Flow) : Flow :=
  {| ID := ID f; Upstream := Upstream f; Request := Request f; Response := Response f;
     Error := Error f; State := x; Tags := Tags f; Timestamps := Timestamps f;
     resumeCh := resumeCh f; killed := killed f |}.

Definition set_Tags (x : list string) (f : Flow) : Flow :=
  {| ID := ID f; Upstream := Upstream f; Request := Request f; Response := Response f;
     Error := Error f; State := State f; Tags := x; Timestamps := Timestamps f;
     resumeCh := resumeCh f; killed := killed f |}.

Definition set_Timestamps (x : Timestamps_t) (f : Flow) : Flow :=
  {| ID := ID f; Upstream := Upstream f; Request := Request f; Response := Response f;
     Error := Error f; State := State f; Tags := Tags f; Timestamps := x;
     resumeCh := resumeCh f; killed := killed f |}.

Definition set_resumeCh (x : bool) (f : Flow) : Flow :=
  {| ID := ID f; Upstream := Upstream f; Request := Request f; Response := Response f;
     Error := Error f; State := State f; Tags := Tags f; Timestamps := Timestamps f;
     resumeCh := x; killed := killed f |}.

Definition set_killed (x : bool) (f : Flow) : Flow :=
  {| ID := ID f; Upstream := Upstream f; Request := Request f; Response := Response f;
     Error := Error f; State := State f; Tags := Tags f; Timestamps := Timestamps f;
     resumeCh := resumeCh f; killed := x |}.

Definition set_RequestDone (now : Z) (f : Flow) : Flow :=
  set_Timestamps {| Created := Created (Timestamps f); RequestDone := now;
                    ResponseStart := ResponseStart (Timestamps f);
                    ResponseDone := ResponseDone (Timestamps f) |} f.

Definition set_ResponseStart (now : Z) (f : Flow) : Flow :=
  set_Timestamps {| Created := Created (Timestamps f); RequestDone := RequestDone (Timestamps f);
                    ResponseStart := now;
                    ResponseDone := ResponseDone (Timestamps f) |} f.

Definition set_ResponseDone (now : Z) (f : Flow) : Flow :=
  set_Timestamps {| Created := Created (Timestamps f); RequestDone := RequestDone (Timestamps f);
                    ResponseStart := ResponseStart (Timestamps f);
                    ResponseDone := now |} f.

(** [Intercept]: the state and the gate as the method leaves them before it
    waits on the gate; the caller goes on once the gate is closed. *)
Definition Intercept (f : Flow) : Flow :=
  set_resumeCh true (set_State FlowStateIntercepted f).

Definition Resume (f : Flow) : Flow :=
  let f1 := if resumeCh f && negb (killed f) then set_resumeCh false f else f in
  set_State FlowStateActive f1.

Definition Kill (f : Flow) : Flow :=
  let f1 := set_killed true f in
  let f2 := if resumeCh f1 then set_resumeCh false f1 else f1 in
  set_Error "flow killed" (set_State FlowStateError f2).

Inductive FlowEventType : Type :=
| FlowEventNew
| FlowEventUpdate
| FlowEventComplete
| FlowEventError.

End Flow.

(** ** pkg/proxy/flow_store.go *)

Module FlowStore.

Section Store.

(** [*Flow]: a non-nil pointer, and the [ID] field read through it.  No
    code of the repository assigns [ID] after [newFlow]. *)
Context {FlowPtr : Type}.
Variable flowID : FlowPtr -> string.

Record FlowEvent := mkFlowEvent {
  Type_ : Flow.FlowEventType;
  Flow_ : FlowPtr
}.

(** A subscriber channel: the events waiting in its buffer. *)
Definition chan : Type := list FlowEvent.

Definition chanCap : nat := 128.

Record FlowStore := mkFlowStore {
  flows : list (option FlowPtr);
  index : gmap string FlowPtr;
  capacity : Z;
  head : Z;
  count : Z;
  subscribers : list chan
}.

Definition NewFlowStore (capacity : Z) : FlowStore :=
  let capacity := if capacity <=? 0 then 1000 else capacity in
  {| flows := replicate (Z.to_nat capacity) None;
     index := ∅;
     capacity := capacity;
     head := 0;
     count := 0;
     subscribers := [] |}.

(** The non-blocking send of [broadcast]: a full buffer drops the event. *)
Definition send (evt : FlowEvent) (ch : chan) : chan :=
  if (length ch <? chanCap)%nat then ch ++ [evt] else ch.

Definition broadcast (subs : list chan) (evt : FlowEvent) : list chan :=
  map (send evt) subs.

(** [s.flows[i]], nil when the slot is empty. *)
Definition slot (s : FlowStore) (i : Z) : option FlowPtr :=
  match flows s !! Z.to_nat i with
  | Some (Some f) => Some f
  | _ => None
  end.

Definition Add (s : FlowStore) (f : FlowPtr) : FlowStore :=
  let full := count s =? capacity s in
  let index1 :=
    if full then
      match slot s (head s) with
      | Some old => delete (flowID old) (index s)
      | None => index s
      end
    else index s in
  {| flows := <[Z.to_nat (head s) := Some f]> (flows s);
     index := <[flowID f := f]> index1;
     capacity := capacity s;
     head := Z.rem (head s + 1) (capacity s);
     count := if full then count s else count s + 1;
     subscribers := broadcast (subscribers s) {| Type_ := Flow.FlowEventNew; Flow_ := f |} |}.

Definition Update (s : FlowStore) (f : FlowPtr) (eventType : Flow.FlowEventType) : FlowStore :=
  {| flows := flows s; index := index s; capacity := capacity s; head := head s;
     count := count s;
     subscribers := broadcast (subscribers s) {| Type_ := eventType; Flow_ := f |} |}.

Definition Get (s : FlowStore) (id : string) : option FlowPtr := index s !! id.

(** The two loops of [All]: [for i := 0; i < n; i++] over the slot
    [at_ i], appending the entries that are not nil. *)
Definition collect (s : FlowStore) (n : Z) (at_ : Z -> Z) : list FlowPtr :=
  omap (fun i => slot s (at_ (Z.of_nat i))) (seq 0 (Z.to_nat n)).

Definition All (s : FlowStore) : list FlowPtr :=
  if count s =? 0 then []
  else if count s <? capacity s then collect s (count s) (fun i => i)
  else collect s (capacity s) (fun i => Z.rem (head s + i) (capacity s)).

Definition Clear (s : FlowStore) : FlowStore :=
  {| flows := replicate (Z.to_nat (capacity s)) None;
     index := ∅;
     capacity := capacity s;
     head := 0;
     count := 0;
     subscribers := subscribers s |}.

Definition Count (s : FlowStore) : Z := count s.

Definition Subscribe (s : FlowStore) : FlowStore :=
  {| flows := flows s; index := index s; capacity := capacity s; head := head s;
     count := count s; subscribers := subscribers s ++ [[]] |}.

(** Calls made on a store, and their effect in sequence. *)
Inductive Op : Type :=
| OpAdd (f : FlowPtr)
| OpUpdate (f : FlowPtr) (eventType : Flow.FlowEventType)
| OpClear.

Definition apply_op (s : FlowStore) (o : Op) : FlowStore :=
  match o with
  | OpAdd f => Add s f
  | OpUpdate f t => Update s f t
  | OpClear => Clear s
  end.

Definition run (s : FlowStore) (ops : list Op) : FlowStore := fold_left apply_op ops s.

Definition add_all (s : FlowStore) (fs : list FlowPtr) : FlowStore := fold_left Add fs s.

(** Every [Add] of the sequence brings an identifier that no stored flow
    carries at that moment, as identifiers drawn from [uuid.New] do. *)
Fixpoint fresh_ids (s : FlowStore) (ops : list Op) : Prop :=
  match ops with
  | [] => True
  | o :: rest =>
      match o with
      | OpAdd f => Forall (fun g => flowID g <> flowID f) (All s)
      | _ => True
      end /\ fresh_ids (apply_op s o) rest
  end.

(** The last [n] elements of a list. *)
Definition keep_last {A : Type} (n : nat) (l : list A) : list A :=
  drop (length l - n) l.

(** The ring holds the queue [q], oldest flow first: below capacity the
    queue fills the slots from [0] and [head] is the next free slot; at
    capacity the slots hold the queue rotated so that it starts at [head]. *)
Definition rep (s : FlowStore) (q : list FlowPtr) : Prop :=
  0 < capacity s /\
  length (flows s) = Z.to_nat (capacity s) /\
  count s = Z.of_nat (length q) /\
  0 <= head s < capacity s /\
  ((count s < capacity s /\ head s = count s /\
    exists rest, flows s = (Some <$> q) ++ rest) \/
   (count s = capacity s /\
    exists F, flows s = Some <$> F /\
              q = drop (Z.to_nat (head s)) F ++ take (Z.to_nat (head s)) F)).

(** What [Add] does to the queue: it appends, dropping the oldest element
    when the store is full. *)
Definition enqueue (s : FlowStore) (q : list FlowPtr) (f : FlowPtr) : list FlowPtr :=
  if count s =? capacity s then tail q ++ [f] else q ++ [f].

(** The index maps exactly the identifiers of the flows of [q], which are
    pairwise distinct, to these flows. *)
Definition map_ok (m : gmap string FlowPtr) (q : list FlowPtr) : Prop :=
  NoDup (flowID <$> q) /\
  forall id f, m !! id = Some f <-> (f ∈ q /\ flowID f = id).

Definition idx_ok (s : FlowStore) (q : list FlowPtr) : Prop := map_ok (index s) q.

(** The event a call publishes: [Add] a [new] event, [Update] the event
    it is given, [Clear] none. *)
Definition event_of (o : Op) : list FlowEvent :=
  match o with
  | OpAdd f => [{| Type_ := Flow.FlowEventNew; Flow_ := f |}]
  | OpUpdate f t => [{| Type_ := t; Flow_ := f |}]
  | OpClear => []
  end.

Definition events (ops : list Op) : list FlowEvent := concat (map event_of ops).

(** Two stores that hold the same flows, whoever subscribed to them. *)
Definition same_contents (s s' : FlowStore) : Prop :=
  flows s = flows s' /\ index s = index s' /\ capacity s = capacity s' /\
  head s = head s' /\ count s = count s'.

End Store.

Arguments FlowStore FlowPtr : clear implicits.
Arguments FlowEvent FlowPtr : clear implicits.
Arguments Op FlowPtr : clear implicits.

(** C9 as the specification words it: after every sequence of [Add],
    [Update] and [Clear], whatever the identifiers of the flows added,
    [Count] is the number of flows of [All], every flow of [All] is found by
    [Get] under its identifier, and [Get] finds nothing under an identifier
    that no flow of [All] carries. *)
Definition ring_and_index_always_agree : Prop :=
  forall (FlowPtr : Type) (flowID : FlowPtr -> string) (c : Z) (ops : list (Op FlowPtr)),
    Count (run flowID (NewFlowStore c) ops)
    = Z.of_nat (length (All (run flowID (NewFlowStore c) ops))) /\
    (forall f, f ∈ All (run flowID (NewFlowStore c) ops) ->
               Get (run flowID (NewFlowStore c) ops) (flowID f) = Some f) /\
    (forall id, (forall f, f ∈ All (run flowID (NewFlowStore c) ops) -> flowID f <> id) ->
                Get (run flowID (NewFlowStore c) ops) id = None).

(** A run on a store of capacity two whose flows are named by their
    identifiers. *)
Definition sample_ops : list (Op string) :=
  [OpAdd "a"; OpAdd "b"; OpUpdate "a" Flow.FlowEventComplete; OpAdd "c"; OpClear; OpAdd "a"].

End FlowStore.

(** ** net/http values *)

Module http.

(** [Request.Body]: nil, [http.NoBody], or a reader. *)
Inductive Body : Type :=
| BodyNil
| NoBody
| BodyReader (r : io.ReadCloser).

(** The fields of [*http.Request] the engine uses; [ctx_flow] is the value
    stored under [flowContextKey] in the request context. *)
Record Request := mkRequest {
  Method : string;
  URL : Router.URL;
  Host : string;
  Header_ : Header;
  Body_ : Body;
  ContentLength : Z;
  Proto : string;
  ctx_flow : option nat
}.

Definition set_Body (b : Body) (n : Z) (r : Request) : Request :=
  {| Method := Method r; URL := URL r; Host := Host r; Header_ := Header_ r;
     Body_ := b; ContentLength := n; Proto := Proto r; ctx_flow := ctx_flow r |}.

Definition WithContext (p : nat) (r : Request) : Request :=
  {| Method := Method r; URL := URL r; Host := Host r; Header_ := Header_ r;
     Body_ := Body_ r; ContentLength := ContentLength r; Proto := Proto r;
     ctx_flow := Some p |}.

(** [*http.Response]; [resp_Body] is [None] for a nil body and
    [resp_ctx_flow] is [resp.Request.Context().Value(flowContextKey)]. *)
Record Response := mkResponse {
  StatusCode : Z;
  resp_Header : Header;
  resp_Proto : string;
  resp_Body : option io.ReadCloser;
  resp_ContentLength : Z;
  resp_ctx_flow : option nat
}.

(** The response of a round trip refers back to the request that was sent. *)
Definition for_request (r : Request) (resp : Response) : Response :=
  {| StatusCode := StatusCode resp; resp_Header := resp_Header resp;
     resp_Proto := resp_Proto resp; resp_Body := resp_Body resp;
     resp_ContentLength := resp_ContentLength resp; resp_ctx_flow := ctx_flow r |}.

Definition set_resp_Body (b : option io.ReadCloser) (n : Z) (r : Response) : Response :=
  {| StatusCode := StatusCode r; resp_Header := resp_Header r; resp_Proto := resp_Proto r;
     resp_Body := b; resp_ContentLength := n; resp_ctx_flow := resp_ctx_flow r |}.

(** What a [ResponseWriter] has been given: status, headers, body bytes,
    and whether the copy of the body was cut short. *)
Record ResponseWriter := mkResponseWriter {
  code : Z;
  header : Header;
  body : io.bytes;
  aborted : bool
}.

Definition StatusBadGateway : Z := 502.
Definition StatusInternalServerError : Z := 500.

(** [http.Error(w, msg, code)], as far as status and body go. *)
Definition Error (w : ResponseWriter) (msg : string) (c : Z) : ResponseWriter :=
  {| code := c; header := header w;
     body := body w ++ list_ascii_of_string msg ++ ["010"%char];
     aborted := aborted w |}.

End http.

(** ** pkg/proxy/addon.go *)

Module Addon.

(** An addon: for each hook interface, the method when the addon
    implements it.  A hook receives the flow and may change it. *)
Record Addon := mkAddon {
  OnRequest : option (Flow.Flow -> Flow.Flow);
  OnResponse : option (Flow.Flow -> Flow.Flow);
  OnComplete : option (Flow.Flow -> Flow.Flow);
  OnError : option (Flow.Flow -> string -> Flow.Flow)
}.

Record AddonManager := mkAddonManager { addons : list Addon }.

Definition NewAddonManager : AddonManager := {| addons := [] |}.

Definition Add (m : AddonManager) (more : list Addon) : AddonManager :=
  {| addons := addons m ++ more |}.

Definition fire (hook : Addon -> option (Flow.Flow -> Flow.Flow))
    (m : AddonManager) (flow : Flow.Flow) : Flow.Flow :=
  fold_left (fun f a => match hook a with Some h => h f | None => f end) (addons m) flow.

Definition FireRequest : AddonManager -> Flow.Flow -> Flow.Flow := fire OnRequest.
Definition FireResponse : AddonManager -> Flow.Flow -> Flow.Flow := fire OnResponse.
Definition FireComplete : AddonManager -> Flow.Flow -> Flow.Flow := fire OnComplete.

Definition FireError (m : AddonManager) (flow : Flow.Flow) (err : string) : Flow.Flow :=
  fire (fun a => match OnError a with Some h => Some (fun f => h f err) | None => None end)
       m flow.

(** An addon that only looks at the flows it is handed. *)
Definition observer (a : Addon) : Prop :=
  (forall h, OnRequest a = Some h -> forall f, h f = f) /\
  (forall h, OnResponse a = Some h -> forall f, h f = f) /\
  (forall h, OnComplete a = Some h -> forall f, h f = f) /\
  (forall h, OnError a = Some h -> forall f e, h f e = f).

(** pkg/addons/log.go: [LogAddon] implements [OnComplete] and [OnError];
    both write one line to its writer and leave the flow as it is. *)
Definition LogAddon : Addon :=
  {| OnRequest := None; OnResponse := None;
     OnComplete := Some (fun f => f); OnError := Some (fun f _ => f) |}.

End Addon.

(** ** pkg/proxy/options.go and pkg/proxy/engine.go *)

Module Engine.

Record Options := mkOptions {
  ListenAddr : string;
  WebPort : Z;
  Upstreams : list Router.Upstream;
  MaxFlows : Z;
  MaxBodySize : Z
}.

Definition DefaultListenAddr : string := ":9090".
Definition DefaultWebPort : Z := 9091.
Definition DefaultMaxFlows : Z := 1000.
Definition DefaultMaxBody : Z := Z.shiftl 1 20.

Definition setDefaults (o : Options) : Options :=
  {| ListenAddr := if String.eqb (ListenAddr o) "" then DefaultListenAddr else ListenAddr o;
     WebPort := if WebPort o =? 0 then DefaultWebPort else WebPort o;
     Upstreams := Upstreams o;
     MaxFlows := if MaxFlows o =? 0 then DefaultMaxFlows else MaxFlows o;
     MaxBodySize := if MaxBodySize o =? 0 then DefaultMaxBody else MaxBodySize o |}.

(** [readLimited]: the result and the reader as it is left, closed by the
    deferred [r.Close()].  [limit] is computed in [int64]; the slice
    expression [data[:maxBytes]] panics when [maxBytes] is negative. *)
Definition readLimited (r : io.ReadCloser) (maxBytes : Z)
    : outcome (io.bytes * bool) * io.ReadCloser :=
  let limit := int64 (maxBytes + 1) in
  let '(data, err, r1) := io.ReadAll_LimitReader r limit in
  let r2 := io.Close r1 in
  match err with
  | Some e => (Err e, r2)
  | None =>
      if maxBytes <? io.len data then
        if maxBytes <? 0 then (Panic, r2)
        else (Ok (take (Z.to_nat maxBytes) data, true), r2)
      else (Ok (data, false), r2)
  end.

(** [captureRequestBody]: the flow and the request as the call leaves them,
    and what it returns.  Assigning through a nil [flow.Request] panics. *)
Definition captureRequestBody (flow : Flow.Flow) (r : http.Request) (maxBytes : Z)
    : Flow.Flow * http.Request * outcome unit :=
  match http.Body_ r with
  | http.BodyNil | http.NoBody => (flow, r, Ok tt)
  | http.BodyReader rd =>
      match readLimited rd maxBytes with
      | (Err e, rd') => (flow, http.set_Body (http.BodyReader rd') (http.ContentLength r) r, Err e)
      | (Panic, rd') => (flow, r, Panic)
      | (Ok (body, truncated), _) =>
          let r' := http.set_Body (http.BodyReader (io.NewReader body)) (int64 (io.len body)) r in
          match Flow.Request flow with
          | None => (flow, r', Panic)
          | Some cr =>
              (Flow.set_Request (Some (CapturedRequest.set_Body body truncated cr)) flow, r', Ok tt)
          end
      end
  end.

Definition captureResponseBody (flow : Flow.Flow) (resp : http.Response) (maxBytes : Z)
    : Flow.Flow * http.Response * outcome unit :=
  let captured :=
    {| CapturedResponse.StatusCode := http.StatusCode resp;
       CapturedResponse.Headers := http.resp_Header resp;
       CapturedResponse.Body := [];
       CapturedResponse.Proto := http.resp_Proto resp;
       CapturedResponse.BodyTruncated := false |} in
  let flow1 := Flow.set_Response (Some captured) flow in
  match http.resp_Body resp with
  | None => (flow1, resp, Ok tt)
  | Some rd =>
      match readLimited rd maxBytes with
      | (Err e, rd') =>
          (flow1, http.set_resp_Body (Some rd') (http.resp_ContentLength resp) resp, Err e)
      | (Panic, rd') => (flow1, resp, Panic)
      | (Ok (body, truncated), _) =>
          (Flow.set_Response (Some (CapturedResponse.set_Body body truncated captured)) flow,
           http.set_resp_Body (Some (io.NewReader body)) (int64 (io.len body)) resp,
           Ok tt)
      end
  end.

(** [cloneRequest]: a copy of the captured request; body and header map
    are copied, which leaves their contents as they are. *)
Definition cloneRequest (cr : CapturedRequest.t) : CapturedRequest.t :=
  {| CapturedRequest.Method := CapturedRequest.Method cr;
     CapturedRequest.URL := CapturedRequest.URL cr;
     CapturedRequest.Path := CapturedRequest.Path cr;
     CapturedRequest.Host := CapturedRequest.Host cr;
     CapturedRequest.Headers := CapturedRequest.Headers cr;
     CapturedRequest.Body := CapturedRequest.Body cr;
     CapturedRequest.Proto := CapturedRequest.Proto cr;
     CapturedRequest.BodyTruncated := CapturedRequest.BodyTruncated cr |}.

(** The functions of the Go standard library and of [google/uuid] that the
    engine calls: URL parsing and printing, [sort.Slice], [http.NewRequest],
    [Header.Add], the identifiers [uuid.New] hands out in turn, and the
    round trip to an upstream (the director applied, the request sent). *)
Record StdLib := mkStdLib {
  url_Parse : string -> option Router.URL;
  url_String : Router.URL -> string;
  sort_Slice : (Router.Upstream -> Router.Upstream -> bool) ->
               list Router.Upstream -> list Router.Upstream;
  http_NewRequest : string -> string -> io.bytes -> option http.Request;
  Header_Add : Header -> string -> string -> Header;
  uuid_String : nat -> string;
  RoundTrip : Router.Upstream -> http.Request -> http.Response + string
}.

(** The parts of an [Engine] fixed by [New]. *)
Record Engine := mkEngine {
  addons : Addon.AddonManager;
  router : Router.Router;
  proxies : gmap string Router.Upstream;
  opts : Options
}.

(** Every upstream the router knows has a proxy under its name, as in an
    engine built by [New]. *)
Definition configured (e : Engine) : Prop :=
  forall u, In u (Router.upstreams (router e)) -> is_Some (proxies e !! Router.Name u).

(** What changes while the engine runs: the flows behind the [*Flow]
    pointers, the store, the clock and the identifiers drawn so far. *)
Record World := mkWorld {
  heap : gmap nat Flow.Flow;
  allocated : nat;
  store : FlowStore.FlowStore nat;
  clock : Z;
  uuids : nat
}.

Definition set_heap (h : gmap nat Flow.Flow) (w : World) : World :=
  {| heap := h; allocated := allocated w; store := store w; clock := clock w; uuids := uuids w |}.

Definition set_store (s : FlowStore.FlowStore nat) (w : World) : World :=
  {| heap := heap w; allocated := allocated w; store := s; clock := clock w; uuids := uuids w |}.

(** [time.Now()]. *)
Definition time_Now (w : World) : Z * World :=
  (clock w,
   {| heap := heap w; allocated := allocated w; store := store w;
      clock := clock w + 1; uuids := uuids w |}).

(** [f.ID] read through a pointer. *)
Definition flowID (h : gmap nat Flow.Flow) (p : nat) : string :=
  match h !! p with
  | Some f => Flow.ID f
  | None => ""
  end.

(** [&Flow{...}]: the flow is placed at a new address. *)
Definition new_flow (f : Flow.Flow) (w : World) : nat * World :=
  (allocated w,
   {| heap := <[allocated w := f]> (heap w); allocated := S (allocated w);
      store := store w; clock := clock w; uuids := uuids w |}).


(** What the handling of the flow at [p] may change in a world: the store
    keeps its contents, nothing is allocated, no identifier is drawn, and
    the heap changes at most at [p]. *)
Definition framed (p : nat) (w w' : World) : Prop :=
  FlowStore.same_contents (store w) (store w') /\
  allocated w' = allocated w /\ uuids w' = uuids w /\
  (is_Some (heap w !! p) -> is_Some (heap w' !! p)) /\
  forall q, q <> p -> heap w' !! q = heap w !! q.

(** The reader behind a request body, if any. *)
Definition body_reader (r : http.Request) : option io.ReadCloser :=
  match http.Body_ r with
  | http.BodyReader rd => Some rd
  | _ => None
  end.

(** A body that can be read to its end: none, or a reader that is open and
    ends in [io.EOF]. *)
Definition readable (b : option io.ReadCloser) : Prop :=
  match b with
  | Some rd => io.closed rd = false /\ io.failure rd = None
  | None => True
  end.

(** The request [captureRequestBody] leaves for the reverse proxy when the
    body could be read: the body replaced by its first [maxBytes] bytes. *)
Definition forwarded (maxBytes : Z) (r : http.Request) : http.Request :=
  match http.Body_ r with
  | http.BodyReader rd =>
      http.set_Body (http.BodyReader (io.NewReader (take (Z.to_nat maxBytes) (io.pending rd))))
        (Z.min (io.len (io.pending rd)) maxBytes) r
  | _ => r
  end.

(** The library with another round trip in place of its own. *)
Definition set_RoundTrip (roundTrip : Router.Upstream -> http.Request -> http.Response + string)
    (lib : StdLib) : StdLib :=
  {| url_Parse := url_Parse lib; url_String := url_String lib; sort_Slice := sort_Slice lib;
     http_NewRequest := http_NewRequest lib; Header_Add := Header_Add lib;
     uuid_String := uuid_String lib; RoundTrip := roundTrip |}.

Section WithStdLib.

Variable lib : StdLib.

Definition New (o : Options) : option (Engine * World) :=
  let o := setDefaults o in
  match Router.NewRouter (url_Parse lib) (sort_Slice lib) (Upstreams o) with
  | None => None
  | Some r =>
      Some ({| addons := Addon.NewAddonManager;
               router := r;
               proxies := fold_left (fun m u => <[Router.Name u := u]> m) (Router.upstreams r) ∅;
               opts := o |},
            {| heap := ∅; allocated := 0%nat;
               store := FlowStore.NewFlowStore (MaxFlows o);
               clock := 0; uuids := 0%nat |})
  end.

(** [newFlow]: the skeleton and the address it is placed at. *)
Definition newFlow (w : World) (r : http.Request) (upstream : Router.Upstream)
    : nat * World :=
  let id := uuid_String lib (uuids w) in
  let w1 := {| heap := heap w; allocated := allocated w; store := store w;
               clock := clock w; uuids := S (uuids w) |} in
  let '(now, w2) := time_Now w1 in
  new_flow
    {| Flow.ID := id;
       Flow.Upstream := Router.Name upstream;
       Flow.Request :=
         Some {| CapturedRequest.Method := http.Method r;
                 CapturedRequest.URL := url_String lib (http.URL r);
                 CapturedRequest.Path := Router.Path (http.URL r);
                 CapturedRequest.Host := http.Host r;
                 CapturedRequest.Headers := http.Header_ r;
                 CapturedRequest.Body := [];
                 CapturedRequest.Proto := http.Proto r;
                 CapturedRequest.BodyTruncated := false |};
       Flow.Response := None;
       Flow.Error := "";
       Flow.State := Flow.FlowStateActive;
       Flow.Tags := [];
       Flow.Timestamps := {| Flow.Created := now; Flow.RequestDone := 0;
                             Flow.ResponseStart := 0; Flow.ResponseDone := 0 |};
       Flow.resumeCh := false;
       Flow.killed := false |} w2.

(** The part of [modifyResponse] between the recovery of the flow from the
    request context and the hooks: capture of the response, timestamps and
    final state.  [None] stands for a panic. *)
Definition complete (e : Engine) (start done : Z) (flow : Flow.Flow) (resp : http.Response)
    : option (Flow.Flow * http.Response) :=
  let flow1 := Flow.set_ResponseStart start flow in
  let '(flow2, resp', r) := captureResponseBody flow1 resp (MaxBodySize (opts e)) in
  let flow3 :=
    match r with
    | Ok _ => Some flow2
    | Err _ =>
        match Flow.Response flow2 with
        | Some cr => Some (Flow.set_Response (Some (CapturedResponse.set_Body [] true cr)) flow2)
        | None => None
        end
    | Panic => None
    end in
  match flow3 with
  | None => None
  | Some flow3 =>
      Some (Flow.set_State Flow.FlowStateComplete (Flow.set_ResponseDone done flow3), resp')
  end.

Definition modifyResponse (e : Engine) (w : World) (resp : http.Response)
    : World * http.Response * outcome unit :=
  match http.resp_ctx_flow resp with
  | None => (w, resp, Ok tt)
  | Some p =>
      match heap w !! p with
      | None => (w, resp, Panic)
      | Some flow =>
          let '(start, w1) := time_Now w in
          let '(done, w2) := time_Now w1 in
          match complete e start done flow resp with
          | None => (w2, resp, Panic)
          | Some (flow4, resp') =>
              let flow5 := Addon.FireComplete (addons e) (Addon.FireResponse (addons e) flow4) in
              let w3 := set_heap (<[p := flow5]> (heap w2)) w2 in
              let w4 := set_store (FlowStore.Update (store w3) p Flow.FlowEventComplete) w3 in
              (w4, resp', Ok tt)
          end
      end
  end.

(** The assignments of [errorHandler] that precede the hooks. *)
Definition fail (now : Z) (err : string) (flow : Flow.Flow) : Flow.Flow :=
  Flow.set_ResponseDone now (Flow.set_Error err (Flow.set_State Flow.FlowStateError flow)).

Definition errorHandler (e : Engine) (w : World) (rw : http.ResponseWriter)
    (r : http.Request) (err : string) : World * http.ResponseWriter :=
  let w' :=
    match http.ctx_flow r with
    | None => w
    | Some p =>
        match heap w !! p with
        | None => w
        | Some flow =>
            let '(now, w1) := time_Now w in
            let flow1 := Addon.FireError (addons e) (fail now err flow) err in
            let w2 := set_heap (<[p := flow1]> (heap w1)) w1 in
            set_store (FlowStore.Update (store w2) p Flow.FlowEventError) w2
        end
    end in
  (w', http.Error rw ("upstream error: " ++ err)%string http.StatusBadGateway).

(** The copy of a response to the client by [httputil.ReverseProxy]:
    status and headers, then the bytes the body still delivers; a body
    that is closed or ends in an error cuts the copy short. *)
Definition copyResponse (rw : http.ResponseWriter) (resp : http.Response)
    : http.ResponseWriter :=
  let '(bytes_, cut) :=
    match http.resp_Body resp with
    | None => ([], false)
    | Some rd =>
        if io.closed rd then ([], true)
        else (io.pending rd, match io.failure rd with Some _ => true | None => false end)
    end in
  {| http.code := http.StatusCode resp;
     http.header := http.header rw ++ http.resp_Header resp;
     http.body := http.body rw ++ bytes_;
     http.aborted := cut |}.

(** [ReverseProxy.ServeHTTP] with [ModifyResponse = e.modifyResponse] and
    [ErrorHandler = e.errorHandler]: a failed round trip and an error from
    [ModifyResponse] go to the error handler, otherwise the response is
    copied to the client. *)
Definition ReverseProxy_ServeHTTP (e : Engine) (upstream : Router.Upstream) (w : World)
    (rw : http.ResponseWriter) (r : http.Request) : World * http.ResponseWriter * bool :=
  match RoundTrip lib upstream r with
  | inr err => let '(w', rw') := errorHandler e w rw r err in (w', rw', true)
  | inl resp =>
      match modifyResponse e w (http.for_request r resp) with
      | (w', resp', Ok _) => (w', copyResponse rw resp', true)
      | (w', _, Err err) => let '(w'', rw') := errorHandler e w' rw r err in (w'', rw', true)
      | (w', _, Panic) => (w', rw, false)
      end
  end.

(** [Engine.ServeHTTP]: the world and the client's response afterwards;
    the boolean is [false] when the call panicked. *)
Definition ServeHTTP (e : Engine) (w : World) (rw : http.ResponseWriter) (r : http.Request)
    : World * http.ResponseWriter * bool :=
  match Router.Match (router e) (Router.Path (http.URL r)) with
  | None => (w, http.Error rw "no upstream matched" http.StatusBadGateway, true)
  | Some upstream =>
      let '(p, w1) := newFlow w r upstream in
      let w2 := set_store (FlowStore.Add (flowID (heap w1)) (store w1) p) w1 in
      match heap w2 !! p with
      | None => (w2, rw, false)
      | Some flow =>
          match captureRequestBody flow r (MaxBodySize (opts e)) with
          | (_, _, Panic) => (w2, rw, false)
          | (flow1, _, Err err) =>
              let flow2 := Flow.set_Error ("capture request: " ++ err)%string
                             (Flow.set_State Flow.FlowStateError flow1) in
              let w3 := set_heap (<[p := flow2]> (heap w2)) w2 in
              let w4 := set_store (FlowStore.Update (store w3) p Flow.FlowEventError) w3 in
              (w4, http.Error rw "internal proxy error" http.StatusInternalServerError, true)
          | (flow1, r1, Ok _) =>
              let '(now, w3) := time_Now w2 in
              let flow2 := Addon.FireRequest (addons e) (Flow.set_RequestDone now flow1) in
              let w4 := set_heap (<[p := flow2]> (heap w3)) w3 in
              if Flow.killed flow2 then
                (w4, http.Error rw "flow killed" http.StatusBadGateway, true)
              else
                match proxies e !! Router.Name upstream with
                | None => (w4, http.Error rw "upstream not configured" http.StatusBadGateway, true)
                | Some u => ReverseProxy_ServeHTTP e u w4 rw (http.WithContext p r1)
                end
          end
      end
  end.

(** [rebuildRequest]. *)
Definition rebuildRequest (cr : CapturedRequest.t) : option http.Request :=
  match http_NewRequest lib (CapturedRequest.Method cr) (CapturedRequest.URL cr)
          (CapturedRequest.Body cr) with
  | None => None
  | Some req =>
      let h := fold_left (fun h kv => fold_left (fun h v => Header_Add lib h (fst kv) v) (snd kv) h)
                 (CapturedRequest.Headers cr) (http.Header_ req) in
      Some {| http.Method := http.Method req; http.URL := http.URL req; http.Host := http.Host req;
              http.Header_ := h; http.Body_ := http.Body_ req;
              http.ContentLength := http.ContentLength req; http.Proto := http.Proto req;
              http.ctx_flow := http.ctx_flow req |}
  end.

(** [Replay]: the world afterwards and the flow and the error returned. *)
Definition Replay (e : Engine) (w : World) (id : string) : World * outcome (option nat) :=
  match FlowStore.Get (store w) id with
  | None => (w, Err ("flow " ++ id ++ " not found")%string)
  | Some orig =>
      match heap w !! orig with
      | None => (w, Panic)
      | Some original =>
          match Flow.Request original with
          | None => (w, Err ("flow " ++ id ++ " has no captured request")%string)
          | Some cr =>
              match rebuildRequest cr with
              | None => (w, Err "rebuild request")
              | Some req =>
                  match Router.Match (router e) (Router.Path (http.URL req)) with
                  | None => (w, Err ("no upstream for path " ++ Router.Path (http.URL req))%string)
                  | Some upstream =>
                      let '(p, w1) := newFlow w req upstream in
                      match heap w1 !! p with
                      | None => (w1, Panic)
                      | Some flow =>
                          let flow1 := Flow.set_Tags (Flow.Tags flow ++ ["replay"; ("replay:" ++ id)%string]) flow in
                          let flow2 := Flow.set_Request (Some (cloneRequest cr)) flow1 in
                          let w2 := set_heap (<[p := flow2]> (heap w1)) w1 in
                          let w3 := set_store (FlowStore.Add (flowID (heap w2)) (store w2) p) w2 in
                          let rec_ := {| http.code := 200; http.header := [];
                                         http.body := []; http.aborted := false |} in
                          let req' := http.WithContext p req in
                          match proxies e !! Router.Name upstream with
                          | None => (w3, Err ("upstream " ++ Router.Name upstream ++ " not configured")%string)
                          | Some u =>
                              let '(w4, _, returned) := ReverseProxy_ServeHTTP e u w3 rec_ req' in
                              if returned
                              then (w4, Ok (FlowStore.Get (store w4) (Flow.ID flow2)))
                              else (w4, Panic)
                          end
                      end
                  end
              end
          end
      end
  end.

End WithStdLib.

End Engine.

(** ** The life cycle of a flow *)

Module Lifecycle.

Import Flow.

(** The operations that assign [State]: the three methods of [Flow], the
    response callback (with the two clock readings it takes and the upstream
    response) and the upstream error callback. *)
Inductive Op : Type :=
| OpIntercept
| OpResume
| OpKill
| OpResponse (start done : Z) (resp : http.Response)
| OpUpstreamError (now : Z) (err : string).

(** The flow after an operation; the callbacks are the parts of
    [modifyResponse] and [errorHandler] that precede the hooks. *)
Definition step (e : Engine.Engine) (f : Flow) (o : Op) : Flow :=
  match o with
  | OpIntercept => Intercept f
  | OpResume => Resume f
  | OpKill => Kill f
  | OpResponse start done resp =>
      match Engine.complete e start done f resp with
      | Some (f', _) => f'
      | None => f
      end
  | OpUpstreamError now err => Engine.fail now err f
  end.



Definition terminal (s : FlowState) : bool :=
  match s with
  | FlowStateComplete | FlowStateError => true
  | _ => false
  end.








End Lifecycle.

(** ** pkg/filter/filter.go *)

Module Filter.

(** The functions of [strings] and [fmt] that depend on Unicode tables:
    [strings.TrimSpace], [strings.ToUpper], [strings.ToLower] and the [%q]
    verb ([strconv.Quote]). *)
Record Unicode := mkUnicode {
  TrimSpace : string -> string;
  ToUpper : string -> string;
  ToLower : string -> string;
  Quote : string -> string
}.

Definition Filter : Type := Flow.Flow -> bool.

Definition MatchAll : Filter := fun _ => true.

(** [pos] is an index between 0 and [len(input)]. *)
Record parser := mkParser { input : string; pos : nat }.

(** What a parsing method yields: a value and the parser as it is left, a
    returned error, a run-time panic (index out of range), or nothing
    because the fuel of the model ran out. *)
Inductive res (A : Type) : Type :=
| Val (a : A) (p : parser)
| Fail (err : string)
| Abort
| Fuel.

Arguments Val {A} a p.
Arguments Fail {A} err.
Arguments Abort {A}.
Arguments Fuel {A}.

Definition bind {A B : Type} (r : res A) (k : A -> parser -> res B) : res B :=
  match r with
  | Val a p => k a p
  | Fail e => Fail e
  | Abort => Abort
  | Fuel => Fuel
  end.

(** [p.input[p.pos]]; [None] when the index is out of range. *)
Definition char_at (p : parser) : option ascii := String.get (pos p) (input p).

(** [p.pos++]. *)
Definition advance (p : parser) : parser := {| input := input p; pos := S (pos p) |}.

(** [p.pos < len(p.input)]. *)
Definition more (p : parser) : bool := (pos p <? String.length (input p))%nat.

(** A loop [for p.pos < len(p.input) && !stop(p.input[p.pos]) { p.pos++ }],
    run for at most [n] rounds. *)
Fixpoint scan (stop : ascii -> bool) (n : nat) (p : parser) : parser :=
  match n with
  | O => p
  | S n' =>
      match char_at p with
      | None => p
      | Some c => if stop c then p else scan stop n' (advance p)
      end
  end.

Definition is_blank (c : ascii) : bool := Ascii.eqb c " " || Ascii.eqb c "009".

Definition skipWS (p : parser) : parser :=
  scan (fun c => negb (is_blank c)) (String.length (input p) - pos p) p.

Definition ends_arg (c : ascii) : bool :=
  is_blank c || Ascii.eqb c "&" || Ascii.eqb c "|" || Ascii.eqb c ")".

(** [p.input[start:p.pos]]. *)
Definition slice (start : nat) (p : parser) : string :=
  substring start (pos p - start) (input p).

Definition parseQuoted (p : parser) : res string :=
  let p := advance p in
  let start := pos p in
  let p := scan (fun c => Ascii.eqb c strings.dquote) (String.length (input p) - pos p) p in
  if more p then Val (slice start p) (advance p)
  else Fail "unterminated quoted string".

Definition parseArg (p : parser) : res string :=
  let p := skipWS p in
  if more p then
    match char_at p with
    | None => Abort
    | Some c =>
        if Ascii.eqb c strings.dquote then parseQuoted p
        else
          let start := pos p in
          let p := scan ends_arg (String.length (input p) - pos p) p in
          if (pos p =? start)%nat
          then Fail ("empty argument at position " ++ strings.Itoa (Z.of_nat (pos p)))%string
          else Val (slice start p) p
    end
  else Fail "expected argument".

Section WithUnicode.

Variable u : Unicode.

(** *** Primitive filters *)

Definition methodFilter (arg : string) : Filter :=
  let upper := ToUpper u arg in
  fun f =>
    match Flow.Request f with
    | None => false
    | Some r => strings.Contains (ToUpper u (CapturedRequest.Method r)) upper
    end.

Definition statusFilter (arg : string) : Filter :=
  fun f =>
    match Flow.Response f with
    | None => false
    | Some r => strings.HasPrefix (strings.Itoa (CapturedResponse.StatusCode r)) arg
    end.

Definition pathFilter (arg : string) : Filter :=
  let lower := ToLower u arg in
  fun f =>
    match Flow.Request f with
    | None => false
    | Some r => strings.Contains (ToLower u (CapturedRequest.Path r)) lower
    end.

(** The inner loop [for _, v := range vv] of [headerFilter]. *)
Fixpoint any_value (val : string) (vv : list string) : bool :=
  match vv with
  | [] => false
  | v :: rest => if strings.Contains (ToLower u v) val then true else any_value val rest
  end.

(** The loop [for k, vv := range headers], over the entries in the order
    the map enumerates them; [true] is the early [return true]. *)
Fixpoint any_header (key val : string) (h : Header) : bool :=
  match h with
  | [] => false
  | (k, vv) :: rest =>
      if strings.Contains (ToLower u k) key then
        if String.eqb val "" then true
        else if any_value val vv then true
        else any_header key val rest
      else any_header key val rest
  end.

Definition headerFilter (arg : string) : Filter :=
  let '(part0, part1) := strings.SplitN_colon arg in
  let key := ToLower u part0 in
  let val := match part1 with Some v => ToLower u v | None => EmptyString end in
  fun f =>
    if match Flow.Request f with
       | Some r => any_header key val (CapturedRequest.Headers r)
       | None => false
       end
    then true
    else match Flow.Response f with
         | Some r => any_header key val (CapturedResponse.Headers r)
         | None => false
         end.

Definition bodyFilter (arg : string) : Filter :=
  let lower := ToLower u arg in
  fun f =>
    if match Flow.Request f with
       | Some r => strings.Contains
                     (ToLower u (string_of_list_ascii (CapturedRequest.Body r))) lower
       | None => false
       end
    then true
    else match Flow.Response f with
         | Some r => strings.Contains
                       (ToLower u (string_of_list_ascii (CapturedResponse.Body r))) lower
         | None => false
         end.

Definition upstreamFilter (arg : string) : Filter :=
  let lower := ToLower u arg in
  fun f => strings.Contains (ToLower u (Flow.Upstream f)) lower.

(** The [switch kind] of [parsePrimitive]. *)
Definition primitive (kind : ascii) (arg : string) : option Filter :=
  if Ascii.eqb kind "m" then Some (methodFilter arg)
  else if Ascii.eqb kind "s" then Some (statusFilter arg)
  else if Ascii.eqb kind "p" then Some (pathFilter arg)
  else if Ascii.eqb kind "h" then Some (headerFilter arg)
  else if Ascii.eqb kind "b" then Some (bodyFilter arg)
  else if Ascii.eqb kind "u" then Some (upstreamFilter arg)
  else None.

(** *** The parser *)

Definition parsePrimitive (p : parser) : res Filter :=
  let p := skipWS p in
  if (String.length (input p) <=? pos p + 1)%nat then
    Fail ("expected filter expression starting with '~' at position "
          ++ strings.Itoa (Z.of_nat (pos p)))%string
  else
    match char_at p with
    | None => Abort
    | Some c =>
        if negb (Ascii.eqb c "~") then
          Fail ("expected filter expression starting with '~' at position "
                ++ strings.Itoa (Z.of_nat (pos p)))%string
        else
          let p := advance p in
          if negb (more p) then Fail "expected filter type after '~'"
          else
            match char_at p with
            | None => Abort
            | Some kind =>
                let p := skipWS (advance p) in
                bind (parseArg p) (fun arg p =>
                  match primitive kind arg with
                  | Some f => Val f p
                  | None => Fail ("unknown filter type " ++ Quote u (strings.of_byte kind))%string
                  end)
            end
    end.

Fixpoint parseOr (fuel : nat) (p : parser) {struct fuel} : res Filter :=
  match fuel with
  | O => Fuel
  | S n => bind (parseAnd n p) (fun left p => parseOr_loop n left p)
  end

with parseOr_loop (fuel : nat) (left : Filter) (p : parser) {struct fuel} : res Filter :=
  match fuel with
  | O => Fuel
  | S n =>
      let p := skipWS p in
      if (pos p + 1 <? String.length (input p))%nat then
        match char_at p with
        | None => Abort
        | Some c =>
            if Ascii.eqb c "|" then
              bind (parseAnd n (advance p)) (fun right p =>
                parseOr_loop n (fun f => left f || right f) p)
            else Val left p
        end
      else Val left p
  end

with parseAnd (fuel : nat) (p : parser) {struct fuel} : res Filter :=
  match fuel with
  | O => Fuel
  | S n => bind (parseNot n p) (fun left p => parseAnd_loop n left p)
  end

with parseAnd_loop (fuel : nat) (left : Filter) (p : parser) {struct fuel} : res Filter :=
  match fuel with
  | O => Fuel
  | S n =>
      let p := skipWS p in
      if more p then
        match char_at p with
        | None => Abort
        | Some c =>
            if Ascii.eqb c "&" then
              bind (parseNot n (advance p)) (fun right p =>
                parseAnd_loop n (fun f => left f && right f) p)
            else Val left p
        end
      else Val left p
  end

with parseNot (fuel : nat) (p : parser) {struct fuel} : res Filter :=
  match fuel with
  | O => Fuel
  | S n =>
      let p := skipWS p in
      if more p then
        match char_at p with
        | None => Abort
        | Some c =>
            if Ascii.eqb c "!" then
              bind (parseAtom n (advance p)) (fun inner p => Val (fun f => negb (inner f)) p)
            else parseAtom n p
        end
      else parseAtom n p
  end

with parseAtom (fuel : nat) (p : parser) {struct fuel} : res Filter :=
  match fuel with
  | O => Fuel
  | S n =>
      let p := skipWS p in
      if negb (more p) then Fail "unexpected end of expression"
      else
        match char_at p with
        | None => Abort
        | Some c =>
            if Ascii.eqb c "(" then
              bind (parseOr n (advance p)) (fun inner p =>
                let p := skipWS p in
                if negb (more p) then Fail "expected closing ')'"
                else
                  match char_at p with
                  | None => Abort
                  | Some c' =>
                      if negb (Ascii.eqb c' ")") then Fail "expected closing ')'"
                      else Val inner (advance p)
                  end)
            else parsePrimitive p
        end
  end.

(** Fuel that suffices for an input: four calls for every byte, and four
    more. *)
Definition fuel_for (expr : string) : nat := 4 * String.length expr + 4.

(** [Parse], with the fuel given. *)
Definition Parse_with (fuel : nat) (expr : string) : res Filter :=
  let expr := TrimSpace u expr in
  if String.eqb expr "" then Val MatchAll {| input := expr; pos := 0 |}
  else
    bind (parseOr fuel {| input := expr; pos := 0 |}) (fun f p =>
      if more p then
        Fail ("unexpected token at position " ++ strings.Itoa (Z.of_nat (pos p)) ++ ": "
              ++ Quote u (substring (pos p) (String.length (input p) - pos p) (input p)))%string
      else Val f p).

Definition Parse (expr : string) : res Filter :=
  Parse_with (fuel_for (TrimSpace u expr)) expr.

End WithUnicode.

(** Two flows that differ at most in the order in which their header maps
    are enumerated. *)
Definition same_request (a b : option CapturedRequest.t) : Prop :=
  match a, b with
  | None, None => True
  | Some x, Some y =>
      CapturedRequest.Method x = CapturedRequest.Method y /\
      CapturedRequest.URL x = CapturedRequest.URL y /\
      CapturedRequest.Path x = CapturedRequest.Path y /\
      CapturedRequest.Host x = CapturedRequest.Host y /\
      Permutation (CapturedRequest.Headers x) (CapturedRequest.Headers y) /\
      CapturedRequest.Body x = CapturedRequest.Body y /\
      CapturedRequest.Proto x = CapturedRequest.Proto y /\
      CapturedRequest.BodyTruncated x = CapturedRequest.BodyTruncated y
  | _, _ => False
  end.

Definition same_response (a b : option CapturedResponse.t) : Prop :=
  match a, b with
  | None, None => True
  | Some x, Some y =>
      CapturedResponse.StatusCode x = CapturedResponse.StatusCode y /\
      Permutation (CapturedResponse.Headers x) (CapturedResponse.Headers y) /\
      CapturedResponse.Body x = CapturedResponse.Body y /\
      CapturedResponse.Proto x = CapturedResponse.Proto y /\
      CapturedResponse.BodyTruncated x = CapturedResponse.BodyTruncated y
  | _, _ => False
  end.

Definition same_flow (a b : Flow.Flow) : Prop :=
  Flow.ID a = Flow.ID b /\ Flow.Upstream a = Flow.Upstream b /\
  same_request (Flow.Request a) (Flow.Request b) /\
  same_response (Flow.Response a) (Flow.Response b) /\
  Flow.Error a = Flow.Error b /\ Flow.State a = Flow.State b /\
  Flow.Tags a = Flow.Tags b /\ Flow.Timestamps a = Flow.Timestamps b.

(** A predicate whose value does not depend on that order. *)
Definition order_blind (flt : Filter) : Prop :=
  forall a b, same_flow a b -> flt a = flt b.

(** [p'] continues [p]: same input, position not moved back and not past
    the end. *)
Definition continues (p p' : parser) : Prop :=
  input p' = input p /\ (pos p <= pos p')%nat /\ (pos p' <= String.length (input p))%nat.

Definition wf (p : parser) : Prop := (pos p <= String.length (input p))%nat.

(** The bytes that remain to be read. *)
Definition remaining (p : parser) : nat := String.length (input p) - pos p.

(** A result that is not a panic; when it is a value it satisfies [P] and
    continues the parser it started from, when it is an error its message
    satisfies [E]. *)
Definition sound {A : Type} (E : string -> Prop) (P : A -> Prop) (p : parser) (r : res A)
    : Prop :=
  match r with
  | Val a p' => P a /\ continues p p'
  | Fail e => E e
  | Abort => False
  | Fuel => True
  end.

(** The messages of the [fmt.Errorf] calls of the package, each with the
    byte offset its format includes, if any. *)
Inductive parse_error (u : Unicode) : option nat -> string -> Prop :=
| unexpected_token (n : nat) (rest : string) :
    parse_error u (Some n)
      ("unexpected token at position " ++ strings.Itoa (Z.of_nat n) ++ ": " ++ Quote u rest)%string
| unexpected_end :
    parse_error u None "unexpected end of expression"
| expected_closing :
    parse_error u None "expected closing ')'"
| expected_tilde (n : nat) :
    parse_error u (Some n)
      ("expected filter expression starting with '~' at position "
       ++ strings.Itoa (Z.of_nat n))%string
| expected_type :
    parse_error u None "expected filter type after '~'"
| unknown_type (kind : ascii) :
    parse_error u None ("unknown filter type " ++ Quote u (strings.of_byte kind))%string
| expected_argument :
    parse_error u None "expected argument"
| empty_argument (n : nat) :
    parse_error u (Some n)
      ("empty argument at position " ++ strings.Itoa (Z.of_nat n))%string
| unterminated_quoted :
    parse_error u None "unterminated quoted string".

Definition described (u : Unicode) (msg : string) : Prop :=
  exists where_, parse_error u where_ msg.


(** ASCII stand-ins for the Unicode functions. *)
Fixpoint trim_left (s : string) : string :=
  match s with
  | String c s' => if is_blank c then trim_left s' else s
  | EmptyString => EmptyString
  end.

Fixpoint map_string (g : ascii -> ascii) (s : string) : string :=
  match s with
  | String c s' => String (g c) (map_string g s')
  | EmptyString => EmptyString
  end.

Definition rev_string (s : string) : string :=
  string_of_list_ascii (rev (list_ascii_of_string s)).

Definition upper_ascii (c : ascii) : ascii :=
  let n := nat_of_ascii c in
  if ((97 <=? n) && (n <=? 122))%nat then ascii_of_nat (n - 32) else c.

Definition lower_ascii (c : ascii) : ascii :=
  let n := nat_of_ascii c in
  if ((65 <=? n) && (n <=? 90))%nat then ascii_of_nat (n + 32) else c.

Definition ascii_only : Unicode :=
  {| TrimSpace := fun s => rev_string (trim_left (rev_string (trim_left s)));
     ToUpper := map_string upper_ascii;
     ToLower := map_string lower_ascii;
     Quote := strings.quoted |}.

End Filter.

(** ** pkg/proxy/router.go: the director *)

Module ReverseProxy.

(** [h[key]] on the header map: the values and the [ok] of the lookup. *)
Definition Header_lookup (h : Header) (key : string) : option (list string) :=
  match find (fun kv => String.eqb (fst kv) key) h with
  | Some kv => Some (snd kv)
  | None => None
  end.

(** [h.Set(key, value)] for a key in canonical form: the entry of [key]
    is replaced by the single value, or added. *)
Fixpoint Header_Set (h : Header) (key value : string) : Header :=
  match h with
  | [] => [(key, [value])]
  | (k, vv) :: rest =>
      if String.eqb k key then (key, [value]) :: rest
      else (k, vv) :: Header_Set rest key value
  end.

(** The function [Director(upstream)] returns, applied to a request whose
    [RemoteAddr] is [remoteAddr]; [None] is the nil dereference of
    [upstream.parsed]. *)
Definition Director (upstream : Router.Upstream) (remoteAddr : string) (req : http.Request)
    : option http.Request :=
  match Router.parsed upstream with
  | None => None
  | Some target =>
      let p := Router.Path target in
      let path :=
        if negb (String.eqb p "") && negb (String.eqb p "/")
        then (strings.TrimSuffix p "/" ++ Router.Path (http.URL req))%string
        else Router.Path (http.URL req) in
      let forwarded :=
        match Header_lookup (http.Header_ req) "X-Forwarded-For" with
        | Some prior => (strings.Join prior ", " ++ ", " ++ remoteAddr)%string
        | None => remoteAddr
        end in
      Some {| http.Method := http.Method req;
              http.URL := {| Router.Scheme := Router.Scheme target;
                             Router.Host := Router.Host target;
                             Router.Path := path |};
              http.Host := Router.Host target;
              http.Header_ := Header_Set (http.Header_ req) "X-Forwarded-For" forwarded;
              http.Body_ := http.Body_ req;
              http.ContentLength := http.ContentLength req;
              http.Proto := http.Proto req;
              http.ctx_flow := http.ctx_flow req |}
  end.

(** The keys of a header map are pairwise distinct. *)
Definition is_map (h : Header) : Prop := NoDup (map fst h).

End ReverseProxy.

(** ** package config *)

Module Config.

Record UpstreamConfig := mkUpstreamConfig {
  Name : string;
  Prefix : string;
  Target : string
}.

(** The pointer fields are [None] when the YAML key is absent. *)
Record Config := mkConfig {
  Listen : string;
  WebPort : option Z;
  NoTUI : bool;
  NoColor : bool;
  MaxFlows : option Z;
  MaxBodySize : option Z;
  Upstream : string;
  Upstreams : list UpstreamConfig
}.

(** Body of the loop [for _, u := range c.Upstreams]. *)
Definition upstream_of (u : UpstreamConfig) : Router.Upstream :=
  let prefix := if String.eqb (Prefix u) "" then "/" else Prefix u in
  let name := if String.eqb (Name u) "" then Prefix u else Name u in
  {| Router.Name := name; Router.Prefix := prefix; Router.Target := Target u;
     Router.parsed := None |}.

Definition ToOptions (c : Config) : Engine.Options :=
  {| Engine.ListenAddr := if negb (String.eqb (Listen c) "") then Listen c else "";
     Engine.WebPort := match WebPort c with Some n => n | None => 0 end;
     Engine.Upstreams :=
       (if negb (String.eqb (Upstream c) "")
        then [{| Router.Name := "default"; Router.Prefix := "/"; Router.Target := Upstream c;
                 Router.parsed := None |}]
        else [])
       ++ map upstream_of (Upstreams c);
     Engine.MaxFlows := match MaxFlows c with Some n => n | None => 0 end;
     Engine.MaxBodySize := match MaxBodySize c with Some n => n | None => 0 end |}.

End Config.

(** ** cmd/http-proxy/main.go *)

Module Main.

(** Body of the loop [for _, r := range flagRoutes]; [quote] is the [%q]
    verb. *)
Definition route_upstream (quote : string -> string) (r : string) : outcome Router.Upstream :=
  match strings.SplitN2 "=" r with
  | (_, None) => Err ("invalid --route " ++ quote r ++ ": expected PREFIX=TARGET")%string
  | (prefix, Some target) =>
      let name := strings.TrimPrefix prefix "/" in
      let name := if String.eqb name "" then "default" else name in
      Ok {| Router.Name := name; Router.Prefix := prefix; Router.Target := target;
            Router.parsed := None |}
  end.

Fixpoint routes_loop (quote : string -> string) (routes : list string)
    (upstreams : list Router.Upstream) : outcome (list Router.Upstream) :=
  match routes with
  | [] => Ok upstreams
  | r :: rest =>
      match route_upstream quote r with
      | Ok u => routes_loop quote rest (upstreams ++ [u])
      | Err e => Err e
      | Panic => Panic
      end
  end.

(** [buildUpstreams], from the values of [--upstream] and [--route]. *)
Definition buildUpstreams (quote : string -> string) (flagUpstream : string)
    (flagRoutes : list string) : outcome (list Router.Upstream) :=
  routes_loop quote flagRoutes
    (if negb (String.eqb flagUpstream "")
     then [{| Router.Name := "default"; Router.Prefix := "/"; Router.Target := flagUpstream;
              Router.parsed := None |}]
     else []).


End Main.

(** ** pkg/addons/log.go *)

Module Log.

(** The three bytes of the horizontal ellipsis in UTF-8. *)
Definition ellipsis : string :=
  String (ascii_of_nat 226) (String (ascii_of_nat 128) (String (ascii_of_nat 166) EmptyString)).

(** [s[:hi]] for a string; it panics unless [0 <= hi <= len(s)]. *)
Definition slice_to (s : string) (hi : Z) : outcome string :=
  if (hi <? 0) || (strings.len s <? hi) then Panic
  else Ok (substring 0 (Z.to_nat hi) s).

Definition truncate (s : string) (max : Z) : outcome string :=
  if strings.len s <=? max then Ok s
  else
    match slice_to s (int64 (max - 1)) with
    | Ok head => Ok (head ++ ellipsis)%string
    | Err e => Err e
    | Panic => Panic
    end.

End Log.

(** ** package tui *)

Module Tui.

Definition truncateStr (s : string) (max : Z) : outcome string :=
  if (max <=? 0) || (strings.len s <=? max) then Ok s
  else
    match Log.slice_to s (int64 (max - 1)) with
    | Ok head => Ok (head ++ Log.ellipsis)%string
    | Err e => Err e
    | Panic => Panic
    end.

(** The flow state of [App]. *)
Record App := mkApp {
  allFlows : list nat;
  filtered : list nat;
  filterExpr : string;
  filterParsed : Filter.Filter
}.

(** [a.filterParsed(f)] for a pointer [f], on the flow as it is at that
    moment. *)
Definition holds (h : gmap nat Flow.Flow) (flt : Filter.Filter) (f : nat) : bool :=
  match h !! f with
  | Some flow => flt flow
  | None => false
  end.

Definition applyEvent (h : gmap nat Flow.Flow) (a : App) (evt : FlowStore.FlowEvent nat) : App :=
  match FlowStore.Type_ evt with
  | Flow.FlowEventNew =>
      {| allFlows := allFlows a ++ [FlowStore.Flow_ evt];
         filtered := if holds h (filterParsed a) (FlowStore.Flow_ evt)
                     then filtered a ++ [FlowStore.Flow_ evt] else filtered a;
         filterExpr := filterExpr a;
         filterParsed := filterParsed a |}
  | _ => a
  end.

(** The loop of [applyFilter], appending to [acc]. *)
Fixpoint applyFilter_loop (h : gmap nat Flow.Flow) (flt : Filter.Filter) (fs acc : list nat)
    : list nat :=
  match fs with
  | [] => acc
  | f :: rest => applyFilter_loop h flt rest (if holds h flt f then acc ++ [f] else acc)
  end.

Definition applyFilter (h : gmap nat Flow.Flow) (a : App) : App :=
  {| allFlows := allFlows a;
     filtered := applyFilter_loop h (filterParsed a) (allFlows a) [];
     filterExpr := filterExpr a;
     filterParsed := filterParsed a |}.

(** What reaches the [App]: a flow event, the key [enter] in the filter
    input holding [expr], and the key [d]. *)
Inductive Msg : Type :=
| flowEventMsg (evt : FlowStore.FlowEvent nat)
| filterEnter (expr : string)
| keyClear.

(** [Update] and [updateFilterInput], as far as the four fields above go;
    [h] holds the flows as they are when the message is handled. *)
Definition Update (u : Filter.Unicode) (h : gmap nat Flow.Flow) (a : App) (msg : Msg) : App :=
  match msg with
  | flowEventMsg evt => applyEvent h a evt
  | filterEnter expr =>
      match Filter.Parse u expr with
      | Filter.Val f _ =>
          applyFilter h {| allFlows := allFlows a; filtered := filtered a;
                           filterExpr := expr; filterParsed := f |}
      | _ => a
      end
  | keyClear =>
      {| allFlows := []; filtered := []; filterExpr := filterExpr a;
         filterParsed := filterParsed a |}
  end.

(** [New]: no flow yet, every flow shown. *)
Definition New : App :=
  {| allFlows := []; filtered := []; filterExpr := ""; filterParsed := Filter.MatchAll |}.

(** The messages handled in turn, each with the heap of its moment. *)
Definition handle (u : Filter.Unicode) (a : App) (msgs : list (gmap nat Flow.Flow * Msg)) : App :=
  fold_left (fun a hm => Update u (fst hm) a (snd hm)) msgs a.

End Tui.

(** ** Sample values *)

Module Samples.

Definition bytes_of (s : string) : io.bytes := list_ascii_of_string s.

Definition request_GET : CapturedRequest.t :=
  {| CapturedRequest.Method := "GET";
     CapturedRequest.URL := "/x";
     CapturedRequest.Path := "/x";
     CapturedRequest.Host := "127.0.0.1:9090";
     CapturedRequest.Headers := [("Accept", ["*/*"])];
     CapturedRequest.Body := [];
     CapturedRequest.Proto := "HTTP/1.1";
     CapturedRequest.BodyTruncated := false |}.

(** A flow as [newFlow] builds it. *)
Definition flow_1 : Flow.Flow :=
  {| Flow.ID := "flow-1";
     Flow.Upstream := "default";
     Flow.Request := Some request_GET;
     Flow.Response := None;
     Flow.Error := "";
     Flow.State := Flow.FlowStateActive;
     Flow.Tags := [];
     Flow.Timestamps := {| Flow.Created := 1; Flow.RequestDone := 0;
                           Flow.ResponseStart := 0; Flow.ResponseDone := 0 |};
     Flow.resumeCh := false;
     Flow.killed := false |}.

Definition default_upstream : Router.Upstream :=
  {| Router.Name := "default"; Router.Prefix := "/";
     Router.Target := "http://127.0.0.1:18081";
     Router.parsed := Some {| Router.Scheme := "http"; Router.Host := "127.0.0.1:18081";
                              Router.Path := "" |} |}.

(** An engine for the single upstream [default], bodies captured up to
    [maxBody] bytes, with the log addon registered as [main] does. *)
Definition engine (maxBody : Z) : Engine.Engine :=
  {| Engine.addons := Addon.Add Addon.NewAddonManager [Addon.LogAddon];
     Engine.router := {| Router.upstreams := [default_upstream] |};
     Engine.proxies := {[ "default" := default_upstream ]};
     Engine.opts := Engine.setDefaults
                      {| Engine.ListenAddr := ""; Engine.WebPort := 0;
                         Engine.Upstreams := [default_upstream];
                         Engine.MaxFlows := 0; Engine.MaxBodySize := maxBody |} |}.

(** A request whose body delivers [body] and then ends as [failure] says. *)
Definition request_with (body : string) (failure : option string) : http.Request :=
  {| http.Method := "POST";
     http.URL := {| Router.Scheme := ""; Router.Host := ""; Router.Path := "/x" |};
     http.Host := "127.0.0.1:9090";
     http.Header_ := [];
     http.Body_ := http.BodyReader {| io.pending := bytes_of body; io.failure := failure;
                                      io.closed := false |};
     http.ContentLength := Z.of_nat (String.length body);
     http.Proto := "HTTP/1.1";
     http.ctx_flow := None |}.

Definition response_with (body : string) (failure : option string) (ctx : option nat)
    : http.Response :=
  {| http.StatusCode := 200;
     http.resp_Header := [("Content-Type", ["text/plain"])];
     http.resp_Proto := "HTTP/1.1";
     http.resp_Body := Some {| io.pending := bytes_of body; io.failure := failure;
                               io.closed := false |};
     http.resp_ContentLength := -1;
     http.resp_ctx_flow := ctx |}.

(** The flows of the filter scenario: a given method, and a response with
    a given status when there is one. *)
Definition flow_with (method : string) (status : option Z) : Flow.Flow :=
  {| Flow.ID := "flow-2";
     Flow.Upstream := "default";
     Flow.Request :=
       Some {| CapturedRequest.Method := method;
               CapturedRequest.URL := "/x";
               CapturedRequest.Path := "/x";
               CapturedRequest.Host := "127.0.0.1:9090";
               CapturedRequest.Headers := [];
               CapturedRequest.Body := [];
               CapturedRequest.Proto := "HTTP/1.1";
               CapturedRequest.BodyTruncated := false |};
     Flow.Response :=
       match status with
       | Some code =>
           Some {| CapturedResponse.StatusCode := code;
                   CapturedResponse.Headers := [];
                   CapturedResponse.Body := [];
                   CapturedResponse.Proto := "HTTP/1.1";
                   CapturedResponse.BodyTruncated := false |}
       | None => None
       end;
     Flow.Error := "";
     Flow.State := Flow.FlowStateComplete;
     Flow.Tags := [];
     Flow.Timestamps := {| Flow.Created := 1; Flow.RequestDone := 2;
                           Flow.ResponseStart := 3; Flow.ResponseDone := 4 |};
     Flow.resumeCh := false;
     Flow.killed := false |}.

(** The boolean a parse result gives on a flow, when it is a predicate. *)
Definition verdict (r : Filter.res Filter.Filter) (flow : Flow.Flow) : option bool :=
  match r with
  | Filter.Val flt _ => Some (flt flow)
  | _ => None
  end.

(** Stand-ins for the library, around a given round trip. *)
Definition digit (n : nat) : string := String (ascii_of_nat (48 + n)) "".

Definition lib (roundTrip : Router.Upstream -> http.Request -> http.Response + string)
    : Engine.StdLib :=
  {| Engine.url_Parse := Router.parse_any;
     Engine.url_String := Router.Path;
     Engine.sort_Slice := Router.insertion_sort;
     Engine.http_NewRequest := fun method url body =>
       Some {| http.Method := method;
               http.URL := {| Router.Scheme := ""; Router.Host := ""; Router.Path := url |};
               http.Host := "";
               http.Header_ := [];
               http.Body_ := http.BodyReader (io.NewReader body);
               http.ContentLength := io.len body;
               http.Proto := "HTTP/1.1";
               http.ctx_flow := None |};
     Engine.Header_Add := fun h k v => h ++ [(k, [v])];
     Engine.uuid_String := fun n => ("uuid-" ++ digit n)%string;
     Engine.RoundTrip := roundTrip |}.

(** A world in which [flow_1] lives at address 0 and is stored. *)
Definition world : Engine.World :=
  {| Engine.heap := {[ 0%nat := flow_1 ]};
     Engine.allocated := 1;
     Engine.store := FlowStore.Add (fun _ => "flow-1") (FlowStore.NewFlowStore 4) 0%nat;
     Engine.clock := 2;
     Engine.uuids := 0 |}.

(** An upstream that answers 200 with [hello], and one whose body breaks
    off after [par]. *)
Definition answers_hello (u : Router.Upstream) (r : http.Request) : http.Response + string :=
  inl (response_with "hello" None None).

Definition breaks_off (u : Router.Upstream) (r : http.Request) : http.Response + string :=
  inl (response_with "par" (Some "unexpected EOF") None).

Definition empty_writer : http.ResponseWriter :=
  {| http.code := 200; http.header := []; http.body := []; http.aborted := false |}.

(** Options that leave everything but the upstreams to the defaults. *)
Definition options (ups : list Router.Upstream) : Engine.Options :=
  {| Engine.ListenAddr := ""; Engine.WebPort := 0; Engine.Upstreams := ups;
     Engine.MaxFlows := 0; Engine.MaxBodySize := 0 |}.

(** Two upstreams configured under one name. *)
Definition same_name_upstreams : list Router.Upstream :=
  [ {| Router.Name := "svc"; Router.Prefix := "/api";
       Router.Target := "http://127.0.0.1:18082"; Router.parsed := None |};
    {| Router.Name := "svc"; Router.Prefix := "/";
       Router.Target := "http://127.0.0.1:18081"; Router.parsed := None |} ].

(** An addon that kills every flow when its request has been read. *)
Definition KillAddon : Addon.Addon :=
  {| Addon.OnRequest := Some Flow.Kill; Addon.OnResponse := None;
     Addon.OnComplete := None; Addon.OnError := None |}.

Definition engine_killing : Engine.Engine :=
  {| Engine.addons := Addon.Add Addon.NewAddonManager [KillAddon];
     Engine.router := Engine.router (engine 10);
     Engine.proxies := Engine.proxies (engine 10);
     Engine.opts := Engine.opts (engine 10) |}.

(** An upstream that cannot be reached. *)
Definition refuses (u : Router.Upstream) (r : http.Request) : http.Response + string :=
  inr "dial tcp 127.0.0.1:18081: connect: connection refused".

(** Two flows with the identifier [x], and the others with [y]. *)
Definition id_x_twice (p : nat) : string := if (p <? 2)%nat then "x" else "y".

End Samples.

(** * Properties *)

Module RouterFacts.
Import Router.

Lemma less_false (a b : Upstream) :
  less a b = false <-> strings.len (Prefix a) <= strings.len (Prefix b).
Proof. unfold less. rewrite Z.ltb_ge. reflexivity. Qed.

Lemma less_true (a b : Upstream) :
  less a b = true <-> strings.len (Prefix b) < strings.len (Prefix a).
Proof. unfold less. rewrite Z.ltb_lt. reflexivity. Qed.

(** *** The loop of [Match] *)

Lemma Match_from_Some (l : list Upstream) (path : string) (u : Upstream) :
  Match_from l path = Some u ->
  exists l1 l2, l = l1 ++ u :: l2 /\ matches path u = true /\
                Forall (fun v => matches path v = false) l1.
Proof.
  induction l as [|y rest IH]; simpl; [discriminate|].
  destruct (matches path y) eqn:Hy.
  - intros [= ->]. exists [], rest. auto.
  - intros H. destruct (IH H) as (l1 & l2 & -> & Hm & Hall).
    exists (y :: l1), l2. repeat split; auto.
Qed.

Lemma Match_from_None (l : list Upstream) (path : string) :
  Match_from l path = None <-> Forall (fun v => matches path v = false) l.
Proof.
  induction l as [|y rest IH]; simpl.
  - split; auto.
  - destruct (matches path y) eqn:Hy.
    + split; [discriminate|]. intros H. inversion H; congruence.
    + rewrite IH. split; [auto|]. intros H. inversion H; auto.
Qed.

Lemma Match_from_longest (l : list Upstream) (path : string) (u : Upstream) :
  StronglySorted (fun a b => less b a = false) l ->
  Match_from l path = Some u ->
  forall v, In v l -> matches path v = true ->
            strings.len (Prefix v) <= strings.len (Prefix u).
Proof.
  intros Hs Hm v Hin Hv.
  destruct (Match_from_Some _ _ _ Hm) as (l1 & l2 & -> & _ & Hno).
  apply in_app_or in Hin. destruct Hin as [Hin|[->|Hin]].
  - rewrite Forall_forall in Hno.
    assert (v ∈ l1) as Hel by (apply list_elem_of_In; exact Hin).
    specialize (Hno _ Hel). congruence.
  - lia.
  - apply StronglySorted_app_1_r in Hs. inversion Hs as [|? ? _ Hall]; subst.
    rewrite Forall_forall in Hall. apply less_false. apply Hall.
    apply list_elem_of_In. exact Hin.
Qed.

(** *** What [prepare_all] keeps of its input *)

Lemma prepare_all_In (parse : string -> option URL) (ups l : list Upstream) :
  prepare_all parse ups = Some l ->
  (forall u, In u l -> exists u0, In u0 ups /\ prepare parse u0 = Some u) /\
  (forall u0, In u0 ups -> exists u, In u l /\ prepare parse u0 = Some u).
Proof.
  revert l. induction ups as [|a rest IH]; simpl; intros l.
  - intros [= <-]. split; intros ? [].
  - destruct (prepare parse a) as [a'|] eqn:Ha; [|discriminate].
    destruct (prepare_all parse rest) as [rest'|]; [|discriminate].
    intros [= <-]. destruct (IH rest' eq_refl) as [IH1 IH2]. split.
    + intros u [<-|Hin]; [eauto|]. destruct (IH1 _ Hin) as (u0 & ? & ?). eauto.
    + intros u0 [<-|Hin]; [exists a'; simpl; auto|].
      destruct (IH2 _ Hin) as (u & ? & ?). exists u. simpl. auto.
Qed.

(** *** The insertion sort meets the contract of [sort.Slice] *)

Lemma insert_sorted_perm (x : Upstream) (l : list Upstream) :
  Permutation (x :: l) (insert_sorted less x l).
Proof.
  induction l as [|y rest IH]; simpl; [reflexivity|].
  destruct (less y x); [|reflexivity].
  rewrite perm_swap. constructor. exact IH.
Qed.

Lemma insertion_sort_perm (l : list Upstream) :
  Permutation l (insertion_sort less l).
Proof.
  induction l as [|x rest IH]; simpl; [reflexivity|].
  rewrite <- insert_sorted_perm. constructor. exact IH.
Qed.

Lemma insert_sorted_sorted (x : Upstream) (l : list Upstream) :
  StronglySorted (fun a b => less b a = false) l ->
  StronglySorted (fun a b => less b a = false) (insert_sorted less x l).
Proof.
  induction 1 as [|y rest Hs IH Hall]; simpl.
  - repeat constructor.
  - destruct (less y x) eqn:Hyx.
    + constructor; [exact IH|].
      rewrite <- insert_sorted_perm. constructor; [|exact Hall].
      apply less_false. apply less_true in Hyx. lia.
    + constructor; [constructor; assumption|].
      constructor; [exact Hyx|].
      eapply Forall_impl; [exact Hall|]. simpl. intros z Hz.
      apply less_false. apply less_false in Hz, Hyx. lia.
Qed.

Lemma insertion_sort_sorted (l : list Upstream) :
  StronglySorted (fun a b => less b a = false) (insertion_sort less l).
Proof.
  induction l as [|x rest IH]; simpl; [constructor|].
  apply insert_sorted_sorted. exact IH.
Qed.

Lemma insertion_sort_spec : sort_Slice_spec insertion_sort.
Proof. intros l. split; [apply insertion_sort_perm | apply insertion_sort_sorted]. Qed.

Lemma pivot_first_sort_spec : sort_Slice_spec pivot_first_sort.
Proof.
  intros l. unfold pivot_first_sort.
  destruct (length l <=? 12)%nat; [apply insertion_sort_spec|].
  destruct (l !! _) as [p|] eqn:Hp; [|apply insertion_sort_spec].
  split; [|apply insertion_sort_sorted].
  rewrite <- insertion_sort_perm. apply delete_Permutation. exact Hp.
Qed.

(** *** Under a stable sort the earliest registration wins a tie *)

Lemma Match_from_In (l : list Upstream) (path : string) (u : Upstream) :
  Match_from l path = Some u -> In u l.
Proof.
  intros H. destruct (Match_from_Some _ _ _ H) as (l1 & l2 & -> & _ & _).
  apply in_or_app. right. left. reflexivity.
Qed.

Lemma Match_from_insert_sorted (x : Upstream) (s : list Upstream) (path : string) :
  StronglySorted (fun a b => less b a = false) s ->
  Match_from (insert_sorted less x s) path =
  match Match_from s path with
  | None => if matches path x then Some x else None
  | Some v =>
      if matches path x && (strings.len (Prefix v) <=? strings.len (Prefix x))
      then Some x else Some v
  end.
Proof.
  induction 1 as [|y rest Hs IH Hall]; simpl.
  - destruct (matches path x); reflexivity.
  - destruct (less y x) eqn:Hyx; simpl.
    + destruct (matches path y) eqn:Hy.
      * apply less_true in Hyx.
        destruct (Z.leb_spec (strings.len (Prefix y)) (strings.len (Prefix x))); [lia|].
        rewrite andb_false_r. reflexivity.
      * exact IH.
    + destruct (matches path x) eqn:Hx; simpl.
      * destruct (matches path y) eqn:Hy.
        -- apply less_false in Hyx. apply Z.leb_le in Hyx. rewrite Hyx. reflexivity.
        -- destruct (Match_from rest path) as [v|] eqn:Hv; [|reflexivity].
           apply Match_from_In in Hv. rewrite Forall_forall in Hall.
           assert (less v y = false) as Hvy by (apply Hall, list_elem_of_In, Hv).
           apply less_false in Hvy, Hyx.
           destruct (Z.leb_spec (strings.len (Prefix v)) (strings.len (Prefix x))); [reflexivity|lia].
      * destruct (matches path y); [reflexivity|].
        destruct (Match_from rest path); reflexivity.
Qed.

Lemma Match_insertion_sort (l : list Upstream) (path : string) :
  Match_from (insertion_sort less l) path = longest_first_registered l path.
Proof.
  induction l as [|x rest IH]; simpl; [reflexivity|].
  rewrite Match_from_insert_sorted by apply insertion_sort_sorted.
  rewrite IH. reflexivity.
Qed.

(** *** The claim on the router *)

Lemma thirteen_upstreams_tie :
  exists l r u1 u7,
    prepare_all parse_any thirteen_upstreams = Some l /\
    NewRouter parse_any pivot_first_sort thirteen_upstreams = Some r /\
    Match r "/other" = Some u7 /\ Name u7 = "r7" /\
    longest_first_registered l "/other" = Some u1 /\ Name u1 = "r1".
Proof. do 4 eexists. vm_compute. repeat split; reflexivity. Qed.

(** C1 (counterexample): with a sorter that [sort.Slice]'s contract allows,
    a request for [/other] against twelve catch-all upstreams and one for
    [/api] is given to the seventh registered catch-all, not the first. *)
Lemma Match_tie_not_first_registered : ~ ties_go_to_first_registered.
Proof.
  intros H.
  destruct thirteen_upstreams_tie as (l & r & u1 & u7 & Hl & Hr & Hm & H7 & Hs & H1).
  specialize (H parse_any pivot_first_sort pivot_first_sort_spec _ _ _ "/other" Hl Hr).
  rewrite Hm, Hs in H. injection H as ->. rewrite H7 in H1. discriminate.
Qed.

(** C1 (amended): whenever [NewRouter] succeeds, [Match] returns an
    upstream built from a registered one, whose prefix matches the path
    ("/" matches every path) and is at least as long as the prefix of
    every registered upstream that matches; it returns nil exactly when no
    registered upstream matches. *)
Theorem Match_longest_prefix
    (url_Parse : string -> option URL)
    (sort_Slice : (Upstream -> Upstream -> bool) -> list Upstream -> list Upstream)
    (ups : list Upstream) (r : Router) (path : string) :
  sort_Slice_spec sort_Slice ->
  NewRouter url_Parse sort_Slice ups = Some r ->
  match Match r path with
  | Some u =>
      matches path u = true /\
      (exists u0, In u0 ups /\ prepare url_Parse u0 = Some u) /\
      (forall u0 v, In u0 ups -> prepare url_Parse u0 = Some v -> matches path v = true ->
                    strings.len (Prefix v) <= strings.len (Prefix u))
  | None =>
      forall u0 v, In u0 ups -> prepare url_Parse u0 = Some v -> matches path v = false
  end.
Proof.
  intros Hsort. unfold NewRouter, Match.
  destruct (prepare_all url_Parse ups) as [l|] eqn:Hl; [|discriminate].
  intros [= <-]. simpl.
  destruct (Hsort l) as [Hperm Hsorted].
  destruct (prepare_all_In _ _ _ Hl) as [Hfrom Hto].
  destruct (Match_from (sort_Slice less l) path) as [u|] eqn:Hm.
  - destruct (Match_from_Some _ _ _ Hm) as (l1 & l2 & Heq & Hu & _).
    split; [exact Hu|]. split.
    + apply Hfrom. eapply Permutation_in; [symmetry; exact Hperm|].
      eapply Match_from_In. exact Hm.
    + intros u0 v Hin Hp Hv.
      destruct (Hto _ Hin) as (v' & Hv' & Hp').
      assert (v' = v) as -> by congruence.
      eapply Match_from_longest; eauto.
      eapply Permutation_in; [exact Hperm|exact Hv'].
  - intros u0 v Hin Hp.
    destruct (Hto _ Hin) as (v' & Hv' & Hp').
    assert (v' = v) as -> by congruence.
    apply Match_from_None in Hm. rewrite Forall_forall in Hm.
    apply Hm. apply list_elem_of_In. eapply Permutation_in; [exact Hperm|exact Hv'].
Qed.

Lemma Match_longest_prefix_witness :
  exists r,
    NewRouter parse_any insertion_sort two_upstreams = Some r /\
    match Match r "/api/ping" with
    | Some u =>
        matches "/api/ping" u = true /\
        (exists u0, In u0 two_upstreams /\ prepare parse_any u0 = Some u) /\
        (forall u0 v, In u0 two_upstreams -> prepare parse_any u0 = Some v ->
                      matches "/api/ping" v = true ->
                      strings.len (Prefix v) <= strings.len (Prefix u))
    | None =>
        forall u0 v, In u0 two_upstreams -> prepare parse_any u0 = Some v ->
                     matches "/api/ping" v = false
    end.
Proof.
  eexists. split; [reflexivity|].
  apply (Match_longest_prefix parse_any insertion_sort two_upstreams).
  - exact insertion_sort_spec.
  - reflexivity.
Defined.

(** The longest-prefix scenario of the specification. *)
Lemma Match_two_upstreams :
  exists r a root,
    NewRouter parse_any insertion_sort two_upstreams = Some r /\
    Match r "/api/ping" = Some a /\ Name a = "a" /\
    Match r "/other" = Some root /\ Name root = "root".
Proof. do 3 eexists. vm_compute. repeat split; reflexivity. Qed.

End RouterFacts.

Module FlowStoreFacts.
Import FlowStore.

Section Store.

Context {FlowPtr : Type}.
Variable flowID : FlowPtr -> string.

Implicit Types (s : FlowStore FlowPtr) (q fs : list FlowPtr) (f : FlowPtr).

Local Abbreviation Add := (FlowStore.Add flowID).
Local Abbreviation add_all := (FlowStore.add_all flowID).
Local Abbreviation apply_op := (FlowStore.apply_op flowID).
Local Abbreviation run := (FlowStore.run flowID).
Local Abbreviation fresh_ids := (FlowStore.fresh_ids flowID).
Local Abbreviation idx_ok := (FlowStore.idx_ok flowID).
Local Abbreviation map_ok := (FlowStore.map_ok flowID).

(** *** The ring against the queue it holds *)

Lemma rem_succ (h c : Z) :
  0 <= h < c -> Z.rem (h + 1) c = if h + 1 <? c then h + 1 else 0.
Proof.
  intros H. destruct (Z.ltb_spec (h + 1) c).
  - apply Z.rem_small. lia.
  - assert (h + 1 = c) as -> by lia. apply Z.rem_same. lia.
Qed.

Lemma rem_wrap (x c : Z) :
  0 <= x < 2 * c -> 0 < c -> Z.rem x c = if x <? c then x else x - c.
Proof.
  intros H Hc. destruct (Z.ltb_spec x c).
  - apply Z.rem_small. lia.
  - rewrite Z.rem_mod_nonneg by lia.
    replace x with ((x - c) + 1 * c) at 1 by lia.
    rewrite Z.mod_add by lia. apply Z.mod_small. lia.
Qed.

Lemma slot_fmap s (F : list FlowPtr) (i : Z) :
  flows s = Some <$> F -> slot s i = F !! Z.to_nat i.
Proof.
  intros HF. unfold slot. rewrite HF, list_lookup_fmap.
  destruct (F !! Z.to_nat i); reflexivity.
Qed.

Lemma omap_seq_lookup (g : nat -> option FlowPtr) q (k : nat) :
  (forall i, (i < length q)%nat -> g (k + i)%nat = q !! i) ->
  omap g (seq k (length q)) = q.
Proof.
  revert k. induction q as [|x q IH]; intros k Hg; simpl; [reflexivity|].
  specialize (Hg 0%nat) as H0. rewrite Nat.add_0_r in H0.
  rewrite H0 by (simpl; lia). simpl. f_equal.
  apply IH. intros i Hi. replace (S k + i)%nat with (k + S i)%nat by lia.
  apply Hg. simpl. lia.
Qed.

Lemma collect_eq s q (n : Z) (at_ : Z -> Z) :
  n = Z.of_nat (length q) ->
  (forall i, (i < length q)%nat -> slot s (at_ (Z.of_nat i)) = q !! i) ->
  collect s n at_ = q.
Proof.
  intros -> Hg. unfold collect. rewrite Nat2Z.id.
  apply (omap_seq_lookup (fun i => slot s (at_ (Z.of_nat i))) q 0). exact Hg.
Qed.

Lemma rep_NewFlowStore (c : Z) : rep (@NewFlowStore FlowPtr c) [].
Proof.
  unfold rep, NewFlowStore. simpl.
  destruct (Z.leb_spec c 0); (split; [lia|]); rewrite length_replicate;
    (split; [reflexivity|]); (split; [reflexivity|]); (split; [lia|]);
    left; (split; [lia|]); (split; [reflexivity|]); eexists; reflexivity.
Qed.

Lemma rep_count s q : rep s q -> Count s = Z.of_nat (length q).
Proof. intros (_ & _ & H & _). exact H. Qed.

Lemma rep_length s q : rep s q -> Z.of_nat (length q) <= capacity s.
Proof.
  intros (_ & _ & Hc & _ & [(Hlt & _)|(Heq & _)]); lia.
Qed.

Lemma rep_All s q : rep s q -> All s = q.
Proof.
  intros (Hcap & Hlen & Hcount & Hhead & Hcases). unfold All.
  destruct (Z.eqb_spec (count s) 0) as [H0|H0].
  - destruct q; [reflexivity|]. simpl in Hcount. lia.
  - destruct Hcases as [(Hlt & Hh & rest & Hfl)|(Heq & F & Hfl & Hq)].
    + destruct (Z.ltb_spec (count s) (capacity s)); [|lia].
      apply collect_eq; [exact Hcount|]. intros i Hi.
      unfold slot. rewrite Nat2Z.id, Hfl.
      rewrite lookup_app_l by (rewrite length_fmap; exact Hi).
      rewrite list_lookup_fmap. destruct (q !! i); reflexivity.
    + destruct (Z.ltb_spec (count s) (capacity s)); [lia|].
      assert (length F = Z.to_nat (capacity s)) as HF.
      { rewrite <- Hlen, Hfl, length_fmap. reflexivity. }
      assert (length q = length F) as Hqq by lia.
      apply collect_eq; [lia|]. intros i Hi.
      rewrite (slot_fmap s F _ Hfl), Hq.
      rewrite rem_wrap by lia.
      destruct (Z.ltb_spec (head s + Z.of_nat i) (capacity s)).
      * rewrite lookup_app_l by (rewrite length_drop; lia).
        rewrite lookup_drop. f_equal. lia.
      * rewrite lookup_app_r by (rewrite length_drop; lia).
        rewrite length_drop. rewrite lookup_take_lt by lia. f_equal. lia.
Qed.

Lemma rep_slot_head s q :
  rep s q -> count s = capacity s -> slot s (head s) = q !! 0%nat.
Proof.
  intros (Hcap & Hlen & Hcount & Hhead & Hcases) Hfull.
  destruct Hcases as [(Hlt & _)|(_ & F & Hfl & Hq)]; [lia|].
  assert (length F = Z.to_nat (capacity s)) as HF.
  { rewrite <- Hlen, Hfl, length_fmap. reflexivity. }
  rewrite (slot_fmap s F _ Hfl), Hq.
  rewrite lookup_app_l by (rewrite length_drop; lia).
  rewrite lookup_drop. f_equal. lia.
Qed.

Lemma rep_Add s q f : rep s q -> rep (Add s f) (enqueue s q f).
Proof.
  intros (Hcap & Hlen & Hcount & Hhead & Hcases). unfold rep, enqueue, Add. simpl.
  rewrite length_insert, rem_succ by lia.
  split; [exact Hcap|]. split; [exact Hlen|].
  destruct Hcases as [(Hlt & Hh & rest & Hfl)|(Heq & F & Hfl & Hq)].
  - destruct (Z.eqb_spec (count s) (capacity s)); [lia|].
    rewrite length_app. simpl.
    split; [lia|]. split; [destruct (Z.ltb_spec (head s + 1) (capacity s)); lia|].
    assert (Z.to_nat (head s) = length (Some <$> q)) as Hpos
      by (rewrite length_fmap; lia).
    destruct rest as [|r0 rest'].
    { rewrite Hfl, length_app, length_fmap in Hlen. simpl in Hlen. lia. }
    assert (<[Z.to_nat (head s) := Some f]> (flows s) = (Some <$> (q ++ [f])) ++ rest') as Hins.
    { rewrite Hfl, Hpos, insert_app_r_alt by lia.
      rewrite Nat.sub_diag. simpl. rewrite fmap_app. simpl.
      rewrite <- app_assoc. reflexivity. }
    rewrite Hins.
    destruct (Z.ltb_spec (head s + 1) (capacity s)).
    + left. split; [lia|]. split; [lia|]. exists rest'. reflexivity.
    + right. split; [lia|]. exists (q ++ [f]).
      split; [|simpl; rewrite drop_0, app_nil_r; reflexivity].
      destruct rest' as [|r1 rest'']; [rewrite app_nil_r; reflexivity|].
      rewrite Hfl, length_app, length_fmap in Hlen. simpl in Hlen. lia.
  - destruct (Z.eqb_spec (count s) (capacity s)); [|lia].
    assert (length F = Z.to_nat (capacity s)) as HF.
    { rewrite <- Hlen, Hfl, length_fmap. reflexivity. }
    assert (exists x, F !! Z.to_nat (head s) = Some x) as [x Hx].
    { apply lookup_lt_is_Some. lia. }
    assert (q = x :: drop (S (Z.to_nat (head s))) F ++ take (Z.to_nat (head s)) F) as Hq'.
    { rewrite Hq. rewrite (drop_S _ _ _ Hx). reflexivity. }
    clear Hq. destruct q as [|x0 q0]; [discriminate Hq'|].
    injection Hq' as -> Htl. simpl in Hcount. simpl tail.
    split; [rewrite length_app; simpl; lia|].
    rewrite Htl.
    split; [destruct (Z.ltb_spec (head s + 1) (capacity s)); lia|].
    right. split; [exact Heq|].
    exists (<[Z.to_nat (head s) := f]> F).
    split; [rewrite Hfl, list_fmap_insert; reflexivity|].
    destruct (Z.ltb_spec (head s + 1) (capacity s)).
    + replace (Z.to_nat (head s + 1)) with (S (Z.to_nat (head s))) by lia.
      rewrite drop_insert_lt by lia.
      rewrite (take_S_r _ _ f) by (apply list_lookup_insert_eq; lia).
      rewrite take_insert_ge by lia.
      rewrite <- app_assoc. reflexivity.
    + change (Z.to_nat 0) with 0%nat. rewrite drop_0, take_0, app_nil_r.
      rewrite (drop_ge F) by lia. simpl.
      rewrite insert_take_drop by lia.
      rewrite (drop_ge F) by lia. reflexivity.
Qed.

Lemma rep_Update s q f (t : Flow.FlowEventType) : rep s q -> rep (Update s f t) q.
Proof. intros H. exact H. Qed.

Lemma rep_Clear s q : rep s q -> rep (Clear s) [].
Proof.
  intros (Hcap & _). unfold rep, Clear. simpl. rewrite length_replicate.
  split; [exact Hcap|]. split; [reflexivity|]. split; [reflexivity|]. split; [lia|].
  left. split; [lia|]. split; [reflexivity|]. eexists. reflexivity.
Qed.

(** *** The index against the queue *)

Lemma map_ok_empty : map_ok ∅ [].
Proof.
  split; [constructor|]. intros id f. rewrite lookup_empty.
  split; [discriminate|]. intros [H _]. inversion H.
Qed.

Lemma map_ok_insert (m : gmap string FlowPtr) q f :
  map_ok m q ->
  Forall (fun g => flowID g <> flowID f) q ->
  map_ok (<[flowID f := f]> m) (q ++ [f]).
Proof.
  intros [Hnd Hm] Hfresh. rewrite Forall_forall in Hfresh. split.
  - rewrite fmap_app. apply NoDup_app. split; [exact Hnd|]. split.
    + intros id Hin Hin'. simpl in Hin'. apply list_elem_of_singleton in Hin'. subst id.
      apply list_elem_of_fmap in Hin as (g & Hg & Hgq). apply (Hfresh g Hgq). congruence.
    + simpl. apply NoDup_singleton.
  - intros id g. rewrite elem_of_app, list_elem_of_singleton.
    destruct (decide (flowID f = id)) as [<-|Hne].
    + rewrite lookup_insert_eq. split.
      * intros [= <-]. auto.
      * intros [[Hg| ->] Hid]; [|reflexivity]. destruct (Hfresh g Hg Hid).
    + rewrite lookup_insert_ne by exact Hne. rewrite Hm. split.
      * intros [? ?]. auto.
      * intros [[Hg| ->] Hid]; [auto|congruence].
Qed.

Lemma map_ok_delete (m : gmap string FlowPtr) old q :
  map_ok m (old :: q) -> map_ok (delete (flowID old) m) q.
Proof.
  intros [Hnd Hm]. simpl in Hnd. apply NoDup_cons in Hnd as [Hold Hnd].
  split; [exact Hnd|]. intros id g.
  destruct (decide (flowID old = id)) as [<-|Hne].
  - rewrite lookup_delete_eq. split; [discriminate|].
    intros [Hg Hid]. destruct Hold. rewrite <- Hid.
    apply list_elem_of_fmap. exists g. auto.
  - rewrite lookup_delete_ne by exact Hne. rewrite Hm, elem_of_cons. split.
    + intros [[->|Hg] Hid]; [congruence|auto].
    + intros [Hg Hid]. auto.
Qed.

Lemma idx_ok_NewFlowStore (c : Z) : idx_ok (@NewFlowStore FlowPtr c) [].
Proof. apply map_ok_empty. Qed.

Lemma idx_ok_Add s q f :
  rep s q -> idx_ok s q ->
  Forall (fun g => flowID g <> flowID f) q ->
  idx_ok (Add s f) (enqueue s q f).
Proof.
  intros Hrep Hidx Hfresh. unfold FlowStore.idx_ok, enqueue, FlowStore.Add. simpl.
  destruct (Z.eqb_spec (count s) (capacity s)) as [Hfull|Hnot].
  - rewrite (rep_slot_head s q Hrep Hfull).
    destruct q as [|old q0].
    { destruct Hrep as (Hcap & _ & Hcount & _). simpl in Hcount. lia. }
    simpl. apply map_ok_insert.
    + apply map_ok_delete. exact Hidx.
    + inversion Hfresh; assumption.
  - apply map_ok_insert; assumption.
Qed.


(** *** Sequences of calls *)


Lemma keep_last_short {A : Type} (n : nat) (l : list A) :
  (length l <= n)%nat -> keep_last n l = l.
Proof. intros H. unfold keep_last. replace (length l - n)%nat with 0%nat by lia. apply drop_0. Qed.

Lemma keep_last_app {A : Type} (n : nat) (a b : list A) :
  keep_last n (keep_last n a ++ b) = keep_last n (a ++ b).
Proof.
  destruct (Nat.le_gt_cases (length a) n) as [Hle|Hgt].
  - rewrite (keep_last_short n a Hle). reflexivity.
  - unfold keep_last. rewrite !length_app, length_drop.
    replace (length a - (length a - n) + length b - n)%nat with (length b) by lia.
    replace (length a + length b - n)%nat with ((length a - n) + length b)%nat by lia.
    rewrite <- drop_drop. rewrite (drop_app_le a) by lia. reflexivity.
Qed.

Lemma enqueue_keep_last s q f :
  rep s q -> enqueue s q f = keep_last (Z.to_nat (capacity s)) (q ++ [f]).
Proof.
  intros (Hcap & _ & Hcount & _ & Hcases). unfold enqueue, keep_last.
  rewrite length_app. simpl.
  destruct (Z.eqb_spec (count s) (capacity s)) as [Hfull|Hnot].
  - replace (length q + 1 - Z.to_nat (capacity s))%nat with 1%nat by lia.
    destruct q; [simpl in Hcount; lia|reflexivity].
  - destruct Hcases as [(Hlt & _)|(Heq & _)]; [|lia].
    replace (length q + 1 - Z.to_nat (capacity s))%nat with 0%nat by lia.
    reflexivity.
Qed.

Lemma capacity_add_all s fs : capacity (add_all s fs) = capacity s.
Proof. revert s. induction fs as [|f fs IH]; intros s; simpl; [reflexivity|]. rewrite IH. reflexivity. Qed.

Lemma add_all_inv s q fs :
  rep s q -> idx_ok s q -> NoDup (flowID <$> (q ++ fs)) ->
  rep (add_all s fs) (keep_last (Z.to_nat (capacity s)) (q ++ fs)) /\
  idx_ok (add_all s fs) (keep_last (Z.to_nat (capacity s)) (q ++ fs)).
Proof.
  revert s q. induction fs as [|f fs IH]; intros s q Hrep Hidx Hnd.
  - rewrite app_nil_r. rewrite keep_last_short by (pose proof (rep_length s q Hrep); lia).
    auto.
  - simpl. replace (q ++ f :: fs) with ((q ++ [f]) ++ fs) in * by (rewrite <- app_assoc; reflexivity).
    rewrite <- keep_last_app, <- (enqueue_keep_last s q f Hrep).
    assert (Forall (fun g => flowID g <> flowID f) q) as Hfresh.
    { rewrite !fmap_app in Hnd. apply NoDup_app in Hnd as [Hnd _].
      apply NoDup_app in Hnd as (_ & Hdisj & _). apply Forall_forall. intros g Hg Heq.
      apply (Hdisj (flowID g)); [apply list_elem_of_fmap; eauto|].
      simpl. rewrite Heq. apply list_elem_of_singleton. reflexivity. }
    apply (IH (Add s f) (enqueue s q f)).
    + apply rep_Add. exact Hrep.
    + apply idx_ok_Add; assumption.
    + rewrite (enqueue_keep_last s q f Hrep). unfold keep_last.
      rewrite <- (take_drop (length (q ++ [f]) - Z.to_nat (capacity s)) (q ++ [f])) in Hnd.
      rewrite <- app_assoc, fmap_app in Hnd. apply NoDup_app in Hnd as (_ & _ & Hnd).
      exact Hnd.
Qed.

Lemma add_all_rep s q fs :
  rep s q -> rep (add_all s fs) (keep_last (Z.to_nat (capacity s)) (q ++ fs)).
Proof.
  revert s q. induction fs as [|f fs IH]; intros s q Hrep.
  - rewrite app_nil_r. rewrite keep_last_short by (pose proof (rep_length s q Hrep); lia).
    exact Hrep.
  - simpl. replace (q ++ f :: fs) with ((q ++ [f]) ++ fs) by (rewrite <- app_assoc; reflexivity).
    rewrite <- keep_last_app, <- (enqueue_keep_last s q f Hrep).
    apply (IH (Add s f) (enqueue s q f)). apply rep_Add. exact Hrep.
Qed.

Lemma ids_apart fs (k : nat) f g :
  NoDup (flowID <$> fs) -> f ∈ take k fs -> g ∈ drop k fs -> flowID f <> flowID g.
Proof.
  intros Hnd Hf Hg Heq. rewrite <- (take_drop k fs), fmap_app in Hnd.
  apply NoDup_app in Hnd as (_ & Hdisj & _).
  apply (Hdisj (flowID f)); [apply list_elem_of_fmap; eauto|].
  rewrite Heq. apply list_elem_of_fmap. eauto.
Qed.

Lemma evicted_gone (N : Z) fs f :
  0 < N -> NoDup (flowID <$> fs) ->
  f ∈ take (length fs - Z.to_nat N) fs ->
  (f ∉ All (add_all (NewFlowStore N) fs)) /\
  Get (add_all (NewFlowStore N) fs) (flowID f) = None.
Proof.
  intros HN Hnd Hf.
  destruct (add_all_inv (NewFlowStore N) [] fs (rep_NewFlowStore N)
              (idx_ok_NewFlowStore N) Hnd) as [Hrep [_ Hidx]].
  assert (capacity (@NewFlowStore FlowPtr N) = N) as Hcap.
  { unfold NewFlowStore. simpl. destruct (Z.leb_spec N 0); [lia|reflexivity]. }
  rewrite Hcap in Hrep, Hidx. simpl in Hrep, Hidx. unfold keep_last in Hrep, Hidx.
  rewrite (rep_All _ _ Hrep). split.
  - intros Hin. exact (ids_apart fs _ f f Hnd Hf Hin eq_refl).
  - unfold Get. destruct (index _ !! flowID f) as [g|] eqn:Hg; [|reflexivity].
    apply Hidx in Hg as [Hin Hid]. destruct (ids_apart fs _ f g Hnd Hf Hin). congruence.
Qed.

(** C3: adding more flows than the capacity [N] leaves [Count] at most
    [N] and [All] equal to the last [N] flows added, oldest first; when the
    flows carry distinct identifiers, every flow added before these is
    neither in [All] nor found by [Get], in particular the oldest one right
    after insertion number [N + 1]. *)
Theorem Add_beyond_capacity (N : Z) fs :
  0 < N -> N < Z.of_nat (length fs) ->
  Count (add_all (NewFlowStore N) fs) <= N /\
  All (add_all (NewFlowStore N) fs) = keep_last (Z.to_nat N) fs /\
  Z.of_nat (length (All (add_all (NewFlowStore N) fs))) = N /\
  (NoDup (flowID <$> fs) ->
   (forall f, f ∈ take (length fs - Z.to_nat N) fs ->
              (f ∉ All (add_all (NewFlowStore N) fs)) /\
              Get (add_all (NewFlowStore N) fs) (flowID f) = None) /\
   (forall oldest, fs !! 0%nat = Some oldest ->
      (oldest ∉ All (add_all (NewFlowStore N) (take (S (Z.to_nat N)) fs))) /\
      Get (add_all (NewFlowStore N) (take (S (Z.to_nat N)) fs)) (flowID oldest) = None)).
Proof.
  intros HN Hlen.
  pose proof (add_all_rep (NewFlowStore N) [] fs (rep_NewFlowStore N)) as Hrep.
  assert (capacity (@NewFlowStore FlowPtr N) = N) as Hcap.
  { unfold NewFlowStore. simpl. destruct (Z.leb_spec N 0); [lia|reflexivity]. }
  rewrite Hcap in Hrep. simpl in Hrep.
  assert (length (keep_last (Z.to_nat N) fs) = Z.to_nat N) as Hkl
    by (unfold keep_last; rewrite length_drop; lia).
  rewrite (rep_All _ _ Hrep), (rep_count _ _ Hrep), Hkl.
  split; [lia|]. split; [reflexivity|]. split; [lia|].
  intros Hnd. split.
  - intros f Hf. rewrite <- (rep_All _ _ Hrep). apply evicted_gone; assumption.
  - intros oldest Hold. apply evicted_gone; [exact HN| |].
    + rewrite <- (take_drop (S (Z.to_nat N)) fs), fmap_app in Hnd.
      apply NoDup_app in Hnd as [Hnd _]. exact Hnd.
    + rewrite length_take.
      replace (S (Z.to_nat N) `min` length fs - Z.to_nat N)%nat with 1%nat by lia.
      rewrite take_take. replace (1 `min` S (Z.to_nat N))%nat with 1%nat by lia.
      destruct fs as [|x rest]; [discriminate|]. injection Hold as ->.
      simpl. rewrite take_0. apply list_elem_of_singleton. reflexivity.
Qed.

(** *** What the index holds without fresh identifiers *)




(** C10: a capacity argument that is not positive yields the store of
    capacity 1000, the very store [NewFlowStore 1000] builds, so that every
    sequence of calls runs alike on both. *)
Theorem NewFlowStore_default_capacity (c : Z) :
  c <= 0 ->
  @NewFlowStore FlowPtr c = NewFlowStore 1000 /\
  capacity (@NewFlowStore FlowPtr c) = 1000 /\
  length (flows (@NewFlowStore FlowPtr c)) = 1000%nat /\
  forall ops, run (NewFlowStore c) ops = run (NewFlowStore 1000) ops.
Proof.
  intros Hc.
  assert (@NewFlowStore FlowPtr c = NewFlowStore 1000) as Heq.
  { unfold NewFlowStore. destruct (Z.leb_spec c 0); [reflexivity|lia]. }
  rewrite Heq. split; [reflexivity|]. split; [reflexivity|].
  split; [apply length_replicate|reflexivity].
Qed.

End Store.

Lemma Add_beyond_capacity_witness :
  Count (add_all (fun x => x) (NewFlowStore 2) ["a"; "b"; "c"]) <= 2 /\
  All (add_all (fun x => x) (NewFlowStore 2) ["a"; "b"; "c"]) = keep_last 2 ["a"; "b"; "c"] /\
  Z.of_nat (length (All (add_all (fun x => x) (NewFlowStore 2) ["a"; "b"; "c"]))) = 2 /\
  (NoDup ((fun x : string => x) <$> ["a"; "b"; "c"]) ->
   (forall f, f ∈ take (3 - 2) ["a"; "b"; "c"] ->
              (f ∉ All (add_all (fun x => x) (NewFlowStore 2) ["a"; "b"; "c"])) /\
              Get (add_all (fun x => x) (NewFlowStore 2) ["a"; "b"; "c"]) f = None) /\
   (forall oldest, ["a"; "b"; "c"] !! 0%nat = Some oldest ->
      (oldest ∉ All (add_all (fun x => x) (NewFlowStore 2) (take 3 ["a"; "b"; "c"]))) /\
      Get (add_all (fun x => x) (NewFlowStore 2) (take 3 ["a"; "b"; "c"])) oldest = None)).
Proof.
  apply (Add_beyond_capacity (fun x : string => x) 2 ["a"; "b"; "c"]); simpl; lia.
Defined.


(** The sample run brings a fresh identifier with every [Add]. *)
Lemma sample_ops_fresh : fresh_ids (fun x => x) (NewFlowStore 2) sample_ops.
Proof. simpl. repeat split; repeat constructor; discriminate. Qed.

(** C9 (counterexample): a store of capacity two is given two flows that
    carry the identifier [x] and then a flow that carries [y].  The third
    [Add] evicts the first flow and deletes [x] from the index: the second
    flow is still returned by [All], and [Get] does not find it. *)
Lemma repeated_id_not_found : ~ ring_and_index_always_agree.
Proof.
  intros H.
  destruct (H nat Samples.id_x_twice 2 [OpAdd 0%nat; OpAdd 1%nat; OpAdd 2%nat])
    as (_ & Hget & _).
  specialize (Hget 1%nat).
  assert (All (run Samples.id_x_twice (NewFlowStore 2) [OpAdd 0%nat; OpAdd 1%nat; OpAdd 2%nat])
          = [1%nat; 2%nat]) as Hall by reflexivity.
  rewrite Hall in Hget. specialize (Hget (list_elem_of_here _ _)).
  vm_compute in Hget. discriminate.
Qed.

Lemma NewFlowStore_default_capacity_witness :
  @NewFlowStore string (-5) = NewFlowStore 1000 /\
  capacity (@NewFlowStore string (-5)) = 1000 /\
  length (flows (@NewFlowStore string (-5))) = 1000%nat /\
  forall ops, run (fun x => x) (NewFlowStore (-5)) ops = run (fun x => x) (NewFlowStore 1000) ops.
Proof.
  apply (NewFlowStore_default_capacity (fun x : string => x) (-5)). lia.
Defined.

End FlowStoreFacts.

Module EngineFacts.
Import Engine.

(** *** The bounded read *)

Lemma int64_id (z : Z) : is_int64 z -> int64 z = z.
Proof.
  unfold is_int64, int64, MinInt64, MaxInt64.
  change (2 ^ 63) with 9223372036854775808.
  change (2 ^ 64) with 18446744073709551616. intros H.
  rewrite Z.mod_small by lia. lia.
Qed.

(** Within the range where [maxBytes + 1] does not wrap, a body that is
    read to its end is captured up to [maxBytes] bytes and flagged exactly
    when it is longer. *)
Lemma readLimited_in_range (data : io.bytes) (maxBytes : Z) :
  0 <= maxBytes < MaxInt64 ->
  fst (readLimited {| io.pending := data; io.failure := None; io.closed := false |} maxBytes)
  = Ok (take (Z.to_nat maxBytes) data, maxBytes <? io.len data).
Proof.
  intros H. unfold readLimited, io.ReadAll_LimitReader. simpl.
  rewrite int64_id
    by (unfold is_int64, MinInt64, MaxInt64 in *;
        change (2 ^ 63) with 9223372036854775808 in *; lia).
  destruct (Z.leb_spec (maxBytes + 1) 0); [lia|].
  unfold io.len in *.
  destruct (Z.leb_spec (maxBytes + 1) (Z.of_nat (length data))) as [Hlong|Hshort]; simpl.
  - rewrite length_take.
    destruct (Z.ltb_spec maxBytes (Z.of_nat (Z.to_nat (maxBytes + 1) `min` length data))); [|lia].
    destruct (Z.ltb_spec maxBytes 0); [lia|].
    destruct (Z.ltb_spec maxBytes (Z.of_nat (length data))); [|lia].
    rewrite take_take.
    replace (Z.to_nat maxBytes `min` Z.to_nat (maxBytes + 1))%nat with (Z.to_nat maxBytes) by lia.
    reflexivity.
  - destruct (Z.ltb_spec maxBytes (Z.of_nat (length data))); [lia|].
    rewrite take_ge by lia. reflexivity.
Qed.

Lemma captureRequestBody_in_range (flow : Flow.Flow) (cr : CapturedRequest.t)
    (r : http.Request) (data : io.bytes) (maxBytes : Z) :
  0 <= maxBytes < MaxInt64 ->
  Flow.Request flow = Some cr ->
  http.Body_ r = http.BodyReader {| io.pending := data; io.failure := None; io.closed := false |} ->
  exists flow' r' cr',
    captureRequestBody flow r maxBytes = (flow', r', Ok tt) /\
    Flow.Request flow' = Some cr' /\
    CapturedRequest.Body cr' = take (Z.to_nat maxBytes) data /\
    io.len (CapturedRequest.Body cr') = Z.min (io.len data) maxBytes /\
    (CapturedRequest.BodyTruncated cr' = true <-> maxBytes < io.len data).
Proof.
  intros Hrange Hreq Hbody. unfold captureRequestBody. rewrite Hbody.
  pose proof (readLimited_in_range data maxBytes Hrange) as Hread.
  destruct (readLimited _ maxBytes) as [res rd']. simpl in Hread. subst res.
  rewrite Hreq. do 3 eexists. split; [reflexivity|].
  split; [reflexivity|]. simpl. split; [reflexivity|]. split.
  - unfold io.len. rewrite length_take. lia.
  - apply Z.ltb_lt.
Qed.

(** C2 (failing input): with [maxBodySize = MaxInt64] the limit
    [maxBytes + 1] wraps to [MinInt64], the limited reader delivers nothing,
    and a one-byte body is captured as empty, not truncated, and replaced by
    an empty body of content length 0. *)
Theorem captureRequestBody_MaxInt64 :
  captureRequestBody Samples.flow_1 (Samples.request_with "A" None) MaxInt64
  = (Flow.set_Request
       (Some (CapturedRequest.set_Body [] false Samples.request_GET)) Samples.flow_1,
     http.set_Body (http.BodyReader (io.NewReader [])) 0 (Samples.request_with "A" None),
     Ok tt).
Proof. vm_compute. reflexivity. Qed.

(** A negative limit makes the slice expression of [readLimited] panic. *)
Lemma captureRequestBody_negative_limit :
  snd (captureRequestBody Samples.flow_1 (Samples.request_with "A" None) (-1)) = Panic.
Proof. vm_compute. reflexivity. Qed.


Lemma readLimited_closes (rd : io.ReadCloser) (maxBytes : Z) :
  io.closed (snd (readLimited rd maxBytes)) = true.
Proof.
  unfold readLimited.
  destruct (io.ReadAll_LimitReader rd _) as [[data err] r1].
  destruct err; simpl; [reflexivity|].
  destruct (maxBytes <? io.len data); [|reflexivity].
  destruct (maxBytes <? 0); reflexivity.
Qed.

(** The basic forward of the specification: a request for [/x] is routed
    to the only upstream, whose answer reaches the client, and is recorded
    as a complete flow. *)
Lemma ServeHTTP_basic_forward :
  exists w' rw' flow cr,
    ServeHTTP (Samples.lib Samples.answers_hello) (Samples.engine 10) Samples.world
      Samples.empty_writer (Samples.request_with "ping" None)
    = (w', rw', true) /\
    http.code rw' = 200 /\
    http.body rw' = Samples.bytes_of "hello" /\
    heap w' !! 1%nat = Some flow /\
    Flow.State flow = Flow.FlowStateComplete /\
    Flow.Upstream flow = "default" /\
    option_map CapturedRequest.Body (Flow.Request flow) = Some (Samples.bytes_of "ping") /\
    Flow.Response flow = Some cr /\
    CapturedResponse.StatusCode cr = 200 /\
    CapturedResponse.Body cr = Samples.bytes_of "hello" /\
    FlowStore.All (store w') = [0%nat; 1%nat].
Proof. do 4 eexists. vm_compute. repeat split; reflexivity. Qed.

(** *** Hooks that only observe *)

Lemma fire_observer (hook : Addon.Addon -> option (Flow.Flow -> Flow.Flow))
    (m : Addon.AddonManager) (f : Flow.Flow) :
  Forall (fun a => forall h, hook a = Some h -> forall f, h f = f) (Addon.addons m) ->
  Addon.fire hook m f = f.
Proof.
  unfold Addon.fire. generalize (Addon.addons m). intros l Hl. revert f.
  induction Hl as [|a l Ha _ IH]; intros f; simpl; [reflexivity|].
  destruct (hook a) as [h|] eqn:Hh; [rewrite (Ha h eq_refl)|]; apply IH.
Qed.

Lemma FireResponse_observer (m : Addon.AddonManager) (f : Flow.Flow) :
  Forall Addon.observer (Addon.addons m) -> Addon.FireResponse m f = f.
Proof.
  intros H. apply fire_observer. eapply Forall_impl; [exact H|].
  intros a (_ & Hr & _). exact Hr.
Qed.

Lemma FireComplete_observer (m : Addon.AddonManager) (f : Flow.Flow) :
  Forall Addon.observer (Addon.addons m) -> Addon.FireComplete m f = f.
Proof.
  intros H. apply fire_observer. eapply Forall_impl; [exact H|].
  intros a (_ & _ & Hc & _). exact Hc.
Qed.

Lemma FireError_observer (m : Addon.AddonManager) (f : Flow.Flow) (err : string) :
  Forall Addon.observer (Addon.addons m) -> Addon.FireError m f err = f.
Proof.
  intros H. apply fire_observer. eapply Forall_impl; [exact H|].
  intros a (_ & _ & _ & He) h Hh g. simpl in Hh.
  destruct (Addon.OnError a) as [h'|] eqn:Hh'; [|discriminate].
  injection Hh as <-. apply (He h' eq_refl).
Qed.

Lemma LogAddon_observer : Addon.observer Addon.LogAddon.
Proof.
  repeat split; simpl; intros h Hh; try discriminate; injection Hh as <-; reflexivity.
Qed.

(** *** The response callback when the capture read fails *)

(** Whatever the response, if reading its body for the capture fails, the
    flow is completed with an empty, truncated captured body and
    [modifyResponse] returns nil; the body it leaves on the response is the
    upstream reader, drained as far as it was read and closed. *)
Lemma modifyResponse_capture_failure (e : Engine) (w : World) (resp : http.Response)
    (p : nat) (flow : Flow.Flow) (rd rd' : io.ReadCloser) (err : string) :
  http.resp_ctx_flow resp = Some p ->
  heap w !! p = Some flow ->
  http.resp_Body resp = Some rd ->
  readLimited rd (MaxBodySize (opts e)) = (Err err, rd') ->
  exists w' flow4 cr,
    modifyResponse e w resp
    = (w', http.set_resp_Body (Some rd') (http.resp_ContentLength resp) resp, Ok tt) /\
    heap w' !! p = Some (Addon.FireComplete (addons e) (Addon.FireResponse (addons e) flow4)) /\
    (Forall Addon.observer (Addon.addons (addons e)) -> heap w' !! p = Some flow4) /\
    Flow.State flow4 = Flow.FlowStateComplete /\
    Flow.Error flow4 = Flow.Error flow /\
    Flow.Response flow4 = Some cr /\
    CapturedResponse.Body cr = [] /\
    CapturedResponse.BodyTruncated cr = true /\
    CapturedResponse.StatusCode cr = http.StatusCode resp /\
    io.closed rd' = true.
Proof.
  intros Hctx Hheap Hbody Hread.
  unfold modifyResponse. rewrite Hctx, Hheap. simpl.
  unfold complete, captureResponseBody. rewrite Hbody, Hread. simpl.
  do 3 eexists. split; [reflexivity|]. simpl.
  split; [apply lookup_insert_eq|].
  split.
  { intros Hobs. rewrite lookup_insert_eq.
    rewrite FireResponse_observer, FireComplete_observer by exact Hobs. reflexivity. }
  repeat (split; [reflexivity|]).
  pose proof (readLimited_closes rd (MaxBodySize (opts e))) as Hc.
  rewrite Hread in Hc. exact Hc.
Qed.

(** C6 (failing input): an upstream answers 200 and its body breaks off
    after the bytes [par].  The flow is completed with an empty captured
    body flagged truncated, and the client is sent status 200, but the copy
    of the body is cut short before any byte: the three bytes read for the
    capture are not forwarded. *)
Theorem capture_failure_body_not_forwarded :
  exists w' rw' flow cr,
    ReverseProxy_ServeHTTP (Samples.lib Samples.breaks_off) (Samples.engine 10)
      Samples.default_upstream Samples.world Samples.empty_writer
      (http.WithContext 0 (Samples.request_with "" None))
    = (w', rw', true) /\
    heap w' !! 0%nat = Some flow /\
    Flow.State flow = Flow.FlowStateComplete /\
    Flow.Response flow = Some cr /\
    CapturedResponse.Body cr = [] /\
    CapturedResponse.BodyTruncated cr = true /\
    http.code rw' = 200 /\
    http.body rw' = [] /\
    http.aborted rw' = true.
Proof. do 4 eexists. vm_compute. repeat split; reflexivity. Qed.

(** *** What the callbacks leave alone *)





(** *** Replay *)

Lemma proxies_fold (l : list Router.Upstream) (m : gmap string Router.Upstream) (u : Router.Upstream) :
  In u l \/ is_Some (m !! Router.Name u) ->
  is_Some (fold_left (fun m u => <[Router.Name u := u]> m) l m !! Router.Name u).
Proof.
  revert m. induction l as [|a l IH]; intros m H; simpl.
  - destruct H as [[]|H]. exact H.
  - apply IH. destruct H as [[->|H]|H]; [right|left; exact H|right].
    + rewrite lookup_insert_eq. eauto.
    + destruct (decide (Router.Name a = Router.Name u)) as [Heq|Hne].
      * rewrite Heq, lookup_insert_eq. eauto.
      * rewrite lookup_insert_ne by exact Hne. exact H.
Qed.

Lemma New_configured (lib : StdLib) (o : Options) (e : Engine) (w : World) :
  New lib o = Some (e, w) -> configured e.
Proof.
  unfold New. destruct (Router.NewRouter _ _ _) as [r|]; [|discriminate].
  intros [= <- _] u Hu. simpl in *. apply proxies_fold. left. exact Hu.
Qed.



End EngineFacts.

Module LifecycleFacts.
Import Flow Lifecycle.









End LifecycleFacts.

Module FilterFacts.
Import Filter.

(** *** Indexing and the scanning loops *)

Lemma get_in_range (s : string) (n : nat) :
  (n < String.length s)%nat -> exists c, String.get n s = Some c.
Proof.
  revert n. induction s as [|a s IH]; intros n H; simpl in H; [lia|].
  destruct n as [|n]; simpl; [eauto|]. apply IH. lia.
Qed.

Lemma get_Some_lt (s : string) (n : nat) (c : ascii) :
  String.get n s = Some c -> (n < String.length s)%nat.
Proof.
  revert n. induction s as [|a s IH]; intros n H; simpl in *; [discriminate|].
  destruct n as [|n]; [lia|]. apply IH in H. lia.
Qed.

Lemma more_char_at (p : parser) :
  more p = true -> exists c, char_at p = Some c.
Proof. unfold more, char_at. intros H. apply Nat.ltb_lt in H. apply get_in_range. exact H. Qed.

Lemma char_at_lt (p : parser) (c : ascii) :
  char_at p = Some c -> (pos p < String.length (input p))%nat.
Proof. apply get_Some_lt. Qed.

Lemma continues_refl (p : parser) :
  (pos p <= String.length (input p))%nat -> continues p p.
Proof. unfold continues. auto. Qed.

Lemma continues_trans (p1 p2 p3 : parser) :
  continues p1 p2 -> continues p2 p3 -> continues p1 p3.
Proof.
  unfold continues. intros (Hi & Hl & Hu) (Hi' & Hl' & Hu').
  rewrite Hi in *. split; [congruence|]. split; lia.
Qed.

Lemma continues_advance (p : parser) (c : ascii) :
  char_at p = Some c -> continues p (advance p).
Proof.
  intros H. apply char_at_lt in H. unfold continues, advance. simpl.
  split; [reflexivity|]. lia.
Qed.

Lemma scan_continues (stop : ascii -> bool) (n : nat) (p : parser) :
  (pos p <= String.length (input p))%nat -> continues p (scan stop n p).
Proof.
  revert p. induction n as [|n IH]; intros p Hp; simpl; [apply continues_refl; exact Hp|].
  destruct (char_at p) as [c|] eqn:Hc; [|apply continues_refl; exact Hp].
  destruct (stop c); [apply continues_refl; exact Hp|].
  eapply continues_trans; [eapply continues_advance; exact Hc|].
  apply IH. apply char_at_lt in Hc. simpl. lia.
Qed.

Lemma skipWS_continues (p : parser) :
  (pos p <= String.length (input p))%nat -> continues p (skipWS p).
Proof. apply scan_continues. Qed.

(** When a scanning loop is given as many rounds as bytes remain, it stops
    because its condition fails: at the end of the input or on a byte that
    [stop] accepts. *)
Lemma scan_stops (stop : ascii -> bool) (n : nat) (p : parser) :
  (String.length (input p) - pos p <= n)%nat ->
  match char_at (scan stop n p) with
  | None => True
  | Some c => stop c = true
  end.
Proof.
  revert p. induction n as [|n IH]; intros p Hn; simpl.
  - destruct (char_at p) as [c|] eqn:Hc; [|exact I]. apply char_at_lt in Hc. lia.
  - destruct (char_at p) as [c|] eqn:Hc; [|rewrite Hc; exact I].
    destruct (stop c) eqn:Hs; [rewrite Hc; exact Hs|].
    apply IH. simpl. lia.
Qed.

(** *** Soundness of the parsing methods *)

Lemma sound_weaken {A : Type} (E : string -> Prop) (P : A -> Prop) (p0 p : parser)
    (r : res A) :
  continues p0 p -> sound E P p r -> sound E P p0 r.
Proof.
  intros Hc. destruct r as [a p'| | |]; simpl; auto.
  intros [Ha Hc']. split; [exact Ha|]. eapply continues_trans; eauto.
Qed.

Lemma sound_bind {A B : Type} (E : string -> Prop) (P : A -> Prop) (Q : B -> Prop)
    (p : parser) (r : res A) (k : A -> parser -> res B) :
  sound E P p r ->
  (forall a p1, P a -> continues p p1 -> sound E Q p1 (k a p1)) ->
  sound E Q p (bind r k).
Proof.
  destruct r as [a p1| | |]; simpl; auto.
  intros [Ha Hc] Hk. eapply sound_weaken; [exact Hc|]. apply Hk; assumption.
Qed.

Lemma continues_wf (p p' : parser) : continues p p' -> wf p'.
Proof. intros (Hi & _ & Hu). unfold wf. rewrite Hi. exact Hu. Qed.

Ltac known_error := eexists; econstructor.

Section Invariant.

Variable u : Unicode.

Lemma parseQuoted_sound (p : parser) (c : ascii) :
  char_at p = Some c -> sound (described u) (fun _ : string => True) p (parseQuoted p).
Proof.
  intros Hc. unfold parseQuoted.
  pose proof (continues_advance p c Hc) as H1.
  set (p2 := scan _ _ _).
  assert (continues (advance p) p2) as H2
    by (apply scan_continues; apply (continues_wf _ _ H1)).
  destruct (more p2) eqn:Hm; simpl; [|known_error].
  split; [exact I|]. destruct (more_char_at p2 Hm) as [c' Hc'].
  eapply continues_trans; [exact H1|].
  eapply continues_trans; [exact H2|]. eapply continues_advance; exact Hc'.
Qed.

Lemma parseArg_sound (p : parser) :
  wf p -> sound (described u) (fun _ : string => True) p (parseArg p).
Proof.
  intros Hp. unfold parseArg.
  pose proof (skipWS_continues p Hp) as H1. set (p1 := skipWS p) in *.
  destruct (more p1) eqn:Hm; [|simpl; known_error].
  destruct (more_char_at p1 Hm) as [c Hc]. rewrite Hc.
  eapply sound_weaken; [exact H1|].
  destruct (Ascii.eqb c strings.dquote); [eapply parseQuoted_sound; exact Hc|].
  set (p2 := scan _ _ _).
  assert (continues p1 p2) as H2 by (apply scan_continues; apply (continues_wf _ _ H1)).
  destruct (pos p2 =? pos p1)%nat; simpl; [known_error|]. auto.
Qed.

(** A property of predicates that the primitive filters have and that
    conjunction, disjunction and negation preserve. *)
Variable P : Filter -> Prop.
Hypothesis P_primitive : forall kind arg f, primitive u kind arg = Some f -> P f.
Hypothesis P_or : forall l r, P l -> P r -> P (fun f => l f || r f).
Hypothesis P_and : forall l r, P l -> P r -> P (fun f => l f && r f).
Hypothesis P_not : forall i, P i -> P (fun f => negb (i f)).

Lemma parsePrimitive_sound (p : parser) :
  wf p -> sound (described u) P p (parsePrimitive u p).
Proof.
  intros Hp. unfold parsePrimitive.
  pose proof (skipWS_continues p Hp) as H1. set (p1 := skipWS p) in *.
  destruct (String.length (input p1) <=? pos p1 + 1)%nat eqn:Hlen; [simpl; known_error|].
  apply Nat.leb_gt in Hlen.
  destruct (get_in_range (input p1) (pos p1)) as [c Hc]; [lia|].
  unfold char_at at 1. rewrite Hc.
  destruct (negb (Ascii.eqb c "~")); [simpl; known_error|].
  assert (more (advance p1) = true) as Hm by (apply Nat.ltb_lt; simpl; lia).
  rewrite Hm. simpl negb. cbv iota.
  destruct (more_char_at _ Hm) as [kind Hk]. rewrite Hk.
  assert (continues p (advance (advance p1))) as H2.
  { eapply continues_trans; [exact H1|].
    eapply continues_trans; [eapply continues_advance; exact Hc|].
    eapply continues_advance; exact Hk. }
  assert (continues p (skipWS (advance (advance p1)))) as H3.
  { eapply continues_trans; [exact H2|]. apply skipWS_continues. apply (continues_wf _ _ H2). }
  eapply sound_weaken; [exact H3|].
  eapply sound_bind; [apply parseArg_sound; apply (continues_wf _ _ H3)|].
  intros arg p4 _ H4.
  destruct (primitive u kind arg) as [f|] eqn:Hf; simpl; [|known_error].
  split; [eapply P_primitive; exact Hf|]. apply continues_refl. apply (continues_wf _ _ H4).
Qed.

Lemma parse_sound (fuel : nat) :
  (forall p, wf p -> sound (described u) P p (parseOr u fuel p)) /\
  (forall left p, P left -> wf p -> sound (described u) P p (parseOr_loop u fuel left p)) /\
  (forall p, wf p -> sound (described u) P p (parseAnd u fuel p)) /\
  (forall left p, P left -> wf p -> sound (described u) P p (parseAnd_loop u fuel left p)) /\
  (forall p, wf p -> sound (described u) P p (parseNot u fuel p)) /\
  (forall p, wf p -> sound (described u) P p (parseAtom u fuel p)).
Proof.
  induction fuel as [|n (IHor & IHorl & IHand & IHandl & IHnot & IHatom)].
  { repeat split; intros; exact I. }
  split; [|split; [|split; [|split; [|split]]]].
  - intros p Hp. simpl. eapply sound_bind; [apply IHand; exact Hp|].
    intros left p1 Hl H1. apply IHorl; [exact Hl|apply (continues_wf _ _ H1)].
  - intros left p Hl Hp. simpl.
    pose proof (skipWS_continues p Hp) as H1. set (p1 := skipWS p) in *.
    eapply sound_weaken; [exact H1|].
    destruct (pos p1 + 1 <? String.length (input p1))%nat eqn:Hlt;
      [|simpl; split; [exact Hl|apply continues_refl, (continues_wf _ _ H1)]].
    apply Nat.ltb_lt in Hlt.
    destruct (get_in_range (input p1) (pos p1)) as [c Hc]; [lia|].
    unfold char_at at 1. rewrite Hc.
    destruct (Ascii.eqb c "|");
      [|simpl; split; [exact Hl|apply continues_refl, (continues_wf _ _ H1)]].
    pose proof (continues_advance p1 c Hc) as H2.
    eapply sound_weaken; [exact H2|].
    eapply sound_bind; [apply IHand; apply (continues_wf _ _ H2)|].
    intros right p3 Hr H3. apply IHorl; [apply P_or; assumption|apply (continues_wf _ _ H3)].
  - intros p Hp. simpl. eapply sound_bind; [apply IHnot; exact Hp|].
    intros left p1 Hl H1. apply IHandl; [exact Hl|apply (continues_wf _ _ H1)].
  - intros left p Hl Hp. simpl.
    pose proof (skipWS_continues p Hp) as H1. set (p1 := skipWS p) in *.
    eapply sound_weaken; [exact H1|].
    destruct (more p1) eqn:Hm;
      [|simpl; split; [exact Hl|apply continues_refl, (continues_wf _ _ H1)]].
    destruct (more_char_at p1 Hm) as [c Hc]. rewrite Hc.
    destruct (Ascii.eqb c "&");
      [|simpl; split; [exact Hl|apply continues_refl, (continues_wf _ _ H1)]].
    pose proof (continues_advance p1 c Hc) as H2.
    eapply sound_weaken; [exact H2|].
    eapply sound_bind; [apply IHnot; apply (continues_wf _ _ H2)|].
    intros right p3 Hr H3. apply IHandl; [apply P_and; assumption|apply (continues_wf _ _ H3)].
  - intros p Hp. simpl.
    pose proof (skipWS_continues p Hp) as H1. set (p1 := skipWS p) in *.
    eapply sound_weaken; [exact H1|].
    destruct (more p1) eqn:Hm; [|apply IHatom; apply (continues_wf _ _ H1)].
    destruct (more_char_at p1 Hm) as [c Hc]. rewrite Hc.
    destruct (Ascii.eqb c "!"); [|apply IHatom; apply (continues_wf _ _ H1)].
    pose proof (continues_advance p1 c Hc) as H2.
    eapply sound_weaken; [exact H2|].
    eapply sound_bind; [apply IHatom; apply (continues_wf _ _ H2)|].
    intros inner p3 Hi H3. simpl. split; [apply P_not; exact Hi|].
    apply continues_refl, (continues_wf _ _ H3).
  - intros p Hp. simpl.
    pose proof (skipWS_continues p Hp) as H1. set (p1 := skipWS p) in *.
    eapply sound_weaken; [exact H1|].
    destruct (more p1) eqn:Hm; simpl; [|known_error].
    destruct (more_char_at p1 Hm) as [c Hc]. rewrite Hc.
    destruct (Ascii.eqb c "("); [|apply parsePrimitive_sound; apply (continues_wf _ _ H1)].
    pose proof (continues_advance p1 c Hc) as H2.
    eapply sound_weaken; [exact H2|].
    eapply sound_bind; [apply IHor; apply (continues_wf _ _ H2)|].
    intros inner p3 Hi H3.
    pose proof (skipWS_continues p3 (continues_wf _ _ H3)) as H4. set (p4 := skipWS p3) in *.
    eapply sound_weaken; [exact H4|].
    destruct (more p4) eqn:Hm4; simpl; [|known_error].
    destruct (more_char_at p4 Hm4) as [c' Hc']. rewrite Hc'.
    destruct (negb (Ascii.eqb c' ")")); simpl; [known_error|].
    split; [exact Hi|]. eapply continues_advance; exact Hc'.
Qed.

End Invariant.

(** *** The fuel suffices *)

Lemma bind_not_Fuel {A B : Type} (r : res A) (k : A -> parser -> res B) :
  r <> Fuel -> (forall a p1, r = Val a p1 -> k a p1 <> Fuel) -> bind r k <> Fuel.
Proof. destruct r; simpl; intros Hr Hk; try discriminate; [apply (Hk _ _ eq_refl)|congruence]. Qed.

Lemma parseQuoted_not_Fuel (p : parser) : parseQuoted p <> Fuel.
Proof. unfold parseQuoted. destruct (more _); discriminate. Qed.

Lemma parseArg_not_Fuel (p : parser) : parseArg p <> Fuel.
Proof.
  unfold parseArg. destruct (more _); [|discriminate].
  destruct (char_at _); [|discriminate].
  destruct (Ascii.eqb _ _); [apply parseQuoted_not_Fuel|].
  destruct (_ =? _)%nat; discriminate.
Qed.

Lemma parsePrimitive_not_Fuel (u : Unicode) (p : parser) : parsePrimitive u p <> Fuel.
Proof.
  unfold parsePrimitive. destruct (_ <=? _)%nat; [discriminate|].
  destruct (char_at _); [|discriminate].
  destruct (negb _); [discriminate|].
  destruct (negb _); [discriminate|].
  destruct (char_at _); [|discriminate].
  apply bind_not_Fuel; [apply parseArg_not_Fuel|].
  intros arg p1 _. destruct (primitive u _ arg); discriminate.
Qed.

Lemma continues_remaining (p p' : parser) :
  continues p p' -> (remaining p' <= remaining p)%nat.
Proof. unfold remaining. intros (Hi & Hl & Hu). rewrite Hi. lia. Qed.

Lemma advance_remaining (p : parser) (c : ascii) :
  char_at p = Some c -> (S (remaining (advance p)) = remaining p)%nat.
Proof. intros H. apply char_at_lt in H. unfold remaining, advance. simpl. lia. Qed.

Lemma sound_Val (E : string -> Prop) (p p' : parser) (r : res Filter) (f : Filter) :
  sound E (fun _ => True) p r -> r = Val f p' -> continues p p'.
Proof. intros Hs ->. destruct Hs as [_ Hc]. exact Hc. Qed.

Lemma parse_enough_fuel (u : Unicode) (fuel : nat) :
  (forall p, wf p -> (4 * remaining p + 4 <= fuel)%nat -> parseOr u fuel p <> Fuel) /\
  (forall left p, wf p -> (4 * remaining p + 3 <= fuel)%nat ->
                  parseOr_loop u fuel left p <> Fuel) /\
  (forall p, wf p -> (4 * remaining p + 3 <= fuel)%nat -> parseAnd u fuel p <> Fuel) /\
  (forall left p, wf p -> (4 * remaining p + 2 <= fuel)%nat ->
                  parseAnd_loop u fuel left p <> Fuel) /\
  (forall p, wf p -> (4 * remaining p + 2 <= fuel)%nat -> parseNot u fuel p <> Fuel) /\
  (forall p, wf p -> (4 * remaining p + 1 <= fuel)%nat -> parseAtom u fuel p <> Fuel).
Proof.
  assert (forall n, let T := fun _ : Filter => True in
            (forall p, wf p -> sound (described u) T p (parseOr u n p)) /\
            (forall left p, wf p -> sound (described u) T p (parseOr_loop u n left p)) /\
            (forall p, wf p -> sound (described u) T p (parseAnd u n p)) /\
            (forall left p, wf p -> sound (described u) T p (parseAnd_loop u n left p)) /\
            (forall p, wf p -> sound (described u) T p (parseNot u n p)) /\
            (forall p, wf p -> sound (described u) T p (parseAtom u n p))) as Hsound.
  { intros n T.
    destruct (parse_sound u T (fun _ _ _ _ => I) (fun _ _ _ _ => I) (fun _ _ _ _ => I)
                (fun _ _ => I) n) as (H1 & H2 & H3 & H4 & H5 & H6).
    repeat split; auto; intros; [apply H2|apply H4]; auto; exact I. }
  induction fuel as [|n (IHor & IHorl & IHand & IHandl & IHnot & IHatom)].
  { repeat split; intros; lia. }
  destruct (Hsound n) as (Sor & Sorl & Sand & Sandl & Snot & Satom).
  split; [|split; [|split; [|split; [|split]]]].
  - intros p Hp Hf. simpl. apply bind_not_Fuel; [apply IHand; [exact Hp|lia]|].
    intros left p1 Hr. pose proof (sound_Val _ _ _ _ _ (Sand p Hp) Hr) as H1.
    pose proof (continues_remaining _ _ H1).
    apply IHorl; [apply (continues_wf _ _ H1)|lia].
  - intros left p Hp Hf. simpl.
    pose proof (skipWS_continues p Hp) as H1. set (p1 := skipWS p) in *.
    pose proof (continues_remaining _ _ H1).
    destruct (pos p1 + 1 <? String.length (input p1))%nat; [|discriminate].
    destruct (char_at p1) as [c|] eqn:Hc; [|discriminate].
    destruct (Ascii.eqb c "|"); [|discriminate].
    pose proof (continues_advance p1 c Hc) as H2.
    pose proof (advance_remaining p1 c Hc).
    apply bind_not_Fuel; [apply IHand; [apply (continues_wf _ _ H2)|lia]|].
    intros right p3 Hr.
    pose proof (sound_Val _ _ _ _ _ (Sand _ (continues_wf _ _ H2)) Hr) as H3.
    pose proof (continues_remaining _ _ H3).
    apply IHorl; [apply (continues_wf _ _ H3)|lia].
  - intros p Hp Hf. simpl. apply bind_not_Fuel; [apply IHnot; [exact Hp|lia]|].
    intros left p1 Hr. pose proof (sound_Val _ _ _ _ _ (Snot p Hp) Hr) as H1.
    pose proof (continues_remaining _ _ H1).
    apply IHandl; [apply (continues_wf _ _ H1)|lia].
  - intros left p Hp Hf. simpl.
    pose proof (skipWS_continues p Hp) as H1. set (p1 := skipWS p) in *.
    pose proof (continues_remaining _ _ H1).
    destruct (more p1); [|discriminate].
    destruct (char_at p1) as [c|] eqn:Hc; [|discriminate].
    destruct (Ascii.eqb c "&"); [|discriminate].
    pose proof (continues_advance p1 c Hc) as H2.
    pose proof (advance_remaining p1 c Hc).
    apply bind_not_Fuel; [apply IHnot; [apply (continues_wf _ _ H2)|lia]|].
    intros right p3 Hr.
    pose proof (sound_Val _ _ _ _ _ (Snot _ (continues_wf _ _ H2)) Hr) as H3.
    pose proof (continues_remaining _ _ H3).
    apply IHandl; [apply (continues_wf _ _ H3)|lia].
  - intros p Hp Hf. simpl.
    pose proof (skipWS_continues p Hp) as H1. set (p1 := skipWS p) in *.
    pose proof (continues_remaining _ _ H1).
    destruct (more p1); [|apply IHatom; [apply (continues_wf _ _ H1)|lia]].
    destruct (char_at p1) as [c|] eqn:Hc; [|discriminate].
    destruct (Ascii.eqb c "!"); [|apply IHatom; [apply (continues_wf _ _ H1)|lia]].
    pose proof (continues_advance p1 c Hc) as H2.
    pose proof (advance_remaining p1 c Hc).
    apply bind_not_Fuel; [apply IHatom; [apply (continues_wf _ _ H2)|lia]|].
    intros inner p3 _. discriminate.
  - intros p Hp Hf. simpl.
    pose proof (skipWS_continues p Hp) as H1. set (p1 := skipWS p) in *.
    pose proof (continues_remaining _ _ H1).
    destruct (negb (more p1)); [discriminate|].
    destruct (char_at p1) as [c|] eqn:Hc; [|discriminate].
    destruct (Ascii.eqb c "("); [|apply parsePrimitive_not_Fuel].
    pose proof (continues_advance p1 c Hc) as H2.
    pose proof (advance_remaining p1 c Hc).
    apply bind_not_Fuel; [apply IHor; [apply (continues_wf _ _ H2)|lia]|].
    intros inner p3 _.
    destruct (negb (more (skipWS p3))); [discriminate|].
    destruct (char_at (skipWS p3)) as [c'|]; [|discriminate].
    destruct (Ascii.eqb c' ")"); discriminate.
Qed.

Lemma bind_mono {A B : Type} (r r' : res A) (k k' : A -> parser -> res B) :
  (r <> Fuel -> r' = r) ->
  (forall a p1, k a p1 <> Fuel -> k' a p1 = k a p1) ->
  bind r k <> Fuel -> bind r' k' = bind r k.
Proof.
  intros Hr Hk Hb. destruct r as [a p1|e| |]; simpl in *.
  - rewrite Hr by discriminate. simpl. apply Hk. exact Hb.
  - rewrite Hr by discriminate. reflexivity.
  - rewrite Hr by discriminate. reflexivity.
  - congruence.
Qed.

(** A result obtained with some fuel is the result with any larger fuel. *)
Lemma parse_fuel_mono (u : Unicode) (n : nat) :
  (forall m p, (n <= m)%nat -> parseOr u n p <> Fuel -> parseOr u m p = parseOr u n p) /\
  (forall m left p, (n <= m)%nat -> parseOr_loop u n left p <> Fuel ->
                    parseOr_loop u m left p = parseOr_loop u n left p) /\
  (forall m p, (n <= m)%nat -> parseAnd u n p <> Fuel -> parseAnd u m p = parseAnd u n p) /\
  (forall m left p, (n <= m)%nat -> parseAnd_loop u n left p <> Fuel ->
                    parseAnd_loop u m left p = parseAnd_loop u n left p) /\
  (forall m p, (n <= m)%nat -> parseNot u n p <> Fuel -> parseNot u m p = parseNot u n p) /\
  (forall m p, (n <= m)%nat -> parseAtom u n p <> Fuel -> parseAtom u m p = parseAtom u n p).
Proof.
  induction n as [|n (IHor & IHorl & IHand & IHandl & IHnot & IHatom)].
  { repeat split; intros; simpl in *; congruence. }
  split; [|split; [|split; [|split; [|split]]]].
  - intros [|m] p Hm; [lia|]. simpl. apply bind_mono.
    + apply IHand. lia.
    + intros left p1. apply IHorl. lia.
  - intros [|m] left p Hm; [lia|]. simpl.
    destruct (_ <? _)%nat; [|reflexivity].
    destruct (char_at (skipWS p)) as [c|]; [|reflexivity].
    destruct (Ascii.eqb c "|"); [|reflexivity]. apply bind_mono.
    + apply IHand. lia.
    + intros right p1. apply IHorl. lia.
  - intros [|m] p Hm; [lia|]. simpl. apply bind_mono.
    + apply IHnot. lia.
    + intros left p1. apply IHandl. lia.
  - intros [|m] left p Hm; [lia|]. simpl.
    destruct (more (skipWS p)); [|reflexivity].
    destruct (char_at (skipWS p)) as [c|]; [|reflexivity].
    destruct (Ascii.eqb c "&"); [|reflexivity]. apply bind_mono.
    + apply IHnot. lia.
    + intros right p1. apply IHandl. lia.
  - intros [|m] p Hm; [lia|]. simpl.
    destruct (more (skipWS p)); [|apply IHatom; lia].
    destruct (char_at (skipWS p)) as [c|]; [|reflexivity].
    destruct (Ascii.eqb c "!"); [|apply IHatom; lia]. apply bind_mono.
    + apply IHatom. lia.
    + reflexivity.
  - intros [|m] p Hm; [lia|]. simpl.
    destruct (negb (more (skipWS p))); [reflexivity|].
    destruct (char_at (skipWS p)) as [c|]; [|reflexivity].
    destruct (Ascii.eqb c "("); [|reflexivity]. apply bind_mono.
    + apply IHor. lia.
    + reflexivity.
Qed.

(** *** [Parse] *)

Lemma Parse_with_sound (u : Unicode) (P : Filter -> Prop) (fuel : nat) (expr : string) :
  (forall kind arg f, primitive u kind arg = Some f -> P f) ->
  (forall l r, P l -> P r -> P (fun f => l f || r f)) ->
  (forall l r, P l -> P r -> P (fun f => l f && r f)) ->
  (forall i, P i -> P (fun f => negb (i f))) ->
  P MatchAll ->
  match Parse_with u fuel expr with
  | Val f _ => P f
  | Fail msg => described u msg
  | Abort => False
  | Fuel => True
  end.
Proof.
  intros Hprim Hor Hand Hnot Hall. unfold Parse_with.
  destruct (String.eqb (TrimSpace u expr) ""); [exact Hall|].
  destruct (parse_sound u P Hprim Hor Hand Hnot fuel) as (Sor & _).
  specialize (Sor {| input := TrimSpace u expr; pos := 0 |}).
  destruct (parseOr u fuel _) as [f p| | |]; simpl in *.
  - destruct (Sor (Nat.le_0_l _)) as [Hf _]. destruct (more p); [known_error|exact Hf].
  - apply Sor. apply Nat.le_0_l.
  - apply Sor. apply Nat.le_0_l.
  - exact I.
Qed.

Lemma Parse_not_Fuel (u : Unicode) (expr : string) : Parse u expr <> Fuel.
Proof.
  unfold Parse, Parse_with.
  destruct (String.eqb (TrimSpace u expr) ""); [discriminate|].
  apply bind_not_Fuel.
  - destruct (parse_enough_fuel u (fuel_for (TrimSpace u expr))) as (Hor & _).
    apply Hor; [apply Nat.le_0_l|]. unfold remaining, fuel_for. simpl. lia.
  - intros f p _. destruct (more p); discriminate.
Qed.

(** More fuel than [Parse] takes changes nothing. *)
Lemma Parse_with_more_fuel (u : Unicode) (expr : string) (fuel : nat) :
  (fuel_for (TrimSpace u expr) <= fuel)%nat -> Parse_with u fuel expr = Parse u expr.
Proof.
  intros Hf. pose proof (Parse_not_Fuel u expr) as Hnf. unfold Parse, Parse_with in *.
  destruct (String.eqb (TrimSpace u expr) ""); [reflexivity|].
  destruct (parse_fuel_mono u (fuel_for (TrimSpace u expr))) as (Hor & _).
  rewrite Hor; [reflexivity|exact Hf|].
  intros Heq. rewrite Heq in Hnf. apply Hnf. reflexivity.
Qed.


(** The filter scenario of the specification. *)
Lemma Parse_method_and_status :
  Samples.verdict (Parse ascii_only "~m POST & ~s 5") (Samples.flow_with "POST" (Some 503))
  = Some true /\
  Samples.verdict (Parse ascii_only "~m POST & ~s 5") (Samples.flow_with "GET" (Some 503))
  = Some false /\
  Samples.verdict (Parse ascii_only "~m POST & ~s 5") (Samples.flow_with "POST" None)
  = Some false /\
  Samples.verdict (Parse ascii_only "(~p /api | ~u edge) & !~m OPTIONS")
    (Samples.flow_with "GET" None) = Some false /\
  Samples.verdict (Parse ascii_only "") (Samples.flow_with "GET" None) = Some true.
Proof. vm_compute. repeat split; reflexivity. Qed.

(** The five kinds of malformed input, on the ASCII stand-ins. *)
Lemma Parse_unknown_kind :
  Parse ascii_only "~q foo" = Fail ("unknown filter type " ++ strings.quoted "q")%string.
Proof. vm_compute. reflexivity. Qed.


Lemma Parse_empty_argument :
  Parse ascii_only "~m & ~p x" = Fail "empty argument at position 3".
Proof. vm_compute. reflexivity. Qed.

Lemma Parse_missing_argument :
  Parse ascii_only "~m" = Fail "expected argument".
Proof. vm_compute. reflexivity. Qed.

Lemma Parse_missing_close_paren :
  Parse ascii_only "(~m a" = Fail "expected closing ')'".
Proof. vm_compute. reflexivity. Qed.

Lemma Parse_trailing_input :
  Parse ascii_only "~m a ~p b"
  = Fail ("unexpected token at position 5: " ++ strings.quoted "~p b")%string.
Proof. vm_compute. reflexivity. Qed.


(** *** The order of a header map does not matter *)

Lemma any_header_Permutation (u : Unicode) (key val : string) (h h' : Header) :
  Permutation h h' -> any_header u key val h = any_header u key val h'.
Proof.
  induction 1 as [|[k vv] h h' _ IH|[k1 vv1] [k2 vv2] h|h1 h2 h3 _ IH1 _ IH2]; simpl.
  - reflexivity.
  - rewrite IH. reflexivity.
  - destruct (strings.Contains (ToLower u k1) key), (strings.Contains (ToLower u k2) key),
      (String.eqb val ""), (any_value u val vv1), (any_value u val vv2); reflexivity.
  - congruence.
Qed.

Lemma primitive_order_blind (u : Unicode) (kind : ascii) (arg : string) (f : Filter) :
  primitive u kind arg = Some f -> order_blind f.
Proof.
  unfold primitive.
  repeat (destruct (Ascii.eqb kind _); [intros [= <-]|]); [..|discriminate];
    intros a b (Hid & Hup & Hreq & Hresp & _); unfold same_request, same_response in *.
  - unfold methodFilter.
    destruct (Flow.Request a), (Flow.Request b); try contradiction; [|reflexivity].
    destruct Hreq as (-> & _). reflexivity.
  - unfold statusFilter.
    destruct (Flow.Response a), (Flow.Response b); try contradiction; [|reflexivity].
    destruct Hresp as (-> & _). reflexivity.
  - unfold pathFilter.
    destruct (Flow.Request a), (Flow.Request b); try contradiction; [|reflexivity].
    destruct Hreq as (_ & _ & -> & _). reflexivity.
  - unfold headerFilter. destruct (strings.SplitN_colon arg) as [part0 part1].
    assert (match Flow.Request a with
            | Some r => any_header u (ToLower u part0)
                          match part1 with Some v => ToLower u v | None => EmptyString end
                          (CapturedRequest.Headers r)
            | None => false
            end
            = match Flow.Request b with
              | Some r => any_header u (ToLower u part0)
                            match part1 with Some v => ToLower u v | None => EmptyString end
                            (CapturedRequest.Headers r)
              | None => false
              end) as ->.
    { destruct (Flow.Request a), (Flow.Request b); try contradiction; [|reflexivity].
      destruct Hreq as (_ & _ & _ & _ & Hperm & _). apply any_header_Permutation, Hperm. }
    destruct (Flow.Response a), (Flow.Response b); try contradiction; [|reflexivity].
    destruct Hresp as (_ & Hperm & _). rewrite (any_header_Permutation u _ _ _ _ Hperm).
    reflexivity.
  - unfold bodyFilter.
    assert (match Flow.Request a with
            | Some r => strings.Contains
                          (ToLower u (string_of_list_ascii (CapturedRequest.Body r)))
                          (ToLower u arg)
            | None => false
            end
            = match Flow.Request b with
              | Some r => strings.Contains
                            (ToLower u (string_of_list_ascii (CapturedRequest.Body r)))
                            (ToLower u arg)
              | None => false
              end) as ->.
    { destruct (Flow.Request a), (Flow.Request b); try contradiction; [|reflexivity].
      destruct Hreq as (_ & _ & _ & _ & _ & -> & _). reflexivity. }
    destruct (Flow.Response a), (Flow.Response b); try contradiction; [|reflexivity].
    destruct Hresp as (_ & _ & -> & _). reflexivity.
  - unfold upstreamFilter. rewrite Hup. reflexivity.
Qed.

(** C8: the predicate [Parse] compiles gives one boolean per flow,
    whatever the order in which the header maps of the flow are enumerated,
    and parsing the same expression again yields a predicate that agrees
    with it on every flow. *)
Theorem Parse_deterministic (u : Unicode) (expr : string) (flt : Filter) (p : parser) :
  Parse u expr = Val flt p ->
  (forall flow, flt flow = flt flow) /\
  (forall flt' p', Parse u expr = Val flt' p' -> forall flow, flt flow = flt' flow) /\
  (forall a b, same_flow a b -> flt a = flt b).
Proof.
  intros HP. split; [reflexivity|]. split.
  - intros flt' p' HP'. rewrite HP in HP'. injection HP' as <- _. reflexivity.
  - pose proof (Parse_with_sound u order_blind (fuel_for (TrimSpace u expr)) expr
                  (primitive_order_blind u)) as Hs.
    fold (Parse u expr) in Hs. rewrite HP in Hs. apply Hs.
    + intros l r Hl Hr a b Hab. rewrite (Hl a b Hab), (Hr a b Hab). reflexivity.
    + intros l r Hl Hr a b Hab. rewrite (Hl a b Hab), (Hr a b Hab). reflexivity.
    + intros i Hi a b Hab. rewrite (Hi a b Hab). reflexivity.
    + intros a b _. reflexivity.
Qed.

Lemma Parse_deterministic_witness :
  exists flt p,
    Parse ascii_only "~m POST & ~s 5" = Val flt p /\
    (forall flow, flt flow = flt flow) /\
    (forall flt' p', Parse ascii_only "~m POST & ~s 5" = Val flt' p' ->
                     forall flow, flt flow = flt' flow) /\
    (forall a b, same_flow a b -> flt a = flt b).
Proof.
  assert (exists flt p, Parse ascii_only "~m POST & ~s 5" = Val flt p) as (flt & p & HP).
  { vm_compute. do 2 eexists. reflexivity. }
  exists flt, p. split; [exact HP|].
  apply (Parse_deterministic ascii_only "~m POST & ~s 5" flt p HP).
Defined.

End FilterFacts.

(** ** The flow store: subscribers, and calls without fresh identifiers *)

Module SubscriberFacts.
Import FlowStore.

Section Store.

Context {FlowPtr : Type}.
Variable flowID : FlowPtr -> string.

Implicit Types (s : FlowStore FlowPtr) (f : FlowPtr) (q : list FlowPtr).
Implicit Types (ch : chan (FlowPtr := FlowPtr)) (evt : FlowEvent FlowPtr).

Local Abbreviation Add := (FlowStore.Add flowID).
Local Abbreviation apply_op := (FlowStore.apply_op flowID).
Local Abbreviation run := (FlowStore.run flowID).

(** *** Delivery *)

Lemma take_take_app {A : Type} (n : nat) (a b : list A) :
  take n (take n a ++ b) = take n (a ++ b).
Proof.
  destruct (Nat.le_gt_cases n (length a)) as [Hge|Hlt].
  - rewrite (take_app_le (take n a)) by (rewrite length_take; lia).
    rewrite take_take, Nat.min_id. rewrite take_app_le by lia. reflexivity.
  - rewrite (take_ge a) by lia. reflexivity.
Qed.

Lemma send_take evt ch :
  (length ch <= chanCap)%nat -> send evt ch = take chanCap (ch ++ [evt]).
Proof.
  intros Hle. unfold send.
  destruct (Nat.ltb_spec (length ch) chanCap) as [Hlt|Hge].
  - rewrite take_ge by (rewrite length_app; simpl; lia). reflexivity.
  - rewrite take_app_le by lia. rewrite take_ge by lia. reflexivity.
Qed.

Lemma broadcast_take (subs : list chan) evt :
  Forall (fun ch => (length ch <= chanCap)%nat) subs ->
  broadcast subs evt = map (fun ch => take chanCap (ch ++ [evt])) subs.
Proof.
  unfold broadcast. induction 1 as [|ch subs Hch _ IH]; simpl; [reflexivity|].
  rewrite send_take by exact Hch. rewrite IH. reflexivity.
Qed.

Lemma subscribers_apply_op s (o : Op FlowPtr) :
  Forall (fun ch => (length ch <= chanCap)%nat) (subscribers s) ->
  subscribers (apply_op s o) = map (fun ch => take chanCap (ch ++ event_of o)) (subscribers s).
Proof.
  intros Hall. destruct o as [f|f t|]; simpl.
  - apply broadcast_take. exact Hall.
  - apply broadcast_take. exact Hall.
  - induction Hall as [|ch subs Hch _ IH]; simpl; [reflexivity|].
    rewrite app_nil_r, take_ge by lia. rewrite <- IH. reflexivity.
Qed.

Lemma subscribers_run s (ops : list (Op FlowPtr)) :
  Forall (fun ch => (length ch <= chanCap)%nat) (subscribers s) ->
  subscribers (run s ops) = map (fun ch => take chanCap (ch ++ events ops)) (subscribers s).
Proof.
  revert s. induction ops as [|o ops IH]; intros s Hall.
  - simpl. induction Hall as [|ch subs Hch _ IH]; simpl; [reflexivity|].
    unfold events in *. simpl in *. rewrite app_nil_r, take_ge by lia. rewrite <- IH. reflexivity.
  - change (run s (o :: ops)) with (run (apply_op s o) ops).
    rewrite IH.
    + rewrite subscribers_apply_op by exact Hall. rewrite map_map.
      apply map_ext. intros ch. unfold events. simpl.
      rewrite take_take_app, <- app_assoc. reflexivity.
    + rewrite subscribers_apply_op by exact Hall.
      apply Forall_forall. intros ch Hin. apply list_elem_of_In, in_map_iff in Hin.
      destruct Hin as (ch0 & <- & _). rewrite length_take. lia.
Qed.

(** X1: a subscriber that is not read from holds, after any sequence of
    [Add], [Update] and [Clear], the events published since, in the order
    of publication and cut off after 128: the channel made by [Subscribe]
    receives the first 128 events, an earlier subscriber keeps what its
    buffer held and receives events while there is room, and a full buffer
    costs the other subscribers nothing. *)
Theorem Subscribe_receives_in_order s (ops : list (Op FlowPtr)) :
  Forall (fun ch => (length ch <= chanCap)%nat) (subscribers s) ->
  subscribers (run (Subscribe s) ops)
  = map (fun ch => take chanCap (ch ++ events ops)) (subscribers s)
    ++ [take chanCap (events ops)].
Proof.
  intros Hall. rewrite subscribers_run.
  - simpl. rewrite map_app. reflexivity.
  - simpl. apply Forall_app. split; [exact Hall|]. constructor; [simpl; lia|constructor].
Qed.

(** *** The ring without fresh identifiers *)

Lemma run_rep s q (ops : list (Op FlowPtr)) :
  rep s q -> exists q', rep (run s ops) q'.
Proof.
  revert s q. induction ops as [|o ops IH]; intros s q Hrep; [eauto|].
  change (run s (o :: ops)) with (run (apply_op s o) ops).
  destruct o as [f|f t|]; simpl.
  - apply (IH _ (enqueue s q f)). apply FlowStoreFacts.rep_Add. exact Hrep.
  - apply (IH _ q). apply FlowStoreFacts.rep_Update. exact Hrep.
  - apply (IH _ []). eapply FlowStoreFacts.rep_Clear. exact Hrep.
Qed.

Lemma capacity_run s (ops : list (Op FlowPtr)) : capacity (run s ops) = capacity s.
Proof.
  revert s. induction ops as [|o ops IH]; intros s; [reflexivity|].
  change (run s (o :: ops)) with (run (apply_op s o) ops).
  rewrite IH. destruct o; reflexivity.
Qed.

Lemma capacity_NewFlowStore (c : Z) :
  capacity (@NewFlowStore FlowPtr c) = if c <=? 0 then 1000 else c.
Proof. reflexivity. Qed.

(** X2: whatever is added, updated or cleared, with identifiers fresh or
    not, the capacity stays the one fixed at construction (1000 for an
    argument that is not positive), the ring keeps that many slots, [Count]
    stays between 0 and the capacity and is the number of flows [All]
    returns. *)
Theorem Count_within_capacity (c : Z) (ops : list (Op FlowPtr)) :
  capacity (run (NewFlowStore c) ops) = (if c <=? 0 then 1000 else c) /\
  length (flows (run (NewFlowStore c) ops)) = Z.to_nat (if c <=? 0 then 1000 else c) /\
  0 <= Count (run (NewFlowStore c) ops) <= capacity (run (NewFlowStore c) ops) /\
  Z.of_nat (length (All (run (NewFlowStore c) ops))) = Count (run (NewFlowStore c) ops).
Proof.
  destruct (run_rep (NewFlowStore c) [] ops (FlowStoreFacts.rep_NewFlowStore c)) as [q Hrep].
  pose proof (FlowStoreFacts.rep_length _ _ Hrep) as Hlen.
  rewrite (FlowStoreFacts.rep_All _ _ Hrep), (FlowStoreFacts.rep_count _ _ Hrep).
  destruct Hrep as (_ & Hflows & _).
  rewrite Hflows, capacity_run in *. rewrite capacity_NewFlowStore in *.
  repeat split; lia.
Qed.

(** X3: on a store reached by any calls, [Add] puts the flow last in [All],
    behind the flows held before, of which the oldest is dropped exactly
    when the store was full; [Get] finds the flow under its identifier, and
    [Count] grows by one up to the capacity. *)
Theorem Add_is_newest (c : Z) (ops : list (Op FlowPtr)) f :
  All (Add (run (NewFlowStore c) ops) f)
  = (if Count (run (NewFlowStore c) ops) =? capacity (run (NewFlowStore c) ops)
     then tail (All (run (NewFlowStore c) ops))
     else All (run (NewFlowStore c) ops)) ++ [f] /\
  Get (Add (run (NewFlowStore c) ops) f) (flowID f) = Some f /\
  Count (Add (run (NewFlowStore c) ops) f)
  = Z.min (Count (run (NewFlowStore c) ops) + 1) (capacity (run (NewFlowStore c) ops)).
Proof.
  destruct (run_rep (NewFlowStore c) [] ops (FlowStoreFacts.rep_NewFlowStore c)) as [q Hrep].
  pose proof (FlowStoreFacts.rep_Add flowID _ _ f Hrep) as Hadd.
  pose proof (FlowStoreFacts.rep_length _ _ Hrep) as Hlen.
  pose proof (FlowStoreFacts.rep_count _ _ Hrep) as Hcount.
  rewrite (FlowStoreFacts.rep_All _ _ Hadd), (FlowStoreFacts.rep_All _ _ Hrep).
  split; [|split].
  - unfold enqueue, Count. destruct (count _ =? capacity _); reflexivity.
  - unfold Get. simpl. apply lookup_insert_eq.
  - unfold Count in *. simpl.
    destruct (Z.eqb_spec (count (run (NewFlowStore c) ops)) (capacity (run (NewFlowStore c) ops))); lia.
Qed.

(** X4: [Clear] takes a store reached by any calls back to the contents of
    a store just built with the same capacity argument, so that the same
    calls have the same effect on both; the subscribers stay subscribed and
    no event is published. *)
Theorem Clear_restarts (c : Z) (ops more : list (Op FlowPtr)) :
  same_contents (Clear (run (NewFlowStore c) ops)) (NewFlowStore c) /\
  subscribers (Clear (run (NewFlowStore c) ops)) = subscribers (run (NewFlowStore c) ops) /\
  All (run (Clear (run (NewFlowStore c) ops)) more) = All (run (NewFlowStore c) more) /\
  (forall id, Get (run (Clear (run (NewFlowStore c) ops)) more) id
              = Get (run (NewFlowStore c) more) id).
Proof.
  assert (same_contents (Clear (run (NewFlowStore c) ops)) (NewFlowStore c)) as Hsame.
  { unfold same_contents, Clear. simpl. rewrite capacity_run, capacity_NewFlowStore.
    repeat split; reflexivity. }
  split; [exact Hsame|]. split; [reflexivity|].
  assert (forall s s', same_contents s s' -> same_contents (run s more) (run s' more)) as Hrun.
  { induction more as [|o more IH]; intros s s' Hs; [exact Hs|].
    change (same_contents (run (apply_op s o) more) (run (apply_op s' o) more)).
    apply IH. destruct Hs as (Hf & Hi & Hc & Hh & Hn).
    destruct o as [f|f t|];
      unfold same_contents, FlowStore.apply_op, FlowStore.Add, Update, Clear, slot;
      rewrite ?Hf, ?Hi, ?Hc, ?Hh, ?Hn; simpl; repeat split; reflexivity. }
  destruct (Hrun _ _ Hsame) as (Hf & Hi & Hc & Hh & Hn).
  split.
  - unfold All, collect, slot. rewrite Hf, Hc, Hh, Hn. reflexivity.
  - intros id. unfold Get. rewrite Hi. reflexivity.
Qed.

(** X5: the index is keyed by identifier, so a repeated identifier lets a
    stored flow go missing from it.  When the store is full and its oldest
    flow [a] shares its identifier with a later flow [b], the next [Add]
    evicts [a] and deletes the identifier from the index: [b] is still
    returned by [All], and [Get] no longer finds it. *)
Theorem repeated_id_hides_flow (N : Z) (a b g : FlowPtr) (fs : list FlowPtr) :
  Z.of_nat (length (a :: fs)) = N ->
  b ∈ fs -> flowID b = flowID a -> flowID g <> flowID a ->
  b ∈ All (FlowStore.add_all flowID (NewFlowStore N) (a :: fs ++ [g])) /\
  Get (FlowStore.add_all flowID (NewFlowStore N) (a :: fs ++ [g])) (flowID b) = None.
Proof.
  intros Hlen Hb Hid Hg.
  assert (0 < N) as HN by (simpl in Hlen; lia).
  assert (capacity (@NewFlowStore FlowPtr N) = N) as Hcap.
  { rewrite capacity_NewFlowStore. destruct (Z.leb_spec N 0); [lia|reflexivity]. }
  pose proof (FlowStoreFacts.add_all_rep flowID (NewFlowStore N) [] (a :: fs)
                (FlowStoreFacts.rep_NewFlowStore N)) as Hrep.
  rewrite Hcap in Hrep. rewrite app_nil_l in Hrep.
  rewrite FlowStoreFacts.keep_last_short in Hrep by lia.
  set (s0 := FlowStore.add_all flowID (NewFlowStore N) (a :: fs)) in *.
  assert (FlowStore.add_all flowID (NewFlowStore N) (a :: fs ++ [g]) = Add s0 g) as ->.
  { unfold s0, FlowStore.add_all. rewrite app_comm_cons, fold_left_app. reflexivity. }
  assert (count s0 = capacity s0) as Hfull.
  { pose proof (FlowStoreFacts.rep_count _ _ Hrep) as Hc. unfold Count in Hc.
    unfold s0 at 2. rewrite FlowStoreFacts.capacity_add_all, Hcap. lia. }
  pose proof (FlowStoreFacts.rep_slot_head _ _ Hrep Hfull) as Hslot. simpl in Hslot.
  split.
  - rewrite (FlowStoreFacts.rep_All _ _ (FlowStoreFacts.rep_Add flowID _ _ g Hrep)).
    unfold enqueue. rewrite Hfull, Z.eqb_refl. simpl.
    apply elem_of_app. left. exact Hb.
  - unfold Get. simpl. rewrite Hfull, Z.eqb_refl, Hslot, Hid.
    rewrite lookup_insert_ne by exact Hg. apply lookup_delete_eq.
Qed.

End Store.

Lemma Subscribe_receives_in_order_witness :
  subscribers (run (fun x => x) (Subscribe (Subscribe (NewFlowStore 2))) sample_ops)
  = map (fun ch => take chanCap (ch ++ events sample_ops))
        (subscribers (Subscribe (@NewFlowStore string 2)))
    ++ [take chanCap (events sample_ops)].
Proof.
  apply (Subscribe_receives_in_order (fun x : string => x)).
  constructor; [simpl; lia|constructor].
Defined.

Lemma repeated_id_hides_flow_witness :
  1%nat ∈ All (FlowStore.add_all Samples.id_x_twice
                 (NewFlowStore 2) (0%nat :: [1%nat] ++ [2%nat])) /\
  Get (FlowStore.add_all Samples.id_x_twice
         (NewFlowStore 2) (0%nat :: [1%nat] ++ [2%nat])) "x" = None.
Proof.
  apply (repeated_id_hides_flow Samples.id_x_twice
           2 0%nat 1%nat 2%nat [1%nat]).
  - reflexivity.
  - apply list_elem_of_singleton. reflexivity.
  - reflexivity.
  - simpl. discriminate.
Defined.

End SubscriberFacts.

(** ** Construction: options, router and engine *)

Module ConstructionFacts.
Import Engine.

(** X6: [setDefaults] leaves no field at its zero value, keeps the
    upstreams, changes nothing when applied again, and leaves options as
    they are exactly when none of the four fields is zero or empty. *)
Theorem setDefaults_resolves (o : Options) :
  setDefaults (setDefaults o) = setDefaults o /\
  ListenAddr (setDefaults o) <> "" /\
  WebPort (setDefaults o) <> 0 /\
  MaxFlows (setDefaults o) <> 0 /\
  MaxBodySize (setDefaults o) <> 0 /\
  Upstreams (setDefaults o) = Upstreams o /\
  (setDefaults o = o <->
   ListenAddr o <> "" /\ WebPort o <> 0 /\ MaxFlows o <> 0 /\ MaxBodySize o <> 0).
Proof.
  assert (forall d a : Z, d <> 0 -> (if a =? 0 then d else a) <> 0) as Hz.
  { intros d a Hd. destruct (Z.eqb_spec a 0); assumption. }
  assert (forall d a : Z, d <> 0 ->
            (if (if a =? 0 then d else a) =? 0 then d else (if a =? 0 then d else a))
            = (if a =? 0 then d else a)) as Hzz.
  { intros d a Hd. destruct (Z.eqb_spec (if a =? 0 then d else a) 0) as [H0|_]; [|reflexivity].
    destruct (Hz d a Hd H0). }
  assert (forall a : string, (if String.eqb a "" then DefaultListenAddr else a) <> "") as Hs.
  { intros a. destruct (String.eqb_spec a ""); [discriminate|assumption]. }
  assert (DefaultWebPort <> 0 /\ DefaultMaxFlows <> 0 /\ DefaultMaxBody <> 0) as (Hw & Hf & Hb)
    by (repeat split; discriminate).
  destruct o as [la wp ups mf mb]. unfold setDefaults. simpl.
  split.
  { rewrite !Hzz by assumption.
    destruct (String.eqb_spec (if String.eqb la "" then DefaultListenAddr else la) "") as [H0|_];
      [destruct (Hs la H0)|reflexivity]. }
  split; [apply Hs|]. split; [apply Hz; exact Hw|]. split; [apply Hz; exact Hf|].
  split; [apply Hz; exact Hb|]. split; [reflexivity|]. split.
  - intros [= H1 H2 H3 H4]. repeat split.
    + rewrite <- H1. apply Hs.
    + rewrite <- H2. apply Hz. exact Hw.
    + rewrite <- H3. apply Hz. exact Hf.
    + rewrite <- H4. apply Hz. exact Hb.
  - intros (H1 & H2 & H3 & H4).
    destruct (String.eqb_spec la ""); [contradiction|].
    destruct (Z.eqb_spec wp 0); [contradiction|].
    destruct (Z.eqb_spec mf 0); [contradiction|].
    destruct (Z.eqb_spec mb 0); [contradiction|]. reflexivity.
Qed.

(** *** [NewRouter] *)

Lemma prepare_all_None (parse : string -> option Router.URL) (ups : list Router.Upstream) :
  Router.prepare_all parse ups = None <->
  exists u, In u ups /\ parse (Router.Target u) = None.
Proof.
  induction ups as [|a rest IH]; simpl.
  - split; [discriminate|]. intros (u & [] & _).
  - unfold Router.prepare at 1.
    destruct (parse (Router.Target a)) as [p|] eqn:Ha.
    + destruct (Router.prepare_all parse rest) as [rest'|].
      * split; [discriminate|]. intros (u & [<-|Hin] & Hu); [congruence|].
        destruct IH as [_ IH]. discriminate IH. eauto.
      * split; [|reflexivity]. intros _. destruct IH as [IH _].
        destruct (IH eq_refl) as (u & Hin & Hu). eauto.
    + split; [|reflexivity]. intros _. exists a. auto.
Qed.

Lemma prepare_all_map (parse : string -> option Router.URL) (ups l : list Router.Upstream) :
  Router.prepare_all parse ups = Some l ->
  map Router.Name l = map Router.Name ups /\
  map Router.Target l = map Router.Target ups /\
  map Router.Prefix l
  = map (fun u => if String.eqb (Router.Prefix u) "" then "/" else Router.Prefix u) ups /\
  map Router.parsed l = map (fun u => parse (Router.Target u)) ups /\
  Forall (fun u => Router.parsed u <> None) l.
Proof.
  revert l. induction ups as [|a rest IH]; simpl; intros l.
  - intros [= <-]. repeat split; constructor.
  - unfold Router.prepare at 1.
    destruct (parse (Router.Target a)) as [p|] eqn:Ha; [|discriminate].
    destruct (Router.prepare_all parse rest) as [rest'|]; [|discriminate].
    intros [= <-]. destruct (IH rest' eq_refl) as (H1 & H2 & H3 & H4 & H5).
    simpl. rewrite H1, H2, H3, H4. repeat split. constructor; [discriminate|exact H5].
Qed.

Lemma StronglySorted_weaken {A : Type} (R R' : A -> A -> Prop) (l : list A) :
  (forall a b, R a b -> R' a b) -> StronglySorted R l -> StronglySorted R' l.
Proof.
  intros H. induction 1 as [|a l _ IH Hall]; constructor; [exact IH|].
  eapply Forall_impl; [exact Hall|]. intros b. apply H.
Qed.

(** X7: the router [NewRouter] builds holds one upstream for each one it
    was given, under the same name and target, with an empty prefix replaced
    by [/] and the target parsed, ordered so that no upstream precedes one
    with a longer prefix; in particular no prefix is empty and no parsed
    target is nil.  [NewRouter] fails exactly when some target cannot be
    parsed. *)
Theorem NewRouter_prepares (parse : string -> option Router.URL)
    (sort_Slice : (Router.Upstream -> Router.Upstream -> bool) ->
                  list Router.Upstream -> list Router.Upstream)
    (ups : list Router.Upstream) :
  Router.sort_Slice_spec sort_Slice ->
  match Router.NewRouter parse sort_Slice ups with
  | None => exists u, In u ups /\ parse (Router.Target u) = None
  | Some r =>
      (forall u, In u ups -> parse (Router.Target u) <> None) /\
      Permutation
        (map (fun u => (Router.Name u,
                        if String.eqb (Router.Prefix u) "" then "/" else Router.Prefix u,
                        Router.Target u, parse (Router.Target u))) ups)
        (map (fun u => (Router.Name u, Router.Prefix u, Router.Target u, Router.parsed u))
             (Router.upstreams r)) /\
      Forall (fun u => Router.Prefix u <> "" /\ Router.parsed u <> None) (Router.upstreams r) /\
      StronglySorted (fun a b => strings.len (Router.Prefix b) <= strings.len (Router.Prefix a))
        (Router.upstreams r)
  end.
Proof.
  intros Hsort. unfold Router.NewRouter.
  destruct (Router.prepare_all parse ups) as [l|] eqn:Hl.
  - destruct (Hsort l) as [Hperm Hsorted]. simpl.
    destruct (prepare_all_map parse ups l Hl) as (H1 & H2 & H3 & H4 & H5).
    split; [|split; [|split]].
    + intros u Hin Hnone.
      assert (Router.prepare_all parse ups = None) as Hfail
        by (apply prepare_all_None; eauto).
      congruence.
    + rewrite <- Hperm. clear Hperm Hsorted H5.
      revert l Hl H1 H2 H3 H4. induction ups as [|a rest IH]; intros l Hl H1 H2 H3 H4.
      * destruct l; [reflexivity|discriminate].
      * destruct l as [|b l]; [discriminate|]. simpl in *.
        injection H1 as H1 H1'. injection H2 as H2 H2'.
        injection H3 as H3 H3'. injection H4 as H4 H4'.
        rewrite H1, H2, H3, H4.
        unfold Router.prepare in Hl.
        destruct (parse (Router.Target a)); [|discriminate].
        destruct (Router.prepare_all parse rest) as [rest'|] eqn:Hrest; [|discriminate].
        injection Hl as _ ->. constructor. apply IH; auto.
    + rewrite <- Hperm. apply Forall_forall. intros u Hin.
      rewrite Forall_forall in H5. split; [|apply H5; exact Hin].
      apply list_elem_of_In in Hin.
      destruct (RouterFacts.prepare_all_In parse ups l Hl) as [Hfrom _].
      destruct (Hfrom u Hin) as (u0 & _ & Hprep). unfold Router.prepare in Hprep.
      destruct (parse (Router.Target u0)); [|discriminate]. injection Hprep as <-. simpl.
      destruct (String.eqb_spec (Router.Prefix u0) ""); [discriminate|assumption].
    + eapply StronglySorted_weaken; [|exact Hsorted].
      intros a b Hab. apply RouterFacts.less_false in Hab. exact Hab.
  - apply prepare_all_None. exact Hl.
Qed.

Lemma NewRouter_prepares_witness :
  match Router.NewRouter Router.parse_any Router.insertion_sort Router.two_upstreams with
  | None => exists u, In u Router.two_upstreams /\ Router.parse_any (Router.Target u) = None
  | Some r =>
      (forall u, In u Router.two_upstreams -> Router.parse_any (Router.Target u) <> None) /\
      Permutation
        (map (fun u => (Router.Name u,
                        if String.eqb (Router.Prefix u) "" then "/" else Router.Prefix u,
                        Router.Target u, Router.parse_any (Router.Target u)))
             Router.two_upstreams)
        (map (fun u => (Router.Name u, Router.Prefix u, Router.Target u, Router.parsed u))
             (Router.upstreams r)) /\
      Forall (fun u => Router.Prefix u <> "" /\ Router.parsed u <> None) (Router.upstreams r) /\
      StronglySorted (fun a b => strings.len (Router.Prefix b) <= strings.len (Router.Prefix a))
        (Router.upstreams r)
  end.
Proof.
  apply (NewRouter_prepares Router.parse_any Router.insertion_sort Router.two_upstreams).
  exact RouterFacts.insertion_sort_spec.
Defined.

(** *** [New] *)


Lemma proxies_fold_other (l : list Router.Upstream) (m : gmap string Router.Upstream)
    (name : string) :
  ~ In name (map Router.Name l) ->
  fold_left (fun m u => <[Router.Name u := u]> m) l m !! name = m !! name.
Proof.
  revert m. induction l as [|a l IH]; intros m Hn; simpl; [reflexivity|].
  rewrite IH by (intros H; apply Hn; right; exact H).
  apply lookup_insert_ne. intros Heq. apply Hn. left. exact Heq.
Qed.

Lemma proxies_fold_own (l : list Router.Upstream) (m : gmap string Router.Upstream)
    (u : Router.Upstream) :
  List.NoDup (map Router.Name l) -> In u l ->
  fold_left (fun m u => <[Router.Name u := u]> m) l m !! Router.Name u = Some u.
Proof.
  revert m. induction l as [|a l IH]; intros m Hnd Hin; [destruct Hin|].
  simpl in *. inversion Hnd as [|? ? Hna Hnd']; subst.
  destruct Hin as [->|Hin].
  - rewrite proxies_fold_other by exact Hna. apply lookup_insert_eq.
  - apply IH; assumption.
Qed.

(** X9: in an engine built by [New] from upstreams with pairwise distinct
    names, the proxy kept under the name of the upstream [Match] selects is
    the proxy of that very upstream, so a request is forwarded to the
    target of the upstream it was routed to. *)
Theorem New_routes_to_own_proxy (lib : StdLib) (o : Options) (e : Engine) (w : World)
    (path : string) (u : Router.Upstream) :
  Router.sort_Slice_spec (sort_Slice lib) ->
  List.NoDup (map Router.Name (Upstreams o)) ->
  New lib o = Some (e, w) ->
  Router.Match (router e) path = Some u ->
  proxies e !! Router.Name u = Some u.
Proof.
  intros Hsort Hnd. unfold New, Router.NewRouter. simpl.
  destruct (Router.prepare_all (url_Parse lib) (Upstreams o)) as [l|] eqn:Hl; [|discriminate].
  intros [= <- _]. simpl. intros Hm.
  destruct (Hsort l) as [Hperm _].
  apply proxies_fold_own; [|eapply RouterFacts.Match_from_In; exact Hm].
  destruct (prepare_all_map _ _ _ Hl) as (Hnames & _).
  rewrite <- Hnames in Hnd.
  eapply Permutation_NoDup; [|exact Hnd]. apply Permutation_map. exact Hperm.
Qed.

Lemma New_routes_to_own_proxy_witness :
  exists e w u,
    New (Samples.lib Samples.answers_hello) (Samples.options Router.two_upstreams) = Some (e, w) /\
    Router.Match (router e) "/api/ping" = Some u /\
    proxies e !! Router.Name u = Some u.
Proof.
  do 3 eexists. split; [reflexivity|]. split; [reflexivity|].
  eapply (New_routes_to_own_proxy (Samples.lib Samples.answers_hello)
            (Samples.options Router.two_upstreams) _ _ "/api/ping").
  - exact RouterFacts.insertion_sort_spec.
  - simpl. repeat constructor; simpl; intuition discriminate.
  - reflexivity.
  - reflexivity.
Defined.

Lemma sorted_pair (sort_Slice : (Router.Upstream -> Router.Upstream -> bool) ->
                                list Router.Upstream -> list Router.Upstream)
    (a b : Router.Upstream) :
  Router.sort_Slice_spec sort_Slice ->
  strings.len (Router.Prefix b) < strings.len (Router.Prefix a) ->
  sort_Slice Router.less [a; b] = [a; b].
Proof.
  intros Hsort Hlt. destruct (Hsort [a; b]) as [Hperm Hsorted].
  pose proof (Permutation_length Hperm) as Hlen.
  destruct (sort_Slice Router.less [a; b]) as [|x [|y [|z l]]]; try discriminate.
  apply Permutation_length_2_inv in Hperm. destruct Hperm as [Heq|Heq].
  - exact Heq.
  - injection Heq as -> ->. inversion Hsorted as [|? ? _ Hall]; subst.
    inversion Hall as [|? ? Hab _]; subst.
    apply RouterFacts.less_false in Hab. lia.
Qed.

(** X10: the proxies are kept by name, so upstreams that share a name
    share one proxy.  When two upstreams carry the same name and the first
    has the longer prefix, a path under that prefix is routed to the first
    upstream and the proxy found under its name is that of the second: the
    request goes to the second target. *)
Theorem shared_name_shares_proxy (lib : StdLib) (o : Options) (u1 u2 v1 v2 : Router.Upstream)
    (e : Engine) (w : World) (path : string) :
  Router.sort_Slice_spec (sort_Slice lib) ->
  Upstreams o = [u1; u2] ->
  Router.Name u1 = Router.Name u2 ->
  Router.prepare (url_Parse lib) u1 = Some v1 ->
  Router.prepare (url_Parse lib) u2 = Some v2 ->
  strings.len (Router.Prefix v2) < strings.len (Router.Prefix v1) ->
  Router.matches path v1 = true ->
  New lib o = Some (e, w) ->
  Router.Match (router e) path = Some v1 /\
  proxies e !! Router.Name v1 = Some v2.
Proof.
  intros Hsort Hups Hname H1 H2 Hlt Hm. unfold New, Router.NewRouter. simpl.
  rewrite Hups. simpl. rewrite H1, H2. rewrite (sorted_pair _ v1 v2 Hsort Hlt).
  intros [= <- _]. simpl. unfold Router.Match. simpl. rewrite Hm.
  split; [reflexivity|].
  assert (Router.Name v1 = Router.Name v2) as ->.
  { unfold Router.prepare in H1, H2.
    destruct (url_Parse lib (Router.Target u1)); [|discriminate].
    destruct (url_Parse lib (Router.Target u2)); [|discriminate].
    injection H1 as <-. injection H2 as <-. exact Hname. }
  apply lookup_insert_eq.
Qed.

Lemma shared_name_shares_proxy_witness :
  exists e w v1 v2,
    New (Samples.lib Samples.answers_hello) (Samples.options Samples.same_name_upstreams)
    = Some (e, w) /\
    (Router.Match (router e) "/api/ping" = Some v1 /\
     proxies e !! Router.Name v1 = Some v2) /\
    Router.Target v1 = "http://127.0.0.1:18082" /\
    Router.Target v2 = "http://127.0.0.1:18081".
Proof.
  do 4 eexists. split; [reflexivity|]. split.
  - eapply (shared_name_shares_proxy (Samples.lib Samples.answers_hello)
              (Samples.options Samples.same_name_upstreams)).
    + exact RouterFacts.insertion_sort_spec.
    + reflexivity.
    + reflexivity.
    + reflexivity.
    + reflexivity.
    + reflexivity.
    + reflexivity.
    + reflexivity.
  - split; reflexivity.
Defined.

End ConstructionFacts.

(** ** Serving a request *)

Module ServeFacts.
Import Engine.

(** *** The two callbacks *)


Lemma framed_refl (p : nat) (w : World) : framed p w w.
Proof. unfold framed, FlowStore.same_contents. repeat split; auto. Qed.

Lemma same_contents_trans {P : Type} (a b c : FlowStore.FlowStore P) :
  FlowStore.same_contents a b -> FlowStore.same_contents b c -> FlowStore.same_contents a c.
Proof.
  unfold FlowStore.same_contents. intros (?&?&?&?&?) (?&?&?&?&?). repeat split; congruence.
Qed.

Lemma framed_trans (p : nat) (w1 w2 w3 : World) :
  framed p w1 w2 -> framed p w2 w3 -> framed p w1 w3.
Proof.
  intros (Hs & Ha & Hu & Hp & Hq) (Hs' & Ha' & Hu' & Hp' & Hq').
  split; [eapply same_contents_trans; eassumption|].
  split; [congruence|]. split; [congruence|]. split; [auto|].
  intros q Hne. rewrite Hq', Hq by exact Hne. reflexivity.
Qed.

Lemma framed_insert (p : nat) (w w' : World) (f : Flow.Flow) :
  framed p w w' -> framed p w (set_heap (<[p := f]> (heap w')) w').
Proof.
  intros (Hs & Ha & Hu & Hp & Hq).
  split; [exact Hs|]. split; [exact Ha|]. split; [exact Hu|]. split.
  - intros _. simpl. rewrite lookup_insert_eq. eauto.
  - intros q Hne. simpl. rewrite lookup_insert_ne by congruence. apply Hq. exact Hne.
Qed.

Lemma framed_Update (p q : nat) (w w' : World) (t : Flow.FlowEventType) :
  framed p w w' -> framed p w (set_store (FlowStore.Update (store w') q t) w').
Proof.
  intros (Hs & Ha & Hu & Hp & Hq).
  split; [exact Hs|]. split; [exact Ha|]. split; [exact Hu|]. split; [exact Hp|exact Hq].
Qed.

Lemma framed_tick (p : nat) (w w' : World) :
  framed p w w' -> framed p w (snd (time_Now w')).
Proof.
  intros (Hs & Ha & Hu & Hp & Hq).
  split; [exact Hs|]. split; [exact Ha|]. split; [exact Hu|]. split; [exact Hp|exact Hq].
Qed.

Lemma modifyResponse_framed (e : Engine) (w : World) (resp : http.Response) (p : nat) :
  http.resp_ctx_flow resp = Some p ->
  framed p w (fst (fst (modifyResponse e w resp))).
Proof.
  intros Hctx. unfold modifyResponse. rewrite Hctx.
  destruct (heap w !! p) as [flow|] eqn:Hflow; [|apply framed_refl].
  simpl.
  destruct (complete e (clock w) (clock w + 1) flow resp) as [[flow4 resp']|]; simpl.
  - unfold framed, FlowStore.same_contents. simpl. repeat split.
    + intros _. rewrite lookup_insert_eq. eauto.
    + intros q Hne. apply lookup_insert_ne. congruence.
  - unfold framed, FlowStore.same_contents. simpl. repeat split; auto.
Qed.

Lemma modifyResponse_not_Err (e : Engine) (w : World) (resp : http.Response) (err : string) :
  snd (modifyResponse e w resp) <> Err err.
Proof.
  unfold modifyResponse.
  destruct (http.resp_ctx_flow resp) as [p|]; [|discriminate].
  destruct (heap w !! p) as [flow|]; [|discriminate]. simpl.
  destruct (complete e (clock w) (clock w + 1) flow resp) as [[flow4 resp']|]; discriminate.
Qed.

Lemma errorHandler_framed (e : Engine) (w : World) (rw : http.ResponseWriter)
    (r : http.Request) (err : string) (p : nat) :
  http.ctx_flow r = Some p ->
  framed p w (fst (errorHandler e w rw r err)).
Proof.
  intros Hctx. unfold errorHandler. rewrite Hctx. simpl.
  destruct (heap w !! p) as [flow|] eqn:Hflow; [|apply framed_refl].
  simpl. unfold framed, FlowStore.same_contents. simpl. repeat split.
  - intros _. rewrite lookup_insert_eq. eauto.
  - intros q Hne. apply lookup_insert_ne. congruence.
Qed.

Lemma ReverseProxy_framed (lib : StdLib) (e : Engine) (u : Router.Upstream) (w : World)
    (rw : http.ResponseWriter) (r : http.Request) (p : nat) :
  http.ctx_flow r = Some p ->
  framed p w (fst (fst (ReverseProxy_ServeHTTP lib e u w rw r))).
Proof.
  intros Hctx. unfold ReverseProxy_ServeHTTP.
  destruct (RoundTrip lib u r) as [resp|err].
  - pose proof (modifyResponse_framed e w (http.for_request r resp) p Hctx) as Hf.
    pose proof (modifyResponse_not_Err e w (http.for_request r resp)) as Hne.
    destruct (modifyResponse e w (http.for_request r resp)) as [[w' resp'] [[]|err|]];
      simpl in *; [exact Hf| |exact Hf].
    destruct (Hne err eq_refl).
  - pose proof (errorHandler_framed e w rw r err p Hctx) as Hf.
    destruct (errorHandler e w rw r err) as [w' rw']. exact Hf.
Qed.


(** *** The request capture *)

Lemma readLimited_readable (rd : io.ReadCloser) (maxBytes : Z) :
  0 <= maxBytes < MaxInt64 ->
  io.closed rd = false -> io.failure rd = None ->
  fst (readLimited rd maxBytes)
  = Ok (take (Z.to_nat maxBytes) (io.pending rd), maxBytes <? io.len (io.pending rd)).
Proof.
  intros Hrange Hopen Heof. destruct rd as [data failure closed]. simpl in *. subst.
  apply EngineFacts.readLimited_in_range. exact Hrange.
Qed.

Lemma captureRequestBody_readable (flow : Flow.Flow) (cr : CapturedRequest.t)
    (r : http.Request) (maxBytes : Z) :
  0 <= maxBytes < MaxInt64 ->
  Flow.Request flow = Some cr ->
  readable (body_reader r) ->
  captureRequestBody flow r maxBytes
  = (match http.Body_ r with
     | http.BodyReader rd =>
         Flow.set_Request
           (Some (CapturedRequest.set_Body (take (Z.to_nat maxBytes) (io.pending rd))
                    (maxBytes <? io.len (io.pending rd)) cr)) flow
     | _ => flow
     end,
     forwarded maxBytes r, Ok tt).
Proof.
  intros Hrange Hreq Hread. unfold captureRequestBody, forwarded, body_reader in *.
  destruct (http.Body_ r) as [| |rd]; [reflexivity|reflexivity|].
  destruct Hread as [Hopen Heof].
  pose proof (readLimited_readable rd maxBytes Hrange Hopen Heof) as Hrl.
  destruct (readLimited rd maxBytes) as [res rd']. simpl in Hrl. subst res.
  rewrite Hreq. f_equal. f_equal. f_equal.
  unfold io.len. rewrite length_take.
  rewrite EngineFacts.int64_id.
  - lia.
  - unfold is_int64, MinInt64, MaxInt64 in *.
    change (2 ^ 63) with 9223372036854775808 in *. lia.
Qed.

(** *** [ServeHTTP] *)



Lemma ServeHTTP_framed (lib : StdLib) (e : Engine) (w : World)
    (rw : http.ResponseWriter) (r : http.Request) (upstream : Router.Upstream) :
  Router.Match (router e) (Router.Path (http.URL r)) = Some upstream ->
  framed (fst (newFlow lib w r upstream))
    (set_store (FlowStore.Add (flowID (heap (snd (newFlow lib w r upstream))))
                  (store (snd (newFlow lib w r upstream))) (fst (newFlow lib w r upstream)))
       (snd (newFlow lib w r upstream)))
    (fst (fst (ServeHTTP lib e w rw r))).
Proof.
  intros Hmatch. unfold ServeHTTP. rewrite Hmatch.
  destruct (newFlow lib w r upstream) as [p w1] eqn:Hnew.
  cbv zeta. cbn [fst snd].
  set (w2 := set_store _ w1).
  destruct (heap w2 !! p) as [flow|]; [|apply framed_refl].
  destruct (captureRequestBody flow r (MaxBodySize (opts e))) as [[flow1 r1] [[]|err|]];
    [| |apply framed_refl].
  - destruct (time_Now w2) as [now w3] eqn:Hnow.
    assert (framed p w2 w3) as H3.
    { replace w3 with (snd (time_Now w2)) by (rewrite Hnow; reflexivity).
      apply framed_tick, framed_refl. }
    set (flow2 := Addon.FireRequest _ _).
    pose proof (framed_insert p w2 w3 flow2 H3) as H4.
    destruct (Flow.killed flow2); [exact H4|].
    destruct (proxies e !! Router.Name upstream) as [u|]; [|exact H4].
    eapply framed_trans; [exact H4|]. apply ReverseProxy_framed. reflexivity.
  - set (flow2 := Flow.set_Error _ _).
    apply framed_Update. apply framed_insert, framed_refl.
Qed.

(** X12: a request for which no upstream matches leaves the world as it
    is.  A request that is routed adds exactly one flow, whatever comes
    next (a body that cannot be read, a hook that kills the flow, an
    upstream that fails or answers): [Get] finds the new flow under the
    identifier just drawn, [Count] has grown by one unless the store was
    full, and no flow other than the new one has been touched. *)
Theorem ServeHTTP_records_one_flow (lib : StdLib) (e : Engine) (w : World)
    (rw : http.ResponseWriter) (r : http.Request) :
  match Router.Match (router e) (Router.Path (http.URL r)) with
  | None =>
      ServeHTTP lib e w rw r
      = (w, http.Error rw "no upstream matched" http.StatusBadGateway, true)
  | Some upstream =>
      FlowStore.Get (store (fst (fst (ServeHTTP lib e w rw r)))) (uuid_String lib (uuids w))
      = Some (allocated w) /\
      FlowStore.Count (store (fst (fst (ServeHTTP lib e w rw r))))
      = (if FlowStore.Count (store w) =? FlowStore.capacity (store w)
         then FlowStore.Count (store w) else FlowStore.Count (store w) + 1) /\
      is_Some (heap (fst (fst (ServeHTTP lib e w rw r))) !! allocated w) /\
      (forall q, q <> allocated w ->
                 heap (fst (fst (ServeHTTP lib e w rw r))) !! q = heap w !! q) /\
      allocated (fst (fst (ServeHTTP lib e w rw r))) = S (allocated w) /\
      uuids (fst (fst (ServeHTTP lib e w rw r))) = S (uuids w)
  end.
Proof.
  destruct (Router.Match (router e) (Router.Path (http.URL r))) as [upstream|] eqn:Hmatch.
  - pose proof (ServeHTTP_framed lib e w rw r upstream Hmatch) as Hf.
    unfold newFlow, new_flow in Hf. simpl in Hf.
    destruct Hf as ((_ & Hi & _ & _ & Hn) & Ha & Hu & Hp & Hq).
    simpl in *. unfold FlowStore.Get, FlowStore.Count.
    rewrite <- Hi, <- Hn, Ha, Hu.
    split.
    { unfold flowID. rewrite lookup_insert_eq. simpl. apply lookup_insert_eq. }
    split; [reflexivity|]. split.
    { apply Hp. rewrite lookup_insert_eq. eauto. }
    split; [|split; reflexivity].
    intros q Hne. rewrite Hq by exact Hne. apply lookup_insert_ne. congruence.
  - unfold ServeHTTP. rewrite Hmatch. reflexivity.
Qed.

Lemma readLimited_failure (rd : io.ReadCloser) (maxBytes : Z) (err : string) :
  io.closed rd = false -> io.failure rd = Some err ->
  io.len (io.pending rd) <= maxBytes < MaxInt64 ->
  fst (readLimited rd maxBytes) = Err err.
Proof.
  intros Hopen Hfail Hrange. unfold readLimited, io.ReadAll_LimitReader.
  assert (0 <= io.len (io.pending rd)) as H0 by (unfold io.len; lia).
  rewrite EngineFacts.int64_id
    by (unfold is_int64, MinInt64, MaxInt64 in *;
        change (2 ^ 63) with 9223372036854775808 in *; lia).
  destruct (Z.leb_spec (maxBytes + 1) 0); [lia|].
  rewrite Hopen.
  destruct (Z.leb_spec (maxBytes + 1) (io.len (io.pending rd))); [lia|].
  rewrite Hfail. reflexivity.
Qed.

(** X13: when the request body breaks off with a read error before the
    limit is reached, the client is answered 500 [internal proxy error],
    the upstream is not contacted (the outcome does not depend on the round
    trip), and the flow stays in the store in state [error] with the error
    [capture request: <reason>], without response; the subscribers are sent
    a [new] and then an [error] event for it. *)
Theorem ServeHTTP_body_read_failure (lib : StdLib) (e : Engine) (w : World)
    (rw : http.ResponseWriter) (r : http.Request) (upstream : Router.Upstream)
    (rd : io.ReadCloser) (err : string) :
  Router.Match (router e) (Router.Path (http.URL r)) = Some upstream ->
  http.Body_ r = http.BodyReader rd ->
  io.closed rd = false -> io.failure rd = Some err ->
  io.len (io.pending rd) <= MaxBodySize (opts e) < MaxInt64 ->
  exists w' flow,
    ServeHTTP lib e w rw r
    = (w', http.Error rw "internal proxy error" http.StatusInternalServerError, true) /\
    (forall roundTrip,
       ServeHTTP (set_RoundTrip roundTrip lib) e w rw r = ServeHTTP lib e w rw r) /\
    heap w' !! allocated w = Some flow /\
    Flow.State flow = Flow.FlowStateError /\
    Flow.Error flow = ("capture request: " ++ err)%string /\
    Flow.Response flow = None /\
    FlowStore.subscribers (store w')
    = FlowStore.broadcast
        (FlowStore.broadcast (FlowStore.subscribers (store w))
           {| FlowStore.Type_ := Flow.FlowEventNew; FlowStore.Flow_ := allocated w |})
        {| FlowStore.Type_ := Flow.FlowEventError; FlowStore.Flow_ := allocated w |}.
Proof.
  intros Hmatch Hbody Hopen Hfail Hrange.
  pose proof (readLimited_failure rd _ err Hopen Hfail Hrange) as Hrl.
  assert (forall l, ServeHTTP l e w rw r
            = (let '(p, w1) := newFlow l w r upstream in
               let w2 := set_store (FlowStore.Add (flowID (heap w1)) (store w1) p) w1 in
               match heap w2 !! p with
               | None => (w2, rw, false)
               | Some flow =>
                   let flow2 := Flow.set_Error ("capture request: " ++ err)%string
                                  (Flow.set_State Flow.FlowStateError flow) in
                   let w3 := set_heap (<[p := flow2]> (heap w2)) w2 in
                   (set_store (FlowStore.Update (store w3) p Flow.FlowEventError) w3,
                    http.Error rw "internal proxy error" http.StatusInternalServerError, true)
               end)) as Hserve.
  { intros l. unfold ServeHTTP. rewrite Hmatch.
    destruct (newFlow l w r upstream) as [p w1]. cbv zeta.
    destruct (heap _ !! p) as [flow|]; [|reflexivity].
    unfold captureRequestBody. rewrite Hbody.
    destruct (readLimited rd (MaxBodySize (opts e))) as [res rd']. simpl in Hrl. subst res.
    reflexivity. }
  do 2 eexists. split.
  { rewrite Hserve. unfold newFlow, new_flow. simpl. rewrite lookup_insert_eq. reflexivity. }
  split.
  { intros roundTrip. rewrite !Hserve. reflexivity. }
  simpl. split; [apply lookup_insert_eq|]. repeat (split; [reflexivity|]). reflexivity.
Qed.

Lemma ServeHTTP_body_read_failure_witness :
  exists w' flow,
    ServeHTTP (Samples.lib Samples.answers_hello) (Samples.engine 10) Samples.world
      Samples.empty_writer (Samples.request_with "pi" (Some "unexpected EOF"))
    = (w', http.Error Samples.empty_writer "internal proxy error"
             http.StatusInternalServerError, true) /\
    (forall roundTrip,
       ServeHTTP (set_RoundTrip roundTrip (Samples.lib Samples.answers_hello))
         (Samples.engine 10) Samples.world Samples.empty_writer
         (Samples.request_with "pi" (Some "unexpected EOF"))
       = ServeHTTP (Samples.lib Samples.answers_hello) (Samples.engine 10) Samples.world
           Samples.empty_writer (Samples.request_with "pi" (Some "unexpected EOF"))) /\
    heap w' !! allocated Samples.world = Some flow /\
    Flow.State flow = Flow.FlowStateError /\
    Flow.Error flow = ("capture request: " ++ "unexpected EOF")%string /\
    Flow.Response flow = None /\
    FlowStore.subscribers (store w')
    = FlowStore.broadcast
        (FlowStore.broadcast (FlowStore.subscribers (store Samples.world))
           {| FlowStore.Type_ := Flow.FlowEventNew; FlowStore.Flow_ := allocated Samples.world |})
        {| FlowStore.Type_ := Flow.FlowEventError; FlowStore.Flow_ := allocated Samples.world |}.
Proof.
  apply (ServeHTTP_body_read_failure (Samples.lib Samples.answers_hello) (Samples.engine 10)
           Samples.world Samples.empty_writer (Samples.request_with "pi" (Some "unexpected EOF"))
           Samples.default_upstream
           {| io.pending := Samples.bytes_of "pi"; io.failure := Some "unexpected EOF";
              io.closed := false |} "unexpected EOF").
  - reflexivity.
  - reflexivity.
  - reflexivity.
  - reflexivity.
  - vm_compute. split; [discriminate|reflexivity].
Defined.

(** The steps of [ServeHTTP] up to the test of [killed], when the request
    body can be read. *)
Lemma ServeHTTP_readable (lib : StdLib) (e : Engine) (w : World)
    (rw : http.ResponseWriter) (r : http.Request) (upstream : Router.Upstream) :
  Router.Match (router e) (Router.Path (http.URL r)) = Some upstream ->
  0 <= MaxBodySize (opts e) < MaxInt64 ->
  readable (body_reader r) ->
  exists flow1 w4,
    ServeHTTP lib e w rw r
    = (if Flow.killed (Addon.FireRequest (addons e) flow1)
       then (w4, http.Error rw "flow killed" http.StatusBadGateway, true)
       else match proxies e !! Router.Name upstream with
            | None => (w4, http.Error rw "upstream not configured" http.StatusBadGateway, true)
            | Some u =>
                ReverseProxy_ServeHTTP lib e u w4 rw
                  (http.WithContext (allocated w) (forwarded (MaxBodySize (opts e)) r))
            end) /\
    Flow.ID flow1 = uuid_String lib (uuids w) /\
    Flow.Upstream flow1 = Router.Name upstream /\
    option_map CapturedRequest.Body (Flow.Request flow1)
    = Some (match body_reader r with
            | Some rd => take (Z.to_nat (MaxBodySize (opts e))) (io.pending rd)
            | None => []
            end) /\
    option_map CapturedRequest.BodyTruncated (Flow.Request flow1)
    = Some (match body_reader r with
            | Some rd => MaxBodySize (opts e) <? io.len (io.pending rd)
            | None => false
            end) /\
    Flow.Response flow1 = None /\ Flow.State flow1 = Flow.FlowStateActive /\
    Flow.Error flow1 = "" /\ Flow.killed flow1 = false /\
    heap w4 !! allocated w = Some (Addon.FireRequest (addons e) flow1) /\
    clock w4 = clock w + 2 /\
    FlowStore.subscribers (store w4)
    = FlowStore.broadcast (FlowStore.subscribers (store w))
        {| FlowStore.Type_ := Flow.FlowEventNew; FlowStore.Flow_ := allocated w |}.
Proof.
  intros Hmatch Hrange Hread. unfold ServeHTTP. rewrite Hmatch.
  unfold newFlow, new_flow. simpl. rewrite lookup_insert_eq.
  erewrite captureRequestBody_readable; [|exact Hrange|reflexivity|exact Hread].
  simpl. do 2 eexists. split; [reflexivity|]. simpl.
  split; [unfold body_reader; destruct (http.Body_ r); reflexivity|].
  split; [unfold body_reader; destruct (http.Body_ r); reflexivity|].
  split; [unfold body_reader; destruct (http.Body_ r); reflexivity|].
  split; [unfold body_reader; destruct (http.Body_ r); reflexivity|].
  split; [unfold body_reader; destruct (http.Body_ r); reflexivity|].
  split; [unfold body_reader; destruct (http.Body_ r); reflexivity|].
  split; [unfold body_reader; destruct (http.Body_ r); reflexivity|].
  split; [unfold body_reader; destruct (http.Body_ r); reflexivity|].
  split; [apply lookup_insert_eq|]. split; [lia|reflexivity].
Qed.

(** X14: when a hook kills the flow in [OnRequest], the client is answered
    502 [flow killed] and the upstream is not contacted: the outcome does
    not depend on the round trip.  The flow stays in the store as the hooks
    left it, and no event beyond [new] is published for it. *)
Theorem ServeHTTP_killed_flow (lib : StdLib) (e : Engine) (w : World)
    (rw : http.ResponseWriter) (r : http.Request) (upstream : Router.Upstream) :
  Router.Match (router e) (Router.Path (http.URL r)) = Some upstream ->
  0 <= MaxBodySize (opts e) < MaxInt64 ->
  readable (body_reader r) ->
  (forall f, Flow.killed (Addon.FireRequest (addons e) f) = true) ->
  exists w' flow,
    ServeHTTP lib e w rw r = (w', http.Error rw "flow killed" http.StatusBadGateway, true) /\
    (forall roundTrip,
       ServeHTTP (set_RoundTrip roundTrip lib) e w rw r = ServeHTTP lib e w rw r) /\
    heap w' !! allocated w = Some flow /\
    Flow.killed flow = true /\
    FlowStore.subscribers (store w')
    = FlowStore.broadcast (FlowStore.subscribers (store w))
        {| FlowStore.Type_ := Flow.FlowEventNew; FlowStore.Flow_ := allocated w |}.
Proof.
  intros Hmatch Hrange Hread Hkill.
  assert (forall l, uuid_String l = uuid_String lib -> url_String l = url_String lib ->
            ServeHTTP l e w rw r = ServeHTTP lib e w rw r) as Hsame.
  { intros l Hu Hs. unfold ServeHTTP. rewrite Hmatch.
    unfold newFlow, new_flow. simpl. rewrite !lookup_insert_eq, Hu, Hs.
    erewrite captureRequestBody_readable; [|exact Hrange|reflexivity|exact Hread].
    simpl. rewrite !Hkill. reflexivity. }
  destruct (ServeHTTP_readable lib e w rw r upstream Hmatch Hrange Hread)
    as (flow1 & w4 & Hserve & _ & _ & _ & _ & _ & _ & _ & _ & Hheap & _ & Hsubs).
  rewrite Hkill in Hserve.
  exists w4, (Addon.FireRequest (addons e) flow1).
  split; [exact Hserve|]. split; [intros roundTrip; apply Hsame; reflexivity|].
  split; [exact Hheap|]. split; [apply Hkill|exact Hsubs].
Qed.

Lemma ServeHTTP_killed_flow_witness :
  exists w' flow,
    ServeHTTP (Samples.lib Samples.answers_hello) Samples.engine_killing Samples.world
      Samples.empty_writer (Samples.request_with "ping" None)
    = (w', http.Error Samples.empty_writer "flow killed" http.StatusBadGateway, true) /\
    (forall roundTrip,
       ServeHTTP (set_RoundTrip roundTrip (Samples.lib Samples.answers_hello))
         Samples.engine_killing Samples.world Samples.empty_writer
         (Samples.request_with "ping" None)
       = ServeHTTP (Samples.lib Samples.answers_hello) Samples.engine_killing Samples.world
           Samples.empty_writer (Samples.request_with "ping" None)) /\
    heap w' !! allocated Samples.world = Some flow /\
    Flow.killed flow = true /\
    FlowStore.subscribers (store w')
    = FlowStore.broadcast (FlowStore.subscribers (store Samples.world))
        {| FlowStore.Type_ := Flow.FlowEventNew; FlowStore.Flow_ := allocated Samples.world |}.
Proof.
  apply (ServeHTTP_killed_flow (Samples.lib Samples.answers_hello) Samples.engine_killing
           Samples.world Samples.empty_writer (Samples.request_with "ping" None)
           Samples.default_upstream).
  - reflexivity.
  - vm_compute. split; [discriminate|reflexivity].
  - simpl. split; reflexivity.
  - intros f. simpl. unfold Flow.Kill. simpl. destruct (Flow.resumeCh f); reflexivity.
Defined.

Lemma FireRequest_observer (m : Addon.AddonManager) (f : Flow.Flow) :
  Forall Addon.observer (Addon.addons m) -> Addon.FireRequest m f = f.
Proof.
  intros H. apply EngineFacts.fire_observer. eapply Forall_impl; [exact H|].
  intros a (Hr & _). exact Hr.
Qed.

(** X15: the body handed to the upstream is the captured one.  When the
    request body can be read and the addons only observe, the reverse proxy
    is given the request with its body replaced by the bytes captured on
    the flow: a body longer than the limit reaches the upstream cut off
    after [MaxBodySize] bytes, with the content length set to that size. *)
Theorem ServeHTTP_forwards_captured_body (lib : StdLib) (e : Engine) (w : World)
    (rw : http.ResponseWriter) (r : http.Request) (upstream u : Router.Upstream)
    (rd : io.ReadCloser) :
  Router.Match (router e) (Router.Path (http.URL r)) = Some upstream ->
  proxies e !! Router.Name upstream = Some u ->
  0 <= MaxBodySize (opts e) < MaxInt64 ->
  Forall Addon.observer (Addon.addons (addons e)) ->
  http.Body_ r = http.BodyReader rd ->
  io.closed rd = false -> io.failure rd = None ->
  exists w4 flow cr,
    ServeHTTP lib e w rw r
    = ReverseProxy_ServeHTTP lib e u w4 rw
        (http.WithContext (allocated w)
           (http.set_Body (http.BodyReader (io.NewReader (CapturedRequest.Body cr)))
              (Z.min (io.len (io.pending rd)) (MaxBodySize (opts e))) r)) /\
    heap w4 !! allocated w = Some flow /\
    Flow.Request flow = Some cr /\
    CapturedRequest.Body cr = take (Z.to_nat (MaxBodySize (opts e))) (io.pending rd) /\
    (CapturedRequest.BodyTruncated cr = true <-> MaxBodySize (opts e) < io.len (io.pending rd)).
Proof.
  intros Hmatch Hproxy Hrange Hobs Hbody Hopen Heof.
  assert (readable (body_reader r)) as Hread
    by (unfold body_reader; rewrite Hbody; split; assumption).
  destruct (ServeHTTP_readable lib e w rw r upstream Hmatch Hrange Hread)
    as (flow1 & w4 & Hserve & _ & _ & Hcap & Htr & _ & _ & _ & Hk & Hheap & _ & _).
  rewrite FireRequest_observer in Hserve, Hheap by exact Hobs.
  rewrite Hk, Hproxy in Hserve.
  unfold body_reader in Hcap, Htr. rewrite Hbody in Hcap, Htr.
  destruct (Flow.Request flow1) as [cr|] eqn:Hcr; [|discriminate].
  simpl in Hcap, Htr. injection Hcap as Hcap. injection Htr as Htr.
  exists w4, flow1, cr.
  split.
  { rewrite Hserve. unfold forwarded. rewrite Hbody, Hcap. reflexivity. }
  split; [exact Hheap|]. split; [exact Hcr|].
  split; [exact Hcap|]. rewrite Htr. apply Z.ltb_lt.
Qed.

Lemma ServeHTTP_forwards_captured_body_witness :
  exists w4 flow cr,
    ServeHTTP (Samples.lib Samples.answers_hello) (Samples.engine 3) Samples.world
      Samples.empty_writer (Samples.request_with "ping" None)
    = ReverseProxy_ServeHTTP (Samples.lib Samples.answers_hello) (Samples.engine 3)
        Samples.default_upstream w4 Samples.empty_writer
        (http.WithContext (allocated Samples.world)
           (http.set_Body (http.BodyReader (io.NewReader (CapturedRequest.Body cr)))
              (Z.min (io.len (Samples.bytes_of "ping")) (MaxBodySize (opts (Samples.engine 3))))
              (Samples.request_with "ping" None))) /\
    heap w4 !! allocated Samples.world = Some flow /\
    Flow.Request flow = Some cr /\
    CapturedRequest.Body cr
    = take (Z.to_nat (MaxBodySize (opts (Samples.engine 3)))) (Samples.bytes_of "ping") /\
    (CapturedRequest.BodyTruncated cr = true <->
     MaxBodySize (opts (Samples.engine 3)) < io.len (Samples.bytes_of "ping")).
Proof.
  apply (ServeHTTP_forwards_captured_body (Samples.lib Samples.answers_hello) (Samples.engine 3)
           Samples.world Samples.empty_writer (Samples.request_with "ping" None)
           Samples.default_upstream Samples.default_upstream
           {| io.pending := Samples.bytes_of "ping"; io.failure := None; io.closed := false |}).
  - reflexivity.
  - reflexivity.
  - vm_compute. split; [discriminate|reflexivity].
  - repeat constructor; simpl; intros h Hh; try discriminate; injection Hh as <-; reflexivity.
  - reflexivity.
  - reflexivity.
  - reflexivity.
Defined.

(** X16: when the upstream cannot be reached, the client is answered 502
    [upstream error: <reason>]; the flow ends in state [error] with the
    reason as its error and no response, and the subscribers are sent a
    [new] and then an [error] event for it. *)
Theorem ServeHTTP_upstream_error (lib : StdLib) (e : Engine) (w : World)
    (rw : http.ResponseWriter) (r : http.Request) (upstream u : Router.Upstream)
    (err : string) :
  Router.Match (router e) (Router.Path (http.URL r)) = Some upstream ->
  proxies e !! Router.Name upstream = Some u ->
  0 <= MaxBodySize (opts e) < MaxInt64 ->
  Forall Addon.observer (Addon.addons (addons e)) ->
  readable (body_reader r) ->
  (forall sent, RoundTrip lib u sent = inr err) ->
  exists w' flow,
    ServeHTTP lib e w rw r
    = (w', http.Error rw ("upstream error: " ++ err)%string http.StatusBadGateway, true) /\
    heap w' !! allocated w = Some flow /\
    Flow.State flow = Flow.FlowStateError /\
    Flow.Error flow = err /\
    Flow.Response flow = None /\
    Flow.ID flow = uuid_String lib (uuids w) /\
    Flow.Upstream flow = Router.Name upstream /\
    FlowStore.subscribers (store w')
    = FlowStore.broadcast
        (FlowStore.broadcast (FlowStore.subscribers (store w))
           {| FlowStore.Type_ := Flow.FlowEventNew; FlowStore.Flow_ := allocated w |})
        {| FlowStore.Type_ := Flow.FlowEventError; FlowStore.Flow_ := allocated w |}.
Proof.
  intros Hmatch Hproxy Hrange Hobs Hread Hrt.
  destruct (ServeHTTP_readable lib e w rw r upstream Hmatch Hrange Hread)
    as (flow1 & w4 & Hserve & Hid & Hup & _ & _ & Hresp & _ & _ & Hk & Hheap & _ & Hsubs).
  rewrite FireRequest_observer in Hserve, Hheap by exact Hobs.
  rewrite Hk, Hproxy in Hserve. rewrite Hserve.
  unfold ReverseProxy_ServeHTTP. rewrite Hrt.
  unfold errorHandler. simpl. rewrite Hheap. simpl.
  rewrite EngineFacts.FireError_observer by exact Hobs.
  do 2 eexists. split; [reflexivity|]. simpl.
  split; [apply lookup_insert_eq|]. simpl.
  repeat (split; [first [reflexivity | assumption]|]).
  rewrite Hsubs. reflexivity.
Qed.

Lemma ServeHTTP_upstream_error_witness :
  exists w' flow,
    ServeHTTP (Samples.lib Samples.refuses) (Samples.engine 10) Samples.world
      Samples.empty_writer (Samples.request_with "ping" None)
    = (w', http.Error Samples.empty_writer
             ("upstream error: " ++ "dial tcp 127.0.0.1:18081: connect: connection refused")%string
             http.StatusBadGateway, true) /\
    heap w' !! allocated Samples.world = Some flow /\
    Flow.State flow = Flow.FlowStateError /\
    Flow.Error flow = "dial tcp 127.0.0.1:18081: connect: connection refused" /\
    Flow.Response flow = None /\
    Flow.ID flow = uuid_String (Samples.lib Samples.refuses) (uuids Samples.world) /\
    Flow.Upstream flow = Router.Name Samples.default_upstream /\
    FlowStore.subscribers (store w')
    = FlowStore.broadcast
        (FlowStore.broadcast (FlowStore.subscribers (store Samples.world))
           {| FlowStore.Type_ := Flow.FlowEventNew; FlowStore.Flow_ := allocated Samples.world |})
        {| FlowStore.Type_ := Flow.FlowEventError; FlowStore.Flow_ := allocated Samples.world |}.
Proof.
  apply (ServeHTTP_upstream_error (Samples.lib Samples.refuses) (Samples.engine 10)
           Samples.world Samples.empty_writer (Samples.request_with "ping" None)
           Samples.default_upstream Samples.default_upstream).
  - reflexivity.
  - reflexivity.
  - vm_compute. split; [discriminate|reflexivity].
  - repeat constructor; simpl; intros h Hh; try discriminate; injection Hh as <-; reflexivity.
  - simpl. split; reflexivity.
  - intros sent. reflexivity.
Defined.



(** *** [Replay] *)

(** X18: a replay that returns an error has changed nothing.  In an engine
    whose upstreams all have a proxy (as [New] builds it), whenever
    [Replay] returns an error (unknown identifier, no captured request, a
    request that cannot be rebuilt, no upstream for its path) the store,
    the flows and the identifiers drawn are as before the call. *)
Theorem Replay_error_changes_nothing (lib : StdLib) (e : Engine) (w w' : World)
    (id msg : string) :
  configured e ->
  Replay lib e w id = (w', Err msg) ->
  w' = w.
Proof.
  intros Hconf. unfold Replay.
  destruct (FlowStore.Get (store w) id) as [orig|]; [|intros [= <- _]; reflexivity].
  destruct (heap w !! orig) as [original|]; [|discriminate].
  destruct (Flow.Request original) as [cr|]; [|intros [= <- _]; reflexivity].
  destruct (rebuildRequest lib cr) as [req|]; [|intros [= <- _]; reflexivity].
  destruct (Router.Match (router e) (Router.Path (http.URL req))) as [upstream|] eqn:Hmatch;
    [|intros [= <- _]; reflexivity].
  destruct (newFlow lib w req upstream) as [p w1].
  destruct (heap w1 !! p) as [flow|]; [|discriminate].
  cbv zeta.
  destruct (Hconf upstream (RouterFacts.Match_from_In _ _ _ Hmatch)) as [u ->].
  destruct (ReverseProxy_ServeHTTP _ _ _ _ _ _) as [[w4 rw'] returned].
  destruct returned; discriminate.
Qed.

Lemma Replay_error_changes_nothing_witness :
  exists w' msg,
    Replay (Samples.lib Samples.answers_hello) (Samples.engine 10) Samples.world "flow-9"
    = (w', Err msg) /\ w' = Samples.world.
Proof.
  do 2 eexists. split; [reflexivity|].
  apply (Replay_error_changes_nothing (Samples.lib Samples.answers_hello) (Samples.engine 10)
           Samples.world _ "flow-9" ("flow " ++ "flow-9" ++ " not found")%string).
  - intros u [<-|[]]. vm_compute. eauto.
  - reflexivity.
Defined.

End ServeFacts.

(** ** Addons and the gate of a flow *)

Module HookFacts.
Import Addon.

Lemma fire_Add (hook : Addon -> option (Flow.Flow -> Flow.Flow)) (m : AddonManager)
    (more : list Addon) (f : Flow.Flow) :
  fire hook (Add m more) f = fire hook {| addons := more |} (fire hook m f).
Proof. unfold fire, Add. simpl. apply fold_left_app. Qed.

(** X19: hooks run in the order of registration.  Firing a hook on a
    manager to which addons were added runs the earlier addons first and
    hands the flow as they left it to the added ones; an addon that does
    not implement the hook is passed over, and a manager without addons
    leaves the flow as it is. *)
Theorem Fire_in_registration_order (m : AddonManager) (more : list Addon) (a : Addon)
    (f : Flow.Flow) (err : string) :
  FireRequest (Add m more) f = FireRequest {| addons := more |} (FireRequest m f) /\
  FireResponse (Add m more) f = FireResponse {| addons := more |} (FireResponse m f) /\
  FireComplete (Add m more) f = FireComplete {| addons := more |} (FireComplete m f) /\
  FireError (Add m more) f err = FireError {| addons := more |} (FireError m f err) err /\
  FireRequest (Add m [a]) f
  = match OnRequest a with Some h => h (FireRequest m f) | None => FireRequest m f end /\
  FireError (Add m [a]) f err
  = match OnError a with Some h => h (FireError m f err) err | None => FireError m f err end /\
  FireRequest NewAddonManager f = f /\
  Add (Add m more) [a] = Add m (more ++ [a]).
Proof.
  unfold FireRequest, FireResponse, FireComplete, FireError.
  split; [apply fire_Add|]. split; [apply fire_Add|]. split; [apply fire_Add|].
  split; [apply fire_Add|]. split; [|split; [|split]].
  - rewrite fire_Add. unfold fire at 1. simpl. destruct (OnRequest a); reflexivity.
  - rewrite fire_Add. unfold fire at 1. simpl. destruct (OnError a); reflexivity.
  - reflexivity.
  - unfold Add. simpl. rewrite <- app_assoc. reflexivity.
Qed.

Import Flow Lifecycle.

Lemma step_killed (e : Engine.Engine) (f : Flow) (o : Op) :
  killed f = true -> killed (step e f o) = true.
Proof.
  intros Hk. destruct o as [| | |start done resp|now err]; simpl.
  - exact Hk.
  - unfold Resume. rewrite Hk, andb_false_r. exact Hk.
  - unfold Kill. simpl. destruct (resumeCh f); reflexivity.
  - unfold Engine.complete, Engine.captureResponseBody.
    destruct (http.resp_Body resp) as [rd|]; simpl; [|exact Hk].
    destruct (Engine.readLimited rd _) as [[[body truncated]|msg|] rd']; simpl; exact Hk.
  - exact Hk.
Qed.

(** X20: nothing clears [killed].  Once a flow has been killed, whatever
    is called on it afterwards ([Intercept], [Resume], [Kill], the response
    and the error callback) leaves it killed; and when such a flow is
    intercepted again, [Resume] does not release the gate, which only a
    further [Kill] does. *)
Theorem killed_is_never_cleared (e : Engine.Engine) (f : Flow) (ops : list Op) :
  killed f = true ->
  killed (fold_left (step e) ops f) = true /\
  resumeCh (Resume (Intercept (fold_left (step e) ops f))) = true /\
  resumeCh (Kill (Intercept (fold_left (step e) ops f))) = false.
Proof.
  intros Hk.
  assert (killed (fold_left (step e) ops f) = true) as Hk'.
  { revert f Hk. induction ops as [|o ops IH]; intros f Hk; [exact Hk|].
    simpl. apply IH. apply step_killed. exact Hk. }
  split; [exact Hk'|]. split.
  - unfold Resume, Intercept. simpl. rewrite Hk'. reflexivity.
  - reflexivity.
Qed.

Lemma killed_is_never_cleared_witness :
  killed (fold_left (step (Samples.engine 10)) [OpResume; OpIntercept; OpResume]
            (Kill Samples.flow_1)) = true /\
  resumeCh (Resume (Intercept (fold_left (step (Samples.engine 10))
                                 [OpResume; OpIntercept; OpResume] (Kill Samples.flow_1)))) = true /\
  resumeCh (Kill (Intercept (fold_left (step (Samples.engine 10))
                               [OpResume; OpIntercept; OpResume] (Kill Samples.flow_1)))) = false.
Proof.
  apply (killed_is_never_cleared (Samples.engine 10) (Kill Samples.flow_1)). reflexivity.
Defined.

End HookFacts.

(** ** Filters: arguments and header matching *)

Module ArgumentFacts.
Import Filter.

(** *** Strings *)

Lemma get_append_r (a b : string) (n : nat) :
  String.get (String.length a + n) (a ++ b) = String.get n b.
Proof. induction a as [|c a IH]; simpl; [reflexivity|exact IH]. Qed.

Lemma length_append (a b : string) :
  String.length (a ++ b) = (String.length a + String.length b)%nat.
Proof. induction a as [|c a IH]; simpl; [reflexivity|]. rewrite IH. reflexivity. Qed.

Lemma substring_append_r (a b : string) (n : nat) :
  substring (String.length a) n (a ++ b) = substring 0 n b.
Proof. induction a as [|c a IH]; simpl; [reflexivity|exact IH]. Qed.

Lemma substring_prefix (s b : string) :
  substring 0 (String.length s) (s ++ b) = s.
Proof.
  induction s as [|c s IH]; simpl.
  - destruct b; reflexivity.
  - rewrite IH. reflexivity.
Qed.

(** A loop that skips the bytes of [s], none of which stops it. *)
Lemma scan_over (stop : ascii -> bool) (pre s rest : string) (n k : nat) :
  Forall (fun c => stop c = false) (list_ascii_of_string s) ->
  (String.length s <= n)%nat ->
  match String.get 0 rest with Some c => stop c = true | None => True end ->
  (k <= String.length s)%nat ->
  scan stop (n - k) {| input := pre ++ s ++ rest; pos := String.length pre + k |}
  = {| input := pre ++ s ++ rest; pos := String.length pre + String.length s |}.
Proof.
  intros Hs Hn Hrest Hk.
  remember (String.length s - k)%nat as d eqn:Hd.
  revert k Hk Hd. induction d as [|d IH]; intros k Hk Hd.
  - assert (k = String.length s) as -> by lia.
    destruct (n - String.length s)%nat as [|m]; simpl; [reflexivity|].
    unfold char_at. simpl.
    rewrite get_append_r.
    replace (String.length s) with (String.length s + 0)%nat at 1 by lia.
    rewrite get_append_r.
    destruct (String.get 0 rest) as [c|]; [rewrite Hrest|]; reflexivity.
  - destruct (n - k)%nat as [|m] eqn:Hm; [lia|]. simpl.
    unfold char_at. simpl. rewrite get_append_r.
    assert (k < String.length s)%nat as Hlt by lia.
    assert (exists c, String.get k (s ++ rest) = Some c /\ stop c = false) as (c & Hc & Hstop).
    { clear IH Hm Hd Hn Hk. revert k Hlt Hs.
      induction s as [|c0 s IHs]; intros k Hk Hs; simpl in *; [lia|].
      inversion Hs as [|? ? Hc0 Hs']; subst.
      destruct k as [|k]; [eauto|]. apply IHs; [lia|exact Hs']. }
    rewrite Hc, Hstop.
    replace m with (n - S k)%nat by lia.
    replace (advance {| input := pre ++ s ++ rest; pos := String.length pre + k |})
      with {| input := pre ++ s ++ rest; pos := String.length pre + S k |}
      by (unfold advance; simpl; f_equal; lia).
    apply IH; lia.
Qed.

Lemma append_assoc (a b c : string) : ((a ++ b) ++ c = a ++ b ++ c)%string.
Proof.
  induction a as [|x a IH]; [reflexivity|].
  change (String x ((a ++ b) ++ c) = String x (a ++ b ++ c))%string. f_equal. exact IH.
Qed.

Lemma scan_from (stop : ascii -> bool) (pre s rest : string) :
  Forall (fun c => stop c = false) (list_ascii_of_string s) ->
  match String.get 0 rest with Some c => stop c = true | None => True end ->
  scan stop (String.length (pre ++ s ++ rest) - String.length pre)
    {| input := pre ++ s ++ rest; pos := String.length pre |}
  = {| input := pre ++ s ++ rest; pos := String.length pre + String.length s |}.
Proof.
  intros Hs Hrest.
  pose proof (scan_over stop pre s rest
                (String.length (pre ++ s ++ rest) - String.length pre) 0 Hs) as H.
  rewrite Nat.sub_0_r, Nat.add_0_r in H. apply H.
  - rewrite !length_append. lia.
  - exact Hrest.
  - lia.
Qed.

Lemma skipWS_blanks (pre ws tail : string) :
  Forall (fun c => is_blank c = true) (list_ascii_of_string ws) ->
  match String.get 0 tail with Some c => is_blank c = false | None => True end ->
  skipWS {| input := pre ++ ws ++ tail; pos := String.length pre |}
  = {| input := pre ++ ws ++ tail; pos := String.length pre + String.length ws |}.
Proof.
  intros Hws Htail. unfold skipWS. simpl. apply scan_from.
  - eapply Forall_impl; [exact Hws|]. intros c Hc. simpl in Hc. rewrite Hc. reflexivity.
  - destruct (String.get 0 tail) as [c|]; [|exact I]. rewrite Htail. reflexivity.
Qed.

(** X21: a quoted argument is read back as it was written.  For a string
    [s] without a double quote, [parseArg] started before any blanks that
    precede the quoted form of [s] returns [s] itself, blanks and operator
    characters included, and leaves the parser behind the closing quote. *)
Theorem parseArg_reads_quoted (pre ws s rest : string) :
  Forall (fun c => is_blank c = true) (list_ascii_of_string ws) ->
  Forall (fun c => Ascii.eqb c strings.dquote = false) (list_ascii_of_string s) ->
  parseArg {| input := pre ++ ws ++ strings.quoted s ++ rest; pos := String.length pre |}
  = Val s {| input := pre ++ ws ++ strings.quoted s ++ rest;
             pos := String.length pre + String.length ws + String.length s + 2 |}.
Proof.
  intros Hws Hs. unfold parseArg.
  rewrite skipWS_blanks; [|exact Hws|reflexivity].
  set (inp := (pre ++ ws ++ strings.quoted s ++ rest)%string).
  assert (inp = ((pre ++ ws) ++ String strings.dquote EmptyString) ++ s
                ++ String strings.dquote rest)%string as Hinp.
  { unfold inp, strings.quoted. rewrite !append_assoc. f_equal. f_equal.
    change (String strings.dquote ((s ++ String strings.dquote EmptyString) ++ rest)
            = String strings.dquote (s ++ String strings.dquote rest))%string.
    rewrite append_assoc. reflexivity. }
  assert (String.length inp
          = String.length pre + String.length ws + String.length s + 2 + String.length rest)%nat
    as Hlen.
  { rewrite Hinp. rewrite !length_append. simpl. lia. }
  unfold more, char_at. simpl.
  destruct (Nat.ltb_spec (String.length pre + String.length ws) (String.length inp)); [|lia].
  assert (String.get (String.length pre + String.length ws) inp = Some strings.dquote) as Hq.
  { rewrite Hinp. rewrite !append_assoc. rewrite <- length_append.
    replace (String.length (pre ++ ws)) with (String.length (pre ++ ws) + 0)%nat by lia.
    rewrite <- append_assoc. rewrite get_append_r. reflexivity. }
  rewrite Hq. rewrite Ascii.eqb_refl.
  unfold parseQuoted. cbv zeta.
  assert (advance {| input := inp; pos := String.length pre + String.length ws |}
          = {| input := inp;
               pos := String.length ((pre ++ ws) ++ String strings.dquote EmptyString) |}) as ->.
  { unfold advance. simpl. f_equal. rewrite !length_append. simpl. lia. }
  cbn [input pos].
  rewrite Hinp. rewrite scan_from; [|exact Hs|reflexivity].
  rewrite <- Hinp. unfold more, slice. simpl.
  destruct (Nat.ltb_spec
              (String.length ((pre ++ ws) ++ String strings.dquote EmptyString) + String.length s)
              (String.length inp)) as [_|Hge];
    [|rewrite !length_append in Hge; simpl in Hge; lia].
  f_equal.
  - rewrite Nat.add_comm, Nat.add_sub. rewrite Hinp.
    rewrite substring_append_r. apply substring_prefix.
  - unfold advance. simpl. f_equal. rewrite !length_append. simpl. lia.
Qed.

Lemma parseArg_reads_quoted_witness :
  parseArg {| input := "~p" ++ " " ++ strings.quoted "a b&c" ++ " | ~m GET";
              pos := String.length "~p" |}
  = Val "a b&c" {| input := "~p" ++ " " ++ strings.quoted "a b&c" ++ " | ~m GET";
                   pos := String.length "~p" + String.length " " + String.length "a b&c" + 2 |}.
Proof.
  apply (parseArg_reads_quoted "~p" " " "a b&c" " | ~m GET").
  - repeat constructor.
  - repeat constructor.
Defined.

(** X22: an argument without quotes is the longest run of bytes up to the
    next blank, [&], [|] or [)].  When the bytes of [s] are none of these,
    [s] is not empty and does not start with a double quote, and what
    follows is the end of the input or one of these terminators, [parseArg]
    started before any blanks that precede [s] returns [s] and leaves the
    parser right behind it. *)
Theorem parseArg_reads_word (pre ws s rest : string) :
  Forall (fun c => is_blank c = true) (list_ascii_of_string ws) ->
  Forall (fun c => ends_arg c = false) (list_ascii_of_string s) ->
  match String.get 0 s with Some c => Ascii.eqb c strings.dquote = false | None => False end ->
  match String.get 0 rest with Some c => ends_arg c = true | None => True end ->
  parseArg {| input := pre ++ ws ++ s ++ rest; pos := String.length pre |}
  = Val s {| input := pre ++ ws ++ s ++ rest;
             pos := String.length pre + String.length ws + String.length s |}.
Proof.
  intros Hws Hs Hfirst Hrest. unfold parseArg.
  destruct s as [|c0 s0] eqn:Es; [destruct Hfirst|]. rewrite <- Es in *.
  assert (ends_arg c0 = false) as Hc0 by (rewrite Es in Hs; inversion Hs; assumption).
  assert (String.get 0 s = Some c0) as Hget0 by (rewrite Es; reflexivity).
  rewrite Hget0 in Hfirst.
  rewrite skipWS_blanks; [|exact Hws|].
  2:{ replace (String.get 0 (s ++ rest)) with (Some c0) by (rewrite Es; reflexivity).
      unfold ends_arg in Hc0. destruct (is_blank c0); [discriminate|reflexivity]. }
  set (inp := (pre ++ ws ++ s ++ rest)%string).
  assert (inp = (pre ++ ws) ++ s ++ rest)%string as Hinp
    by (unfold inp; rewrite append_assoc; reflexivity).
  assert (String.length inp
          = String.length pre + String.length ws + String.length s + String.length rest)%nat
    as Hlen by (rewrite Hinp, !length_append; lia).
  assert (0 < String.length s)%nat as Hpos by (rewrite Es; simpl; lia).
  unfold more, char_at. simpl.
  destruct (Nat.ltb_spec (String.length pre + String.length ws) (String.length inp)); [|lia].
  assert (String.get (String.length pre + String.length ws) inp = Some c0) as Hq.
  { rewrite Hinp, <- length_append.
    replace (String.length (pre ++ ws)) with (String.length (pre ++ ws) + 0)%nat by lia.
    rewrite get_append_r. rewrite Es. reflexivity. }
  rewrite Hq, Hfirst. fold inp.
  replace (String.length pre + String.length ws)%nat with (String.length (pre ++ ws))
    by apply length_append.
  rewrite Hinp. rewrite scan_from; [|exact Hs|exact Hrest].
  rewrite <- Hinp. simpl.
  destruct (Nat.eqb_spec (String.length (pre ++ ws) + String.length s) (String.length (pre ++ ws)));
    [lia|].
  unfold slice. simpl. f_equal.
  rewrite Nat.add_comm, Nat.add_sub. rewrite Hinp.
  rewrite substring_append_r. apply substring_prefix.
Qed.

Lemma parseArg_reads_word_witness :
  parseArg {| input := "~m" ++ "  " ++ "POST" ++ "&~s 2"; pos := String.length "~m" |}
  = Val "POST" {| input := "~m" ++ "  " ++ "POST" ++ "&~s 2";
                  pos := String.length "~m" + String.length "  " + String.length "POST" |}.
Proof.
  apply (parseArg_reads_word "~m" "  " "POST" "&~s 2").
  - repeat constructor.
  - repeat constructor.
  - reflexivity.
  - reflexivity.
Defined.

(** *** The whole expression *)

(** X23: a successful [Parse] has read the whole expression: the parser is
    left on the trimmed input with its position at the end, nothing of the
    expression is ignored. *)
Theorem Parse_consumes_input (u : Unicode) (expr : string) (flt : Filter) (p : parser) :
  Parse u expr = Val flt p ->
  input p = TrimSpace u expr /\ pos p = String.length (TrimSpace u expr).
Proof.
  unfold Parse, Parse_with.
  destruct (String.eqb_spec (TrimSpace u expr) "") as [He|Hne].
  - intros [= _ <-]. simpl. rewrite He. split; reflexivity.
  - destruct (FilterFacts.parse_sound u (fun _ => True)
                (fun _ _ _ _ => I) (fun _ _ _ _ => I) (fun _ _ _ _ => I) (fun _ _ => I)
                (fuel_for (TrimSpace u expr))) as (Sor & _).
    specialize (Sor {| input := TrimSpace u expr; pos := 0 |} (Nat.le_0_l _)).
    destruct (parseOr u _ _) as [f p'| | |]; simpl in *; try discriminate.
    destruct Sor as (_ & Hin & _ & Hle). simpl in *.
    unfold more. destruct (Nat.ltb_spec (pos p') (String.length (input p'))) as [Hlt|Hge];
      [discriminate|].
    intros [= _ <-]. rewrite Hin in Hge. split; [exact Hin|lia].
Qed.

Lemma Parse_consumes_input_witness :
  exists flt p,
    Parse ascii_only "  ~m GET & !~s 5 " = Val flt p /\
    input p = TrimSpace ascii_only "  ~m GET & !~s 5 " /\
    pos p = String.length (TrimSpace ascii_only "  ~m GET & !~s 5 ").
Proof.
  assert (exists flt p, Parse ascii_only "  ~m GET & !~s 5 " = Val flt p) as (flt & p & H)
    by (vm_compute; do 2 eexists; reflexivity).
  exists flt, p. split; [exact H|].
  apply (Parse_consumes_input ascii_only "  ~m GET & !~s 5 " flt p). exact H.
Defined.

(** *** Header filters *)

Lemma any_value_spec (u : Unicode) (val : string) (vv : list string) :
  any_value u val vv = true <->
  exists v, In v vv /\ strings.Contains (ToLower u v) val = true.
Proof.
  induction vv as [|v vv IH]; simpl.
  - split; [discriminate|]. intros (v & [] & _).
  - destruct (strings.Contains (ToLower u v) val) eqn:Hv.
    + split; [eauto|reflexivity].
    + rewrite IH. split.
      * intros (x & Hin & Hx). eauto.
      * intros (x & [<-|Hin] & Hx); [congruence|eauto].
Qed.

Lemma any_header_spec (u : Unicode) (key val : string) (h : Header) :
  any_header u key val h = true <->
  exists k vv, In (k, vv) h /\ strings.Contains (ToLower u k) key = true /\
               (val = "" \/ exists v, In v vv /\ strings.Contains (ToLower u v) val = true).
Proof.
  induction h as [|[k vv] h IH]; simpl.
  - split; [discriminate|]. intros (k & vv & [] & _).
  - destruct (strings.Contains (ToLower u k) key) eqn:Hk.
    + destruct (String.eqb_spec val "") as [Hv|Hv].
      * split; [|reflexivity]. intros _. exists k, vv. auto.
      * destruct (any_value u val vv) eqn:Hany.
        -- split; [|reflexivity]. intros _. exists k, vv.
           apply any_value_spec in Hany. auto.
        -- rewrite IH. split.
           ++ intros (k' & vv' & Hin & Hrest). exists k', vv'. auto.
           ++ intros (k' & vv' & [Heq|Hin] & Hk' & Hval); [|eauto 6].
              injection Heq as <- <-. destruct Hval as [Hval|Hval]; [contradiction|].
              apply any_value_spec in Hval. congruence.
    + rewrite IH. split.
      * intros (k' & vv' & Hin & Hrest). exists k', vv'. auto.
      * intros (k' & vv' & [Heq|Hin] & Hk' & Hval); [|eauto 6].
        injection Heq as <- <-. congruence.
Qed.

(** X24: what [~h] matches.  With the argument split at its first colon
    into a name and, if there is a colon, a value, the header filter holds
    of a flow exactly when some header of the captured request or of the
    captured response has a key that contains the name and, when the value
    is not empty, a value of its own that contains the value, all compared
    in lower case; a flow without request and response is not matched. *)
Theorem headerFilter_matches (u : Unicode) (arg : string) (f : Flow.Flow) :
  headerFilter u arg f = true <->
  exists k vv,
    In (k, vv)
       (match Flow.Request f with Some r => CapturedRequest.Headers r | None => [] end
        ++ match Flow.Response f with Some r => CapturedResponse.Headers r | None => [] end) /\
    strings.Contains (ToLower u k) (ToLower u (fst (strings.SplitN_colon arg))) = true /\
    match snd (strings.SplitN_colon arg) with
    | None => True
    | Some val =>
        ToLower u val = "" \/
        exists v, In v vv /\ strings.Contains (ToLower u v) (ToLower u val) = true
    end.
Proof.
  unfold headerFilter. destruct (strings.SplitN_colon arg) as [part0 part1]. simpl.
  set (key := ToLower u part0).
  set (val := match part1 with Some v => ToLower u v | None => EmptyString end).
  assert (forall vv, (match part1 with
                      | None => True
                      | Some v0 => ToLower u v0 = "" \/
                          exists v, In v vv /\ strings.Contains (ToLower u v) (ToLower u v0) = true
                      end) <->
                     (val = "" \/ exists v, In v vv /\ strings.Contains (ToLower u v) val = true))
    as Hval.
  { intros vv. unfold val. destruct part1 as [v0|]; [reflexivity|]. split; auto. }
  assert (forall h, any_header u key val h = true <->
            exists k vv, In (k, vv) h /\ strings.Contains (ToLower u k) key = true /\
              match part1 with
              | None => True
              | Some v0 => ToLower u v0 = "" \/
                  exists v, In v vv /\ strings.Contains (ToLower u v) (ToLower u v0) = true
              end) as Hany.
  { intros h. rewrite any_header_spec. split; intros (k & vv & Hin & Hk & Hv);
      exists k, vv; (split; [exact Hin|]); (split; [exact Hk|]); apply Hval; exact Hv. }
  assert (any_header u key val [] = false) as Hnil by reflexivity.
  set (hq := match Flow.Request f with Some r => CapturedRequest.Headers r | None => [] end).
  set (hs := match Flow.Response f with Some r => CapturedResponse.Headers r | None => [] end).
  assert ((match Flow.Request f with
           | Some r => any_header u key val (CapturedRequest.Headers r)
           | None => false
           end) = any_header u key val hq) as -> by (unfold hq; destruct (Flow.Request f); reflexivity).
  assert ((match Flow.Response f with
           | Some r => any_header u key val (CapturedResponse.Headers r)
           | None => false
           end) = any_header u key val hs) as -> by (unfold hs; destruct (Flow.Response f); reflexivity).
  destruct (any_header u key val hq) eqn:Hq.
  - split; [|reflexivity]. intros _. apply Hany in Hq. destruct Hq as (k & vv & Hin & Hrest).
    exists k, vv. split; [apply in_or_app; left; exact Hin|exact Hrest].
  - rewrite Hany. split.
    + intros (k & vv & Hin & Hrest). exists k, vv.
      split; [apply in_or_app; right; exact Hin|exact Hrest].
    + intros (k & vv & Hin & Hrest). apply in_app_or in Hin. destruct Hin as [Hin|Hin].
      * assert (any_header u key val hq = true) as Ht by (apply Hany; eauto).
        congruence.
      * eauto.
Qed.

End ArgumentFacts.

(** ** Configuration file and command line *)

Module ConfigFacts.
Import Engine.

(** X25: the upstreams [ToOptions] produces are the shorthand upstream, if
    one is given, named [default] with prefix [/], followed by one upstream
    for each entry of the list, in order and with its target; no prefix is
    empty, and an entry without a name is named by the prefix as written,
    so that an entry with neither name nor prefix gets the empty name and
    the prefix [/]. *)
Theorem ToOptions_upstreams (c : Config.Config) :
  Upstreams (Config.ToOptions c)
  = (if String.eqb (Config.Upstream c) "" then []
     else [{| Router.Name := "default"; Router.Prefix := "/";
              Router.Target := Config.Upstream c; Router.parsed := None |}])
    ++ map Config.upstream_of (Config.Upstreams c) /\
  map Router.Target (map Config.upstream_of (Config.Upstreams c))
  = map Config.Target (Config.Upstreams c) /\
  Forall (fun u => Router.Prefix u <> "" /\ Router.parsed u = None) (Upstreams (Config.ToOptions c)) /\
  Forall (fun u => Config.Name u = "" ->
                   Router.Name (Config.upstream_of u) = Config.Prefix u)
         (Config.Upstreams c) /\
  Forall (fun u => forall parse v, Router.prepare parse u = Some v ->
                                   Router.Prefix v = Router.Prefix u)
         (Upstreams (Config.ToOptions c)).
Proof.
  assert (Forall (fun u => Router.Prefix u <> "" /\ Router.parsed u = None)
            (Upstreams (Config.ToOptions c))) as Hprefix.
  { unfold Config.ToOptions. simpl. apply Forall_app. split.
    - destruct (String.eqb (Config.Upstream c) ""); simpl; repeat constructor. discriminate.
    - apply Forall_forall. intros u Hin. apply list_elem_of_In, in_map_iff in Hin.
      destruct Hin as (u0 & <- & _). unfold Config.upstream_of. simpl.
      split; [|reflexivity].
      destruct (String.eqb_spec (Config.Prefix u0) ""); [discriminate|assumption]. }
  split.
  { unfold Config.ToOptions. simpl. destruct (String.eqb (Config.Upstream c) ""); reflexivity. }
  split.
  { rewrite map_map. apply map_ext. intros u. reflexivity. }
  split; [exact Hprefix|]. split.
  - apply Forall_forall. intros u _ Hname. unfold Config.upstream_of. simpl.
    rewrite Hname. reflexivity.
  - eapply Forall_impl; [exact Hprefix|]. intros u [Hu _] parse v Hv.
    unfold Router.prepare in Hv. destruct (parse (Router.Target u)); [|discriminate].
    injection Hv as <-. simpl.
    destruct (String.eqb_spec (Router.Prefix u) ""); [contradiction|reflexivity].
Qed.

(** The options an engine runs with when they come from a
    configuration file: a key that is absent, and just as well a key
    given as zero or as the empty string, resolves to the default
    ([:9090], 9091, 1000 flows, 1 MiB); any other value is kept.  In
    particular a web port configured as 0 resolves to 9091, and the test
    [WebPort > 0] of [run] fails only for a negative port. *)
Lemma ToOptions_defaults (c : Config.Config) :
  ListenAddr (setDefaults (Config.ToOptions c))
  = (if String.eqb (Config.Listen c) "" then ":9090" else Config.Listen c) /\
  WebPort (setDefaults (Config.ToOptions c))
  = match Config.WebPort c with
    | Some n => if n =? 0 then 9091 else n
    | None => 9091
    end /\
  MaxFlows (setDefaults (Config.ToOptions c))
  = match Config.MaxFlows c with
    | Some n => if n =? 0 then 1000 else n
    | None => 1000
    end /\
  MaxBodySize (setDefaults (Config.ToOptions c))
  = match Config.MaxBodySize c with
    | Some n => if n =? 0 then 1048576 else n
    | None => 1048576
    end /\
  (0 <? WebPort (setDefaults (Config.ToOptions c)))
  = match Config.WebPort c with
    | Some n => negb (n <? 0)
    | None => true
    end.
Proof.
  unfold setDefaults, Config.ToOptions. simpl.
  split.
  { destruct (String.eqb_spec (Config.Listen c) "") as [He|Hne]; simpl; [reflexivity|].
    destruct (String.eqb_spec (Config.Listen c) ""); [contradiction|reflexivity]. }
  split; [destruct (Config.WebPort c); reflexivity|].
  split; [destruct (Config.MaxFlows c); reflexivity|].
  split; [destruct (Config.MaxBodySize c); reflexivity|].
  destruct (Config.WebPort c) as [n|]; [|reflexivity].
  destruct (Z.eqb_spec n 0) as [->|Hne]; [reflexivity|].
  destruct (Z.ltb_spec 0 n), (Z.ltb_spec n 0); simpl; first [reflexivity|lia].
Qed.

(** *** [--route] *)

Lemma SplitN2_None (sep : ascii) (s a : string) :
  strings.SplitN2 sep s = (a, None) ->
  a = s /\ ~ In sep (list_ascii_of_string s).
Proof.
  revert a. induction s as [|c s IH]; simpl; intros a.
  - intros [= <-]. auto.
  - destruct (Ascii.eqb_spec c sep) as [->|Hne]; [discriminate|].
    destruct (strings.SplitN2 sep s) as [a' b']. intros [= <- ->].
    destruct (IH a' eq_refl) as [-> Hnot]. split; [reflexivity|].
    intros [Heq|Hin]; [congruence|contradiction].
Qed.

Lemma SplitN2_Some (sep : ascii) (s a b : string) :
  strings.SplitN2 sep s = (a, Some b) ->
  s = (a ++ String sep b)%string /\ ~ In sep (list_ascii_of_string a).
Proof.
  revert a. induction s as [|c s IH]; simpl; intros a.
  - discriminate.
  - destruct (Ascii.eqb_spec c sep) as [->|Hne].
    + intros [= <- <-]. split; [reflexivity|intros []].
    + destruct (strings.SplitN2 sep s) as [a' b']. intros [= <- ->].
      destruct (IH a' eq_refl) as [-> Hnot]. split; [reflexivity|].
      intros [Heq|Hin]; [congruence|contradiction].
Qed.

Lemma routes_loop_spec (quote : string -> string) (routes : list string)
    (acc : list Router.Upstream) :
  match Main.routes_loop quote routes acc with
  | Ok ups =>
      exists made,
        ups = acc ++ made /\
        map (fun u => (Router.Prefix u ++ String "=" (Router.Target u))%string) made = routes /\
        Forall (fun u => Router.Name u <> "" /\
                         ~ In "="%char (list_ascii_of_string (Router.Prefix u)) /\
                         Router.Name u
                         = (if String.eqb (strings.TrimPrefix (Router.Prefix u) "/") ""
                            then "default" else strings.TrimPrefix (Router.Prefix u) "/"))
               made
  | Err msg =>
      exists r, In r routes /\ ~ In "="%char (list_ascii_of_string r) /\
                msg = ("invalid --route " ++ quote r ++ ": expected PREFIX=TARGET")%string
  | Panic => False
  end.
Proof.
  revert acc. induction routes as [|r routes IH]; intros acc; simpl.
  - exists []. rewrite app_nil_r. repeat split. constructor.
  - unfold Main.route_upstream.
    destruct (strings.SplitN2 "=" r) as [prefix [target|]] eqn:Hsplit.
    + specialize (IH (acc ++ [{| Router.Name :=
                                   if String.eqb (strings.TrimPrefix prefix "/") ""
                                   then "default" else strings.TrimPrefix prefix "/";
                                 Router.Prefix := prefix; Router.Target := target;
                                 Router.parsed := None |}])).
      destruct (Main.routes_loop quote routes _) as [ups|msg|].
      * destruct IH as (made & -> & Hroutes & Hall).
        eexists (_ :: made). split; [rewrite <- app_assoc; reflexivity|].
        apply SplitN2_Some in Hsplit as [-> Hnot]. simpl. split; [rewrite Hroutes; reflexivity|].
        constructor; [|exact Hall]. simpl. split; [|split; [exact Hnot|reflexivity]].
        destruct (String.eqb_spec (strings.TrimPrefix prefix "/") ""); [discriminate|assumption].
      * destruct IH as (r' & Hin & Hrest). exists r'. split; [right; exact Hin|exact Hrest].
      * exact IH.
    + apply SplitN2_None in Hsplit as [_ Hnot]. exists r. split; [left; reflexivity|].
      split; [exact Hnot|reflexivity].
Qed.

(** X26: [buildUpstreams] never panics.  It fails exactly on a [--route]
    value without [=], naming it in the error.  Otherwise it returns the
    [--upstream] target, if given, as the upstream [default] with prefix
    [/], followed by one upstream for each route in order, whose prefix and
    target are the parts before and after the first [=] (joined by [=]
    they give the route back), and whose name is the prefix without one
    leading slash, or [default] when that is empty: no name is empty. *)
Theorem buildUpstreams_routes (quote : string -> string) (flagUpstream : string)
    (flagRoutes : list string) :
  match Main.buildUpstreams quote flagUpstream flagRoutes with
  | Ok ups =>
      exists made,
        ups = (if String.eqb flagUpstream "" then []
               else [{| Router.Name := "default"; Router.Prefix := "/";
                        Router.Target := flagUpstream; Router.parsed := None |}]) ++ made /\
        map (fun u => (Router.Prefix u ++ String "=" (Router.Target u))%string) made
        = flagRoutes /\
        Forall (fun u => Router.Name u <> "" /\
                         ~ In "="%char (list_ascii_of_string (Router.Prefix u)) /\
                         Router.Name u
                         = (if String.eqb (strings.TrimPrefix (Router.Prefix u) "/") ""
                            then "default" else strings.TrimPrefix (Router.Prefix u) "/"))
               ups
  | Err msg =>
      exists r, In r flagRoutes /\ ~ In "="%char (list_ascii_of_string r) /\
                msg = ("invalid --route " ++ quote r ++ ": expected PREFIX=TARGET")%string
  | Panic => False
  end.
Proof.
  unfold Main.buildUpstreams.
  pose proof (routes_loop_spec quote flagRoutes
                (if negb (String.eqb flagUpstream "")
                 then [{| Router.Name := "default"; Router.Prefix := "/";
                          Router.Target := flagUpstream; Router.parsed := None |}]
                 else [])) as H.
  destruct (Main.routes_loop quote flagRoutes _) as [ups|msg|]; [|exact H|exact H].
  destruct H as (made & -> & Hroutes & Hall). exists made.
  destruct (String.eqb flagUpstream ""); simpl.
  - split; [reflexivity|]. split; [exact Hroutes|exact Hall].
  - split; [reflexivity|]. split; [exact Hroutes|].
    constructor; [|exact Hall]. simpl. split; [discriminate|].
    split; [|reflexivity]. intros [H|[]]. discriminate.
Qed.

End ConfigFacts.

(** ** Log lines and the terminal UI *)

Module DisplayFacts.

Lemma length_substring_prefix (s : string) (n : nat) :
  (n <= String.length s)%nat -> String.length (substring 0 n s) = n.
Proof.
  revert n. induction s as [|c s IH]; intros n Hn; simpl in *.
  - destruct n; [reflexivity|lia].
  - destruct n as [|n]; [reflexivity|]. simpl. rewrite IH by lia. reflexivity.
Qed.

Lemma int64_small (z : Z) : is_int64 z -> MinInt64 < z -> int64 (z - 1) = z - 1.
Proof.
  intros Hz Hmin. apply EngineFacts.int64_id. unfold is_int64 in *. lia.
Qed.

(** The slice [s[:max-1]] of the two truncating functions, for a limit
    below the length: it panics exactly when the limit is not positive. *)
Lemma slice_to_limit (s : string) (max : Z) :
  is_int64 max -> strings.len s < MaxInt64 -> max < strings.len s ->
  Log.slice_to s (int64 (max - 1))
  = if max <=? 0 then Panic else Ok (substring 0 (Z.to_nat (max - 1)) s).
Proof.
  intros Hmax Hlt Hgt. unfold Log.slice_to.
  assert (0 <= strings.len s) as Hlen by (unfold strings.len; lia).
  destruct (Z.eq_dec max MinInt64) as [->|Hne].
  - assert (int64 (MinInt64 - 1) = MaxInt64) as -> by reflexivity.
    destruct (Z.ltb_spec MaxInt64 0) as [H0|_]; [discriminate H0|].
    destruct (Z.ltb_spec (strings.len s) MaxInt64); [|lia]. reflexivity.
  - rewrite int64_small by (unfold is_int64 in *; lia).
    destruct (Z.leb_spec max 0), (Z.ltb_spec (max - 1) 0); try lia; simpl; [reflexivity|].
    destruct (Z.ltb_spec (strings.len s) (max - 1)); [lia|reflexivity].
Qed.

Lemma len_cut (s : string) (max : Z) :
  1 <= max < strings.len s ->
  strings.len (substring 0 (Z.to_nat (max - 1)) s ++ Log.ellipsis) = max + 2.
Proof.
  intros H. unfold strings.len in *. rewrite ArgumentFacts.length_append.
  rewrite length_substring_prefix by lia. simpl. lia.
Qed.

(** X27: [truncate] returns a string of at most [max] bytes as it is, and
    cuts a longer one to its first [max - 1] bytes followed by the
    three-byte ellipsis, [max + 2] bytes in all; it panics exactly when
    [max] is zero or negative and smaller than the length, which the calls
    in [write] (25 and 50) exclude.  ([max] is a Go [int], and the string
    is shorter than the largest [int].) *)
Theorem truncate_cases (s : string) (max : Z) :
  is_int64 max -> strings.len s < MaxInt64 ->
  match Log.truncate s max with
  | Ok t =>
      (strings.len s <= max /\ t = s) \/
      (1 <= max < strings.len s /\
       t = (substring 0 (Z.to_nat (max - 1)) s ++ Log.ellipsis)%string /\
       strings.len t = max + 2)
  | Err _ => False
  | Panic => max <= 0 /\ max < strings.len s
  end.
Proof.
  intros Hmax Hlt. unfold Log.truncate.
  destruct (Z.leb_spec (strings.len s) max) as [Hle|Hgt]; [left; auto|].
  rewrite slice_to_limit by assumption.
  destruct (Z.leb_spec max 0) as [H0|H1]; [split; assumption|].
  right. split; [lia|]. split; [reflexivity|]. apply len_cut. lia.
Qed.

Lemma truncate_cases_witness :
  match Log.truncate "/api/v1/items" 5 with
  | Ok t =>
      (strings.len "/api/v1/items" <= 5 /\ t = "/api/v1/items") \/
      (1 <= 5 < strings.len "/api/v1/items" /\
       t = (substring 0 (Z.to_nat (5 - 1)) "/api/v1/items" ++ Log.ellipsis)%string /\
       strings.len t = 5 + 2)
  | Err _ => False
  | Panic => 5 <= 0 /\ 5 < strings.len "/api/v1/items"
  end.
Proof.
  apply (truncate_cases "/api/v1/items" 5).
  - vm_compute. split; discriminate.
  - vm_compute. reflexivity.
Defined.

(** X28: the [truncateStr] of the terminal UI never panics: a limit that
    is zero or negative returns the string as it is, and for a positive
    limit the result is that of [truncate]. *)
Theorem truncateStr_total (s : string) (max : Z) :
  is_int64 max -> strings.len s < MaxInt64 ->
  exists t,
    Tui.truncateStr s max = Ok t /\
    (max <= 0 -> t = s) /\
    (0 < max -> Log.truncate s max = Ok t) /\
    strings.len t <= Z.max (strings.len s) (max + 2).
Proof.
  intros Hmax Hlt.
  assert (0 <= strings.len s) as Hlen by (unfold strings.len; lia).
  unfold Tui.truncateStr, Log.truncate.
  destruct (Z.leb_spec max 0) as [Hle|Hgt]; simpl.
  - exists s. split; [reflexivity|]. split; [reflexivity|]. split; lia.
  - destruct (Z.leb_spec (strings.len s) max) as [Hfit|Hlong].
    + exists s. split; [reflexivity|]. split; [lia|]. split; [reflexivity|lia].
    + rewrite slice_to_limit by assumption.
      destruct (Z.leb_spec max 0); [lia|].
      eexists. split; [reflexivity|]. split; [lia|]. split; [reflexivity|].
      rewrite len_cut by lia. lia.
Qed.

Lemma truncateStr_total_witness :
  exists t,
    Tui.truncateStr "/api/v1/items" 0 = Ok t /\
    (0 <= 0 -> t = "/api/v1/items") /\
    (0 < 0 -> Log.truncate "/api/v1/items" 0 = Ok t) /\
    strings.len t <= Z.max (strings.len "/api/v1/items") (0 + 2).
Proof.
  apply (truncateStr_total "/api/v1/items" 0).
  - vm_compute. split; discriminate.
  - vm_compute. reflexivity.
Defined.

(** *** The flow list of the terminal UI *)

Lemma applyFilter_loop_filter (h : gmap nat Flow.Flow) (flt : Filter.Filter)
    (fs acc : list nat) :
  Tui.applyFilter_loop h flt fs acc = acc ++ List.filter (Tui.holds h flt) fs.
Proof.
  revert acc. induction fs as [|f fs IH]; intros acc; simpl.
  - rewrite app_nil_r. reflexivity.
  - rewrite IH. destruct (Tui.holds h flt f); [rewrite <- app_assoc|]; reflexivity.
Qed.

Lemma sublist_filter {A : Type} (P : A -> bool) (l : list A) : sublist (List.filter P l) l.
Proof.
  induction l as [|x l IH]; simpl; [constructor|].
  destruct (P x); [apply sublist_skip|apply sublist_cons]; exact IH.
Qed.

Lemma Update_sublist (u : Filter.Unicode) (h : gmap nat Flow.Flow) (a : Tui.App)
    (msg : Tui.Msg) :
  sublist (Tui.filtered a) (Tui.allFlows a) ->
  sublist (Tui.filtered (Tui.Update u h a msg)) (Tui.allFlows (Tui.Update u h a msg)).
Proof.
  intros Hsub. destruct msg as [evt|expr|]; simpl.
  - unfold Tui.applyEvent. destruct (FlowStore.Type_ evt); simpl; try exact Hsub.
    destruct (Tui.holds h (Tui.filterParsed a) (FlowStore.Flow_ evt)).
    + apply sublist_app; [exact Hsub|reflexivity].
    + apply sublist_inserts_r. exact Hsub.
  - destruct (Filter.Parse u expr) as [f p| | |]; try exact Hsub.
    simpl. rewrite applyFilter_loop_filter. apply sublist_filter.
  - constructor.
Qed.

(** X29: the flows the terminal UI lists are always flows it has received,
    in the order of arrival: after any messages (flow events, filters
    entered, the clear key) [filtered] is a sublist of [allFlows].  Entering
    a filter that parses leaves exactly the flows that match it at that
    moment, a filter that does not parse changes nothing, and as long as no
    filter has been entered every flow received is listed. *)
Theorem filtered_is_sublist (u : Filter.Unicode) (msgs : list (gmap nat Flow.Flow * Tui.Msg))
    (h : gmap nat Flow.Flow) (expr : string) :
  sublist (Tui.filtered (Tui.handle u Tui.New msgs)) (Tui.allFlows (Tui.handle u Tui.New msgs)) /\
  match Filter.Parse u expr with
  | Filter.Val flt _ =>
      Tui.filtered (Tui.Update u h (Tui.handle u Tui.New msgs) (Tui.filterEnter expr))
      = List.filter (Tui.holds h flt) (Tui.allFlows (Tui.handle u Tui.New msgs))
  | _ =>
      Tui.Update u h (Tui.handle u Tui.New msgs) (Tui.filterEnter expr)
      = Tui.handle u Tui.New msgs
  end /\
  (Forall (fun hm => match snd hm with
                     | Tui.filterEnter _ => False
                     | Tui.flowEventMsg evt => is_Some (fst hm !! FlowStore.Flow_ evt)
                     | Tui.keyClear => True
                     end) msgs ->
   Tui.filtered (Tui.handle u Tui.New msgs) = Tui.allFlows (Tui.handle u Tui.New msgs)).
Proof.
  split; [|split].
  - unfold Tui.handle.
    assert (forall a, sublist (Tui.filtered a) (Tui.allFlows a) ->
              sublist (Tui.filtered (fold_left (fun a hm => Tui.Update u (fst hm) a (snd hm)) msgs a))
                      (Tui.allFlows (fold_left (fun a hm => Tui.Update u (fst hm) a (snd hm)) msgs a)))
      as H.
    { induction msgs as [|[h0 m] msgs IH]; intros a Ha; [exact Ha|].
      simpl. apply IH. apply Update_sublist. exact Ha. }
    apply H. constructor.
  - simpl. destruct (Filter.Parse u expr) as [flt p| | |]; try reflexivity.
    simpl. apply applyFilter_loop_filter.
  - unfold Tui.handle.
    assert (forall a, Tui.filterParsed a = Filter.MatchAll ->
              Tui.filtered a = Tui.allFlows a ->
              Forall (fun hm => match snd hm with
                                | Tui.filterEnter _ => False
                                | Tui.flowEventMsg evt => is_Some (fst hm !! FlowStore.Flow_ evt)
                                | Tui.keyClear => True
                                end) msgs ->
              Tui.filtered (fold_left (fun a hm => Tui.Update u (fst hm) a (snd hm)) msgs a)
              = Tui.allFlows (fold_left (fun a hm => Tui.Update u (fst hm) a (snd hm)) msgs a))
      as H.
    { induction msgs as [|[h0 m] msgs IH]; intros a Hflt Ha Hall; [exact Ha|].
      inversion Hall as [|? ? Hm Hall']; subst. simpl in *.
      apply IH; [| |exact Hall'].
      - destruct m as [evt|e|]; [|destruct Hm|exact Hflt].
        simpl. unfold Tui.applyEvent. destruct (FlowStore.Type_ evt); exact Hflt.
      - destruct m as [evt|e|]; [|destruct Hm|reflexivity].
        simpl. unfold Tui.applyEvent. destruct (FlowStore.Type_ evt); simpl; try exact Ha.
        unfold Tui.holds. destruct Hm as [flow ->]. rewrite Hflt. simpl. rewrite Ha. reflexivity. }
    apply H; reflexivity.
Qed.

End DisplayFacts.

(** ** The director *)

Module DirectorFacts.
Import ReverseProxy.

Lemma Header_lookup_Set (h : Header) (key value : string) :
  Header_lookup (Header_Set h key value) key = Some [value].
Proof.
  unfold Header_lookup. induction h as [|[k vv] h IH]; simpl.
  - rewrite String.eqb_refl. reflexivity.
  - destruct (String.eqb_spec k key) as [->|Hne]; simpl.
    + rewrite String.eqb_refl. reflexivity.
    + destruct (String.eqb_spec k key); [contradiction|]. exact IH.
Qed.

Lemma Header_lookup_Set_other (h : Header) (key value k' : string) :
  k' <> key -> Header_lookup (Header_Set h key value) k' = Header_lookup h k'.
Proof.
  intros Hne. unfold Header_lookup. induction h as [|[k vv] h IH]; simpl.
  - destruct (String.eqb_spec key k'); [congruence|reflexivity].
  - destruct (String.eqb_spec k key) as [->|Hk]; simpl.
    + destruct (String.eqb_spec key k'); [congruence|reflexivity].
    + destruct (String.eqb_spec k k'); [reflexivity|exact IH].
Qed.

Lemma Header_Set_keys (h : Header) (key value : string) :
  map fst (Header_Set h key value)
  = if existsb (String.eqb key) (map fst h) then map fst h else map fst h ++ [key].
Proof.
  induction h as [|[k vv] h IH]; simpl; [reflexivity|].
  destruct (String.eqb_spec k key) as [->|Hk]; simpl.
  - rewrite String.eqb_refl. reflexivity.
  - destruct (String.eqb_spec key k); [congruence|]. simpl. rewrite IH.
    destruct (existsb (String.eqb key) (map fst h)); reflexivity.
Qed.

Lemma Header_Set_is_map (h : Header) (key value : string) :
  is_map h -> is_map (Header_Set h key value).
Proof.
  unfold is_map. intros Hnd. rewrite Header_Set_keys.
  destruct (existsb (String.eqb key) (map fst h)) eqn:Hex; [exact Hnd|].
  apply NoDup_app. split; [exact Hnd|]. split; [|repeat constructor; intros H; inversion H].
  intros k Hin Hk. apply list_elem_of_singleton in Hk. subst k.
  assert (existsb (String.eqb key) (map fst h) = true) as Ht.
  { apply existsb_exists. exists key. split; [apply list_elem_of_In; exact Hin|].
    apply String.eqb_refl. }
  congruence.
Qed.

Lemma substring_all (s : string) : substring 0 (String.length s) s = s.
Proof. induction s as [|c s IH]; simpl; [reflexivity|]. rewrite IH. reflexivity. Qed.

Lemma HasSuffix_append (a b : string) : strings.HasSuffix (a ++ b) b = true.
Proof.
  unfold strings.HasSuffix. rewrite ArgumentFacts.length_append.
  destruct (Nat.leb_spec (String.length b) (String.length a + String.length b)); [|lia].
  simpl. rewrite Nat.add_sub. rewrite ArgumentFacts.substring_append_r, substring_all.
  apply String.eqb_refl.
Qed.

Lemma HasSuffix_refl (a : string) : strings.HasSuffix a a = true.
Proof. apply (HasSuffix_append EmptyString a). Qed.

(** X30: for an upstream of a router built by [NewRouter] the director
    does not dereference nil.  It points the request at the parsed target
    (scheme and host of the URL, and the [Host] field), leaves the request
    path as a suffix of the new path (unchanged when the target has no path
    or the path [/]), and sets [X-Forwarded-For] to a single value that
    ends in the remote address (and is the remote address when the header
    was absent); every other header, the method and the body stay as they
    were. *)
Theorem Director_rewrites (parse : string -> option Router.URL)
    (sort_Slice : (Router.Upstream -> Router.Upstream -> bool) ->
                  list Router.Upstream -> list Router.Upstream)
    (ups : list Router.Upstream) (r : Router.Router) (upstream : Router.Upstream)
    (remoteAddr : string) (req : http.Request) :
  Router.sort_Slice_spec sort_Slice ->
  Router.NewRouter parse sort_Slice ups = Some r ->
  In upstream (Router.upstreams r) ->
  exists target out v,
    parse (Router.Target upstream) = Some target /\
    Director upstream remoteAddr req = Some out /\
    http.Host out = Router.Host target /\
    Router.Scheme (http.URL out) = Router.Scheme target /\
    Router.Host (http.URL out) = Router.Host target /\
    strings.HasSuffix (Router.Path (http.URL out)) (Router.Path (http.URL req)) = true /\
    (Router.Path target = "" \/ Router.Path target = "/" ->
     Router.Path (http.URL out) = Router.Path (http.URL req)) /\
    Header_lookup (http.Header_ out) "X-Forwarded-For" = Some [v] /\
    strings.HasSuffix v remoteAddr = true /\
    (Header_lookup (http.Header_ req) "X-Forwarded-For" = None -> v = remoteAddr) /\
    (forall k, k <> "X-Forwarded-For" ->
               Header_lookup (http.Header_ out) k = Header_lookup (http.Header_ req) k) /\
    (is_map (http.Header_ req) -> is_map (http.Header_ out)) /\
    http.Method out = http.Method req /\
    http.Body_ out = http.Body_ req /\
    http.ContentLength out = http.ContentLength req.
Proof.
  intros Hsort Hnew Hin. unfold Router.NewRouter in Hnew.
  destruct (Router.prepare_all parse ups) as [l|] eqn:Hl; [|discriminate].
  injection Hnew as <-. simpl in Hin.
  destruct (Hsort l) as [Hperm _].
  apply (Permutation_in _ (Permutation_sym Hperm)) in Hin.
  destruct (RouterFacts.prepare_all_In parse ups l Hl) as [Hfrom _].
  destruct (Hfrom upstream Hin) as (u0 & _ & Hprep).
  unfold Router.prepare in Hprep.
  destruct (parse (Router.Target u0)) as [target|] eqn:Ht; [|discriminate].
  injection Hprep as <-. simpl.
  unfold Director. simpl.
  exists target. eexists. eexists. split; [exact Ht|]. split; [reflexivity|]. simpl.
  split; [reflexivity|]. split; [reflexivity|]. split; [reflexivity|].
  split.
  { destruct (negb (String.eqb (Router.Path target) "") && negb (String.eqb (Router.Path target) "/"));
      [apply HasSuffix_append|apply HasSuffix_refl]. }
  split.
  { intros [->| ->]; reflexivity. }
  split; [apply Header_lookup_Set|].
  split.
  { destruct (Header_lookup (http.Header_ req) "X-Forwarded-For") as [prior|].
    - rewrite <- ArgumentFacts.append_assoc. apply HasSuffix_append.
    - apply HasSuffix_refl. }
  split.
  { intros ->. reflexivity. }
  split; [intros k Hk; apply Header_lookup_Set_other; exact Hk|].
  split; [apply Header_Set_is_map|].
  repeat split; reflexivity.
Qed.

Lemma Director_rewrites_witness :
  exists r upstream,
    Router.NewRouter Router.parse_any Router.insertion_sort Router.two_upstreams = Some r /\
    Router.upstreams r !! 0%nat = Some upstream /\
    exists target out v,
      Router.parse_any (Router.Target upstream) = Some target /\
      Director upstream "10.0.0.7:51234" (Samples.request_with "ping" None) = Some out /\
      http.Host out = Router.Host target /\
      Router.Scheme (http.URL out) = Router.Scheme target /\
      Router.Host (http.URL out) = Router.Host target /\
      strings.HasSuffix (Router.Path (http.URL out))
        (Router.Path (http.URL (Samples.request_with "ping" None))) = true /\
      (Router.Path target = "" \/ Router.Path target = "/" ->
       Router.Path (http.URL out) = Router.Path (http.URL (Samples.request_with "ping" None))) /\
      Header_lookup (http.Header_ out) "X-Forwarded-For" = Some [v] /\
      strings.HasSuffix v "10.0.0.7:51234" = true /\
      (Header_lookup (http.Header_ (Samples.request_with "ping" None)) "X-Forwarded-For" = None ->
       v = "10.0.0.7:51234") /\
      (forall k, k <> "X-Forwarded-For" ->
                 Header_lookup (http.Header_ out) k
                 = Header_lookup (http.Header_ (Samples.request_with "ping" None)) k) /\
      (is_map (http.Header_ (Samples.request_with "ping" None)) -> is_map (http.Header_ out)) /\
      http.Method out = http.Method (Samples.request_with "ping" None) /\
      http.Body_ out = http.Body_ (Samples.request_with "ping" None) /\
      http.ContentLength out = http.ContentLength (Samples.request_with "ping" None).
Proof.
  do 2 eexists. split; [reflexivity|]. split; [reflexivity|].
  eapply (Director_rewrites Router.parse_any Router.insertion_sort Router.two_upstreams).
  - exact RouterFacts.insertion_sort_spec.
  - reflexivity.
  - left. reflexivity.
Defined.

End DirectorFacts.
